(** * Skeleton tracing: a shallow embedding of [fitting::PolylineFitting]
      and of [fitting::FittingUtils::simplifyPolyline]

    The bit image is the [std::vector<uint8_t>] of the source together with
    its two dimensions.  An iterator into the image is modelled by its
    distance from [begin()], an integer; a vector of iterators is a list of
    such integers.  Signed 32-bit arithmetic is written in [Z]: the source
    leaves overflow undefined, and every index it computes is bounded by the
    number of pixels of the image. *)

From Stdlib Require Import ZArith List Lia Bool Permutation.
From Stdlib Require Floats.PrimFloat Uint63.
From Stdlib Require Floats.FloatOps Floats.FloatAxioms Floats.SpecFloat.
From stdpp Require Import base numbers list sorting strings.
Import ListNotations.

Local Open Scope Z_scope.

(** ** The bit image (class [BitImage]) *)

Record BitImage : Type := mkBitImage {
  bits   : list Z;   (* the inherited std::vector<uint8_t> *)
  m_rows : Z;
  m_cols : Z
}.

(** [*px]: the byte an iterator points to.  Inside the vector this is the
    stored byte; elsewhere C++ defines no value and the embedding answers 0.
    On a well-formed image the thinner reads inside the vector only (lemma
    [neighbour_in_range]). *)
Definition deref (image : BitImage) (px : Z) : Z :=
  if px <? 0 then 0 else default 0 (bits image !! Z.to_nat px).

(** [*px = v] *)
Definition assign (image : BitImage) (px v : Z) : BitImage :=
  if px <? 0 then image
  else mkBitImage (<[Z.to_nat px := v]> (bits image)) (m_rows image) (m_cols image).

(** [BitImage::coords]: integer division of C++ truncates, hence [Z.quot]
    and [Z.rem]. *)
Definition coords (image : BitImage) (px : Z) : Z * Z :=
  (Z.quot px (m_cols image), Z.rem px (m_cols image)).

(** [BitImage::find] *)
Definition find (image : BitImage) (row col : Z) : Z :=
  m_cols image * row + col.

(** [BitImage::section]: the two nested loops, row-major.  Ahead of the
    loops the source reserves [static_cast<size_t>(rows * cols)] places, in a
    function declared [noexcept]: the list is what a call returns, and a call
    returns when [section_returns] holds of its extents. *)
Definition section (image : BitImage) (r0 c0 rows cols : Z) : list Z :=
  flat_map (fun r => map (fun c => m_cols image * r + c) (seqZ c0 cols))
           (seqZ r0 rows).

(** The extents for which [section] returns: their product, an [int32_t], is
    not negative.  A negative product is cast to a [size_t] above
    [max_size()], [reserve] throws [std::length_error], and the program is
    terminated in the [noexcept] function; that is the case when exactly one
    of [rows] and [cols] is negative. *)
Definition section_returns (rows cols : Z) : Prop := 0 <= rows * cols < 2 ^ 31.

(** Conversion of a byte to [bool], as in [!p], [p && q] and [*px ? .. : ..]. *)
Definition truthy (v : Z) : bool := negb (v =? 0).

(** [int32_t{b}] *)
Definition b2i (b : bool) : Z := if b then 1 else 0.

(** The constructor [BitImage(imageData, isPixelOn, rows, cols)]: a vector of
    [rows * cols] zero bytes, overwritten by the predicate applied to the
    caller's pixels.  This is the image the constructor leaves when the
    product fits an [int32_t]; the constructor with the product as the source
    computes it, and the exception of the vector, is [Entry.BitImage_new]. *)
Definition BitImage_from {TP : Type} (imageData : list TP) (isPixelOn : TP -> bool)
    (rows cols : Z) : BitImage :=
  let n := Z.to_nat (rows * cols) in
  mkBitImage (take n (map (fun p => b2i (isPixelOn p)) imageData
                      ++ replicate (n - length imageData)%nat 0))
             rows cols.

(** Well-formed images: the vector holds [m_rows * m_cols] bytes. *)
Definition wf_image (image : BitImage) : Prop :=
  0 <= m_rows image /\ 0 <= m_cols image /\
  Z.of_nat (length (bits image)) = m_rows image * m_cols image.

(** Every stored byte is 0 or 1, as produced by a boolean predicate. *)
Definition binary (image : BitImage) : Prop :=
  Forall (fun v => v = 0 \/ v = 1) (bits image).

(** Number of on-pixels of the image. *)
Definition countOn (image : BitImage) : nat :=
  length (List.filter truthy (bits image)).

(** ** The thinner ([PolylineFitting::thinImage]) *)

Module Thinner.

(** The arithmetic of the inner loop on the eight neighbour bytes: [A], [B],
    [m1], [m2] and the condition of the [if]. *)
Definition flagRule (iteration : bool) (p2 p3 p4 p5 p6 p7 p8 p9 : Z) : bool :=
  let A := b2i (negb (truthy p2) && truthy p3) + b2i (negb (truthy p3) && truthy p4)
         + b2i (negb (truthy p4) && truthy p5) + b2i (negb (truthy p5) && truthy p6)
         + b2i (negb (truthy p6) && truthy p7) + b2i (negb (truthy p7) && truthy p8)
         + b2i (negb (truthy p8) && truthy p9) + b2i (negb (truthy p9) && truthy p2) in
  let B := p2 + p3 + p4 + p5 + p6 + p7 + p8 + p9 in
  let m1 := if iteration then truthy p2 && truthy p4 && truthy p8
            else truthy p2 && truthy p4 && truthy p6 in
  let m2 := if iteration then truthy p2 && truthy p6 && truthy p8
            else truthy p4 && truthy p6 && truthy p8 in
  (A =? 1) && ((2 <=? B) && (B <=? 6)) && negb m1 && negb m2.

(** The test of the inner loop for the pixel [px]: the eight neighbours are
    read through [find] from the coordinates of [px]. *)
Definition flagTest (iteration : bool) (image : BitImage) (px : Z) : bool :=
  let '(r, c) := coords image px in
  flagRule iteration
    (deref image (find image (r - 1) (c + 0)))
    (deref image (find image (r - 1) (c + 1)))
    (deref image (find image (r + 0) (c + 1)))
    (deref image (find image (r + 1) (c + 1)))
    (deref image (find image (r + 1) (c + 0)))
    (deref image (find image (r + 1) (c - 1)))
    (deref image (find image (r + 0) (c - 1)))
    (deref image (find image (r - 1) (c - 1))).

(** The variables that live across iterations of [while (difference)]. *)
Record State : Type := mkState {
  image      : BitImage;
  onPixels   : list Z;
  difference : bool;
  iteration  : bool
}.

(** [onPixels] after the erase-remove of the pixels that are off. *)
Definition remaining (s : State) : list Z :=
  List.filter (fun px => negb (deref (image s) px =? 0)) (onPixels s).

(** [flaggedPixels] at the end of the [for] loop: every test reads the image
    as it is when the sub-iteration starts. *)
Definition flaggedPixels (s : State) : list Z :=
  List.filter (flagTest (iteration s) (image s)) (remaining s).

(** [std::for_each(flaggedPixels, *px = 0)] *)
Definition clearAll (flagged : list Z) (img : BitImage) : BitImage :=
  fold_left (fun im px => assign im px 0) flagged img.

(** One pass through the body of the [while] loop. *)
Definition body (s : State) : State :=
  let flagged := flaggedPixels s in
  mkState (clearAll flagged (image s))
          (remaining s)
          (negb (match flagged with [] => true | _ => false end))
          (negb (iteration s)).

(** State on entry to the loop, for images on which the call of [section]
    returns. *)
Definition init (img : BitImage) : State :=
  mkState img (section img 1 1 (m_rows img - 2) (m_cols img - 2)) true false.

(** The [while] loop, with a bound on the number of passes. *)
Fixpoint loop (fuel : nat) (s : State) : option BitImage :=
  if difference s then
    match fuel with
    | O => None
    | S fuel' => loop fuel' (body s)
    end
  else Some (image s).

Definition thinImage_fuel (fuel : nat) (img : BitImage) : option BitImage :=
  loop fuel (init img).

(** [thinImage]: as many passes as there are on-pixels, plus one, are always
    enough (lemma [loop_enough_fuel]). *)
Definition thinImage (img : BitImage) : BitImage :=
  default img (thinImage_fuel (S (countOn img)) img).

(** The loop states met by a run on [img0]: [Reach img0 k s] says that [s]
    is the state before the sub-iteration numbered [k] (from 0), which is
    executed when [difference s] holds. *)
Inductive Reach (img0 : BitImage) : nat -> State -> Prop :=
| Reach_init : Reach img0 O (init img0)
| Reach_step k s :
    Reach img0 k s -> difference s = true -> Reach img0 (S k) (body s).

(** *** The rule as the specification words it *)

(** The neighbourhood  P9 P2 P3 / P8 P1 P4 / P7 P6 P5  of the pixel (r, c). *)
Definition P (img : BitImage) (r c : Z) (k : nat) : Z :=
  match k with
  | 2%nat => deref img (find img (r - 1) c)
  | 3%nat => deref img (find img (r - 1) (c + 1))
  | 4%nat => deref img (find img r (c + 1))
  | 5%nat => deref img (find img (r + 1) (c + 1))
  | 6%nat => deref img (find img (r + 1) c)
  | 7%nat => deref img (find img (r + 1) (c - 1))
  | 8%nat => deref img (find img r (c - 1))
  | 9%nat => deref img (find img (r - 1) (c - 1))
  | _ => deref img (find img r c)
  end.

(** Number of places where a 0 is followed by a 1 in a sequence. *)
Fixpoint transitions01 (l : list Z) : Z :=
  match l with
  | x :: ((y :: _) as t) => (if (x =? 0) && (y =? 1) then 1 else 0) + transitions01 t
  | _ => 0
  end.

(** A(P1): the 0 -> 1 transitions around the cycle P2, P3, ..., P9, P2. *)
Definition specA (img : BitImage) (r c : Z) : Z :=
  transitions01 (map (P img r c) [2; 3; 4; 5; 6; 7; 8; 9; 2]%nat).

(** B(P1): the number of on-neighbours. *)
Definition specB (img : BitImage) (r c : Z) : Z :=
  Z.of_nat (length (List.filter (fun v => negb (v =? 0))
                                (map (P img r c) [2; 3; 4; 5; 6; 7; 8; 9]%nat))).

Definition specM1 (subIteration : nat) (img : BitImage) (r c : Z) : Z :=
  if Nat.even subIteration then P img r c 2 * P img r c 4 * P img r c 6
  else P img r c 2 * P img r c 4 * P img r c 8.

Definition specM2 (subIteration : nat) (img : BitImage) (r c : Z) : Z :=
  if Nat.even subIteration then P img r c 4 * P img r c 6 * P img r c 8
  else P img r c 2 * P img r c 6 * P img r c 8.

(** Interior pixels: the candidates of the thinner. *)
Definition interior (img : BitImage) (px : Z) : Prop :=
  exists r c, 1 <= r <= m_rows img - 2 /\ 1 <= c <= m_cols img - 2 /\ px = find img r c.

(** The rule of the specification on eight neighbour values, as a boolean. *)
Definition specRule (subIteration : nat) (p2 p3 p4 p5 p6 p7 p8 p9 : Z) : bool :=
  (transitions01 [p2; p3; p4; p5; p6; p7; p8; p9; p2] =? 1)
  && (2 <=? Z.of_nat (length (List.filter (fun v => negb (v =? 0))
                                          [p2; p3; p4; p5; p6; p7; p8; p9])))
  && (Z.of_nat (length (List.filter (fun v => negb (v =? 0))
                                    [p2; p3; p4; p5; p6; p7; p8; p9])) <=? 6)
  && ((if Nat.even subIteration then p2 * p4 * p6 else p2 * p4 * p8) =? 0)
  && ((if Nat.even subIteration then p4 * p6 * p8 else p2 * p6 * p8) =? 0).

End Thinner.

(** ** The polyline merger ([PolylineFitting::mergePolylines]) *)

Module Merger.

(** [v.front()] and [v.back()].  The source calls them on polylines, which
    are never empty; on an empty vector C++ leaves them undefined and the
    embedding answers 0. *)
Definition front (pl : list Z) : Z := hd 0 pl.
Definition back (pl : list Z) : Z := List.last pl 0.

(** [std::find_if(first, last, p) - first] on the range held by [l]: the
    position of the first element that satisfies [p], the length of the range
    when there is none. *)
Fixpoint find_if {A : Type} (p : A -> bool) (l : list A) : nat :=
  match l with
  | [] => O
  | x :: t => if p x then O else S (find_if p t)
  end.

(** [std::iter_swap] of the elements at positions [i] and [j]. *)
Definition iter_swap {A : Type} (l : list A) (i j : nat) : list A :=
  match l !! i, l !! j with
  | Some x, Some y => <[j := x]> (<[i := y]> l)
  | _, _ => l
  end.

(** What the four tests of the loop body do with the matched source. *)
Definition spliceFrontFront (dest src : list Z) : list Z := removelast (rev src) ++ dest.
Definition spliceFrontBack (dest src : list Z) : list Z := removelast src ++ dest.
Definition spliceBackFront (dest src : list Z) : list Z := dest ++ tail src.
Definition spliceBackBack (dest src : list Z) : list Z := dest ++ tail (rev src).

(** A match: splice the source at position [i] into [dest], swap it with the
    last live source and shrink the live range [0, srcEnd). *)
Definition take_source (splice : list Z -> list Z -> list Z) (dest : list Z)
    (srcPolylines : list (list Z)) (srcEnd i : nat) : list Z * (list (list Z) * nat) :=
  (splice dest (default [] (srcPolylines !! i)),
   (iter_swap srcPolylines i (srcEnd - 1), (srcEnd - 1)%nat)).

(** The body of [for (auto& dest : destPolylines)]: four searches among the
    live sources, the first that succeeds wins. *)
Definition mergeOne (dest : list Z) (st : list (list Z) * nat)
    : list Z * (list (list Z) * nat) :=
  let '(srcPolylines, srcEnd) := st in
  let live := take srcEnd srcPolylines in
  let i1 := find_if (fun src => front dest =? front src) live in
  if (i1 <? srcEnd)%nat then take_source spliceFrontFront dest srcPolylines srcEnd i1 else
  let i2 := find_if (fun src => front dest =? back src) live in
  if (i2 <? srcEnd)%nat then take_source spliceFrontBack dest srcPolylines srcEnd i2 else
  let i3 := find_if (fun src => back dest =? front src) live in
  if (i3 <? srcEnd)%nat then take_source spliceBackFront dest srcPolylines srcEnd i3 else
  let i4 := find_if (fun src => back dest =? back src) live in
  if (i4 <? srcEnd)%nat then take_source spliceBackBack dest srcPolylines srcEnd i4 else
  (dest, (srcPolylines, srcEnd)).

(** The [for] loop over the destinations. *)
Fixpoint mergeLoop (dests : list (list Z)) (st : list (list Z) * nat)
    : list (list Z) * (list (list Z) * nat) :=
  match dests with
  | [] => ([], st)
  | dest :: rest =>
      let '(dest', st') := mergeOne dest st in
      let '(rest', st'') := mergeLoop rest st' in
      (dest' :: rest', st'')
  end.

Definition mergePolylines (destPolylines srcPolylines : list (list Z)) : list (list Z) :=
  match destPolylines, srcPolylines with
  | [], _ => srcPolylines
  | _, [] => destPolylines
  | _, _ =>
      let '(dests, (srcs, srcEnd)) :=
        mergeLoop destPolylines (srcPolylines, length srcPolylines) in
      dests ++ take srcEnd srcs
  end.

(** The sources left unmerged by the loop, and the number of merges. *)
Definition unmergedSources (destPolylines srcPolylines : list (list Z)) : list (list Z) :=
  match destPolylines with
  | [] => srcPolylines
  | _ =>
      let '(_, (srcs, srcEnd)) :=
        mergeLoop destPolylines (srcPolylines, length srcPolylines) in
      take srcEnd srcs
  end.

Definition mergesPerformed (destPolylines srcPolylines : list (list Z)) : nat :=
  (length srcPolylines - length (unmergedSources destPolylines srcPolylines))%nat.

(** A locator that ends both polylines. *)
Definition sharedEnd (x : Z) (dest src : list Z) : Prop :=
  (x = front dest \/ x = back dest) /\ (x = front src \/ x = back src).

(** What one pass of the loop over the destinations does. *)
Definition OneStep (dest : list Z) (srcs : list (list Z)) (e : nat)
    (dest' : list Z) (srcs' : list (list Z)) (e' : nat) : Prop :=
  (dest' = dest /\ srcs' = srcs /\ e' = e) \/
  (exists s x, In s (take e srcs) /\ S e' = e /\
               take e srcs ≡ₚ take e' srcs' ++ [s] /\
               dest' ++ [x] ≡ₚ dest ++ s /\ sharedEnd x dest s).

(** The four ways a source is spliced into a destination. *)
Definition Spliced (dest src dest' : list Z) : Prop :=
  dest' = spliceFrontFront dest src \/ dest' = spliceFrontBack dest src \/
  dest' = spliceBackFront dest src \/ dest' = spliceBackBack dest src.

End Merger.

(** ** [std::sort]

    The leaf fitter sorts with the standard library.  [std::sort] promises a
    permutation of its input in which no element compares less than an
    earlier one, and leaves the order of equivalent elements open; the
    embedding takes any function with that contract, for comparators that
    compare an integer key as the lambda of the source does. *)
Class StdSort : Type := {
  std_sort : (Z -> Z -> bool) -> list Z -> list Z;
  std_sort_perm : forall comp l, Permutation (std_sort comp l) l;
  std_sort_sorted : forall comp key l,
    (forall a b, comp a b = (key a <? key b)) ->
    forall (i j : nat) x y, (i < j)%nat ->
      std_sort comp l !! i = Some x -> std_sort comp l !! j = Some y -> key x <= key y
}.

(** Insertion sort, one function with the contract. *)
Fixpoint insert_sorted (comp : Z -> Z -> bool) (x : Z) (l : list Z) : list Z :=
  match l with
  | [] => [x]
  | y :: t => if comp x y then x :: y :: t else y :: insert_sorted comp x t
  end.

Definition insertion_sort (comp : Z -> Z -> bool) (l : list Z) : list Z :=
  fold_right (insert_sorted comp) [] l.

Lemma insert_sorted_perm (comp : Z -> Z -> bool) (x : Z) (l : list Z) :
  Permutation (insert_sorted comp x l) (x :: l).
Proof.
  induction l as [|y t IH]; simpl; [reflexivity|].
  destruct (comp x y); [reflexivity|].
  rewrite IH. apply perm_swap.
Qed.

Lemma insert_sorted_sorted (comp : Z -> Z -> bool) (key : Z -> Z) (x : Z) (l : list Z) :
  (forall a b, comp a b = (key a <? key b)) ->
  StronglySorted (fun a b => key a <= key b) l ->
  StronglySorted (fun a b => key a <= key b) (insert_sorted comp x l).
Proof.
  intros Hc. induction l as [|y t IH]; intros Hs; simpl.
  - constructor; constructor.
  - apply StronglySorted_inv in Hs as [Hst Hall].
    rewrite Hc. destruct (Z.ltb_spec (key x) (key y)) as [Hlt|Hge].
    + constructor; [constructor; assumption|].
      constructor; [lia|]. eapply Forall_impl; [exact Hall|]. simpl. intros; lia.
    + constructor; [apply IH, Hst|].
      rewrite (insert_sorted_perm comp x t). constructor; assumption.
Qed.

Lemma StronglySorted_lookup (key : Z -> Z) (l : list Z) :
  StronglySorted (fun a b => key a <= key b) l ->
  forall (i j : nat) x y, (i < j)%nat -> l !! i = Some x -> l !! j = Some y -> key x <= key y.
Proof.
  induction 1 as [|a l Hs IH Hall]; intros i j x y Hij Hi Hj; [destruct i; discriminate|].
  destruct j as [|j]; [lia|]. destruct i as [|i]; simpl in *.
  - injection Hi as <-. rewrite Forall_forall in Hall.
    apply Hall. eapply list_elem_of_lookup_2. exact Hj.
  - apply (IH i j); [lia|assumption..].
Qed.

#[export] Instance InsertionSort : StdSort.
Proof.
  refine {| std_sort := insertion_sort |}.
  - intros comp l. unfold insertion_sort. induction l as [|x l IH]; simpl; [reflexivity|].
    rewrite insert_sorted_perm, IH. reflexivity.
  - intros comp key l Hc. apply StronglySorted_lookup.
    unfold insertion_sort. induction l as [|x l IH]; simpl; [constructor|].
    apply (insert_sorted_sorted comp key); assumption.
Defined.

(** ** The leaf segment fitter ([PolylineFitting::fitSegments]) *)

Module Leaf.
Import Merger.

(** [pixelsFrame] after the four [insert]s: the frame of the section,
    clockwise from its top-left corner. *)
Definition pixelsFrame (image : BitImage) (r0 c0 rows cols : Z) : list Z :=
  let r1 := r0 + rows - 1 in
  let c1 := c0 + cols - 1 in
  let topRow := section image r0 c0 1 (cols - 1) in
  let rightCol := section image r0 c1 (rows - 1) 1 in
  let bottomRow := section image r1 (c0 + 1) 1 (cols - 1) in
  let leftCol := section image (r0 + 1) c0 (rows - 1) 1 in
  topRow ++ rightCol ++ rev bottomRow ++ rev leftCol.

Definition isOn (image : BitImage) (px : Z) : bool := truthy (deref image px).
Definition isOff (image : BitImage) (px : Z) : bool := negb (truthy (deref image px)).

(** [std::find_if(v.begin() + from, v.end(), p) - v.begin()] *)
Definition find_from {A : Type} (p : A -> bool) (v : list A) (from : nat) : nat :=
  (from + find_if p (drop from v))%nat.

(** [std::rotate(v.begin(), v.begin() + k, v.end())] *)
Definition rotate {A : Type} (k : nat) (v : list A) : list A :=
  drop k v ++ take k v.

(** The variables of the [do ... while] loop, and the positions of
    [pixelsFrame] that the computation of [pxMid] has read so far. *)
Record Scan : Type := mkScan {
  pxOff    : nat;
  segments : list (list Z);
  midReads : list nat
}.

(** The [do ... while] loop on the frame [v], at most [fuel] passes.  The
    value read for [pxMid] one past the end of [v] belongs to no pixel; it is
    read and never used. *)
Fixpoint scanLoop (image : BitImage) (v : list Z) (pxCenter : Z) (fuel : nat) (st : Scan)
    : option Scan :=
  match fuel with
  | O => None
  | S fuel' =>
      let pxOn := find_from (isOn image) v (pxOff st) in
      let pxOff' := find_from (isOff image) v pxOn in
      let mid := (pxOn + (pxOff' - pxOn) / 2)%nat in
      let pxMid := default 0 (v !! mid) in
      let st' := mkScan pxOff'
                   (if (pxOn =? length v)%nat then segments st
                    else segments st ++ [[pxMid; pxCenter]])
                   (midReads st ++ [mid]) in
      if (pxOn =? length v)%nat then Some st' else scanLoop image v pxCenter fuel' st'
  end.

(** The comparator of the sort: Manhattan distance to the centre. *)
Definition manhattan (image : BitImage) (pxCenter px : Z) : Z :=
  let coordsA := coords image px in
  let coordsC := coords image pxCenter in
  Z.abs (fst coordsA - fst coordsC) + Z.abs (snd coordsA - snd coordsC).

Definition closerToCenter (image : BitImage) (pxCenter pxA pxB : Z) : bool :=
  manhattan image pxCenter pxA <? manhattan image pxCenter pxB.

(** The convolution of the last loop: on-pixels of the 3x3 neighbourhood. *)
Definition conv (image : BitImage) (px : Z) : Z :=
  let coords := coords image px in
  let pixels := section image (fst coords - 1) (snd coords - 1) 3 3 in
  Z.of_nat (length (List.filter (isOn image) pixels)).

(** A value-initialised iterator points into no image; the embedding gives it
    an offset that no pixel has. *)
Definition noPixel : Z := -1.

(** The loop over the sorted canvas, with its [break]. *)
Fixpoint intersectionLoop (image : BitImage) (pxs : list Z) (maxConv pxIntersection : Z)
    : Z * Z :=
  match pxs with
  | [] => (maxConv, pxIntersection)
  | px :: rest =>
      let c := conv image px in
      let pxIntersection' := if c >? maxConv then px else pxIntersection in
      let maxConv' := Z.max maxConv c in
      if maxConv' >=? 5 then (maxConv', pxIntersection')
      else intersectionLoop image rest maxConv' pxIntersection'
  end.

Section WithSort.
Context `{StdSort}.

Definition pxsCanvas (image : BitImage) (r0 c0 rows cols pxCenter : Z) : list Z :=
  std_sort (closerToCenter image pxCenter)
           (section image (r0 + 1) (c0 + 1) (rows - 2) (cols - 2)).

Definition estimateIntersection (image : BitImage) (r0 c0 rows cols pxCenter : Z) : Z :=
  snd (intersectionLoop image (pxsCanvas image r0 c0 rows cols pxCenter) (-1) noPixel).

(** [polyline.back() = px] *)
Definition setBack (px : Z) (polyline : list Z) : list Z :=
  removelast polyline ++ [px].

(** The frame after [std::rotate], the position [pxOff] keeps (the iterator
    is not moved by the rotation) and the centre pixel. *)
Definition rotatedFrame (image : BitImage) (r0 c0 rows cols : Z) : list Z :=
  let v := pixelsFrame image r0 c0 rows cols in
  rotate (find_if (isOff image) v) v.

Definition pxCenterOf (image : BitImage) (r0 c0 rows cols : Z) : Z :=
  find image (r0 + Z.quot rows 2) (c0 + Z.quot cols 2).

(** The state of the scan when the [do ... while] loop is left. *)
Definition frameScan (image : BitImage) (r0 c0 rows cols : Z) : option Scan :=
  let v := pixelsFrame image r0 c0 rows cols in
  scanLoop image (rotatedFrame image r0 c0 rows cols)
           (pxCenterOf image r0 c0 rows cols)
           (S (length v)) (mkScan (find_if (isOff image) v) [] []).

Definition fitSegments (image : BitImage) (r0 c0 rows cols : Z) : list (list Z) :=
  let v := pixelsFrame image r0 c0 rows cols in
  let pxOff0 := find_if (isOff image) v in
  let pxOn0 := find_if (isOn image) v in
  if (pxOff0 =? length v)%nat || (pxOn0 =? length v)%nat then []
  else
    let segs := segments (default (mkScan O [] []) (frameScan image r0 c0 rows cols)) in
    if (length segs =? 2)%nat then
      [[front (default [] (head segs)); front (List.last segs [])]]
    else
      let pxIntersection :=
        estimateIntersection image r0 c0 rows cols (pxCenterOf image r0 c0 rows cols) in
      map (setBack pxIntersection) segs.

End WithSort.

(** *** The scan in the words of the specification *)

(** The maximal runs of on-pixels of a frame, each as (position of its first
    pixel, length). *)
Fixpoint onRunsFrom (image : BitImage) (v : list Z) (pos : nat) (open : option (nat * nat))
    : list (nat * nat) :=
  match v with
  | [] => match open with Some run => [run] | None => [] end
  | px :: rest =>
      if isOn image px then
        onRunsFrom image rest (S pos)
          (match open with
           | Some (start, len) => Some (start, S len)
           | None => Some (pos, 1%nat)
           end)
      else
        match open with
        | Some run => run :: onRunsFrom image rest (S pos) None
        | None => onRunsFrom image rest (S pos) None
        end
  end.

Definition maximalOnRuns (image : BitImage) (v : list Z) : list (nat * nat) :=
  onRunsFrom image v O None.

(** The frame endpoint of a run: its pixel at offset floor(length / 2). *)
Definition runMidpoint (v : list Z) (run : nat * nat) : Z :=
  default 0 (v !! (fst run + snd run / 2)%nat).

(** A segment of the scan: from an on-pixel of the frame to the centre. *)
Definition ScanSegment (image : BitImage) (v : list Z) (pxCenter : Z) (seg : list Z) : Prop :=
  exists mid, seg = [mid; pxCenter] /\ In mid v /\ deref image mid <> 0.

End Leaf.

(** ** The recursive tracer ([PolylineFitting::fitPolylines], private) *)

Module Tracer.

(** The lambda [isEmpty]. *)
Definition isEmpty (image : BitImage) (pixels : list Z) : bool :=
  negb (existsb (fun px => truthy (deref image px)) pixels).

(** [std::numeric_limits<int64_t>::max()] and its 32-bit companion. *)
Definition INT64_MAX : Z := 2 ^ 63 - 1.
Definition INT32_MAX : Z := 2 ^ 31 - 1.

(** [static_cast<int32_t>(std::pow(-1, i)) * (i + 1) / 2]: the product first,
    then the truncating division. *)
Definition offset (i : Z) : Z :=
  Z.quot ((if Z.even i then 1 else -1) * (i + 1)) 2.

Section SplitSearch.
Variable image : BitImage.
Variables r0 c0 rows cols : Z.

Definition iMax : Z := if rows >=? cols then rows - 4 else cols - 4.

Definition splitCandidate (i : Z) : Z :=
  if rows >=? cols then r0 + Z.quot rows 2 + offset i else c0 + Z.quot cols 2 + offset i.

(** The line of a candidate and its number of on-pixels. *)
Definition linePixels (candidate : Z) : list Z :=
  if rows >=? cols then section image candidate c0 1 cols
  else section image r0 candidate rows 1.

Definition nOnPixels (candidate : Z) : Z :=
  Z.of_nat (length (List.filter (fun px => truthy (deref image px)) (linePixels candidate))).

(** The on-count of the line of the candidate numbered [i]. *)
Definition lineCount (i : Z) : Z := nOnPixels (splitCandidate i).

(** The variables of the [for] loop when it is left: the counter [i] (its
    value at the [break], or [iMax]), [bestSplit] and [minOn]. *)
Record Search : Type := mkSearch {
  i_final   : Z;
  bestSplit : Z;
  minOn     : Z
}.

(** The [for] loop from [i] on, at most [fuel] passes. *)
Fixpoint searchLoop (fuel : nat) (i best minOn : Z) : Search :=
  match fuel with
  | O => mkSearch i best minOn
  | S fuel' =>
      if i <? iMax then
        let candidate := splitCandidate i in
        let n := nOnPixels candidate in
        let best' := if n <? minOn then candidate else best in
        let minOn' := Z.min minOn n in
        if minOn' =? 0 then mkSearch i best' minOn'
        else searchLoop fuel' (i + 1) best' minOn'
      else mkSearch i best minOn
  end.

(** The whole loop: [iMax] passes at most. *)
Definition search : Search := searchLoop (Z.to_nat iMax) 0 (-1) INT64_MAX.

(** What holds of [bestSplit] and [minOn] before the pass numbered [i]: no
    line seen so far is free of on-pixels, and [bestSplit] is the first of
    them with the least on-count. *)
Definition SearchInv (i best m : Z) : Prop :=
  (forall l, 0 <= l < i -> 0 < lineCount l) /\
  ((i = 0 /\ best = -1 /\ m = INT64_MAX) \/
   (exists j, 0 <= j < i /\ best = splitCandidate j /\ m = lineCount j /\
              (forall l, 0 <= l < i -> m <= lineCount l) /\
              (forall l, 0 <= l < j -> m < lineCount l))).

(** [rSplit] and [cSplit] after the loop: [bestSplit] is a reference to the
    one the axis selects; the other keeps its initial -1. *)
Definition rSplit : Z := if rows >=? cols then bestSplit search else -1.
Definition cSplit : Z := if rows >=? cols then -1 else bestSplit search.

(** The test [bestSplit == rSplit] compares values. *)
Definition splitsRows : bool := bestSplit search =? rSplit.

(** The two sections of the recursive calls. *)
Definition firstHalf : Z * Z * Z * Z :=
  if splitsRows then (r0, c0, rSplit - r0 + 1, cols)
  else (r0, c0, rows, cSplit - c0 + 1).

Definition secondHalf : Z * Z * Z * Z :=
  if splitsRows then (rSplit, c0, r0 + rows - rSplit, cols)
  else (r0, cSplit, rows, c0 + cols - cSplit).

(** The test that ends the recursion at a leaf. *)
Definition isLeaf (iter minSectionSize maxRecursions : Z) : bool :=
  let minSplitSize := Z.max minSectionSize 5 in
  (iter >=? maxRecursions) || ((cols <? minSplitSize) && (rows <? minSplitSize)).

End SplitSearch.

(** The recursion of [fitPolylines], with the two functions it hands its
    sections and results to left open: [leaf] stands for [fitSegments] and
    [merge] for [mergePolylines].  The depth is bounded by [fuel]. *)
Section Recursion.
Context {A : Type}.
Variable leaf : BitImage -> Z -> Z -> Z -> Z -> A.
Variable merge : A -> A -> A.
Variable none : A.

Fixpoint recurse (fuel : nat) (image : BitImage) (r0 c0 rows cols : Z)
    (iter minSectionSize maxRecursions : Z) : option A :=
  match fuel with
  | O => None
  | S fuel' =>
      if isEmpty image (section image r0 c0 rows cols) then Some none
      else if isLeaf rows cols iter minSectionSize maxRecursions
      then Some (leaf image r0 c0 rows cols)
      else
        let '(ra, ca, rowsa, colsa) := firstHalf image r0 c0 rows cols in
        let '(rb, cb, rowsb, colsb) := secondHalf image r0 c0 rows cols in
        match recurse fuel' image ra ca rowsa colsa (iter + 1) minSectionSize maxRecursions,
              recurse fuel' image rb cb rowsb colsb (iter + 1) minSectionSize maxRecursions with
        | Some a, Some b => Some (merge a b)
        | _, _ => None
        end
  end.

End Recursion.

(** Fuel that covers every run: each split takes two lines or more off the
    axis it splits (lemma [recurse_total]). *)
Definition depthBound (rows cols : Z) : nat := S (Z.to_nat (rows + cols)).

(** [fitPolylines] on a section. *)
Definition fitPolylines `{StdSort} (image : BitImage) (r0 c0 rows cols : Z)
    (iter minSectionSize maxRecursions : Z) : list (list Z) :=
  default [] (recurse Leaf.fitSegments Merger.mergePolylines []
                      (depthBound rows cols) image r0 c0 rows cols
                      iter minSectionSize maxRecursions).

(** The sections handed to [fitSegments] by the same recursion, in order. *)
Definition leafSections (fuel : nat) (image : BitImage) (r0 c0 rows cols : Z)
    (iter minSectionSize maxRecursions : Z) : option (list (Z * Z * Z * Z)) :=
  recurse (fun _ r c rws cls => [(r, c, rws, cls)]) (@app _) []
          fuel image r0 c0 rows cols iter minSectionSize maxRecursions.

(** Sections of three lines or more in both directions, inside the [int32_t]
    range and with non-negative origin. *)
Definition Admissible (sec : Z * Z * Z * Z) : Prop :=
  let '(r0, c0, rows, cols) := sec in
  0 <= r0 /\ 0 <= c0 /\ 3 <= rows <= INT32_MAX /\ 3 <= cols <= INT32_MAX.


(** Polylines of two locators or more, all of them pixels of the section. *)
Definition Traced (image : BitImage) (r0 c0 rows cols : Z) (pls : list (list Z)) : Prop :=
  forall pl, In pl pls ->
    (2 <= length pl)%nat /\ forall px, In px pl -> In px (section image r0 c0 rows cols).

End Tracer.

(** ** The entry point ([PolylineFitting::fitPolylines], public) *)

Module Entry.

(** [static_cast<size_t>] of an [int32_t] and [static_cast<int32_t>] of a
    [size_t], with their wrap-around. *)
Definition to_size_t (z : Z) : Z := z mod 2 ^ 64.
Definition to_int32 (z : Z) : Z := (z + 2 ^ 31) mod 2 ^ 32 - 2 ^ 31.

Definition tooSmall : string :=
  "Impossible to fit polylines to an image smaller than minimum size of 3x3!".

(** What a call leaves behind: the polylines returned, the messages handed
    to the diagnostic sink [logWarning], and the image, which the thinner
    changes in place. *)
Record Outcome : Type := mkOutcome {
  polylines : list (list (Z * Z));
  warnings  : list string;
  imageAfter : BitImage
}.

(** The overload on a [BitImage&&]. *)
Definition fitPolylines `{StdSort} (image : BitImage)
    (minSectionSize maxRecursions : N) (doThinning : bool) : Outcome :=
  let minSize := 3 in
  if (to_size_t (m_rows image) <? minSize) || (to_size_t (m_cols image) <? minSize)
  then mkOutcome [] [tooSmall] image
  else
    let image' := if doThinning then Thinner.thinImage image else image in
    let pxPolylines :=
      Tracer.fitPolylines image' 0 0 (m_rows image') (m_cols image') 0
        (to_int32 (Z.max (Z.of_N minSectionSize) minSize))
        (if negb (maxRecursions =? 0)%N then to_int32 (Z.of_N maxRecursions)
         else Tracer.INT32_MAX) in
    mkOutcome (map (map (coords image')) pxPolylines) [] image'.

(** The public template: it builds the bit image from the caller's pixels.
    This is the call on the images the constructor builds. *)
Definition fitPolylines_public `{StdSort} {TP : Type} (imageData : list TP)
    (rows cols : N) (isPixelOn : TP -> bool)
    (minSectionSize maxRecursions : N) (doThinning : bool) : Outcome :=
  fitPolylines (BitImage_from imageData isPixelOn
                              (to_int32 (Z.of_N rows)) (to_int32 (Z.of_N cols)))
               minSectionSize maxRecursions doThinning.

(** [std::vector<uint8_t>::max_size()] *)
Definition vector_max_size : Z := 2 ^ 63 - 1.

(** The constructor as the source runs it.  The delegated constructor
    multiplies [rows] by [cols] in [int32_t] (an overflow, undefined in C++,
    wraps on the usual targets), casts the product to [size_t] and hands it
    to the vector, which throws [std::length_error] above [max_size()]:
    [None].  Otherwise [std::transform] writes as many bytes as the product
    says. *)
Definition BitImage_new {TP : Type} (imageData : list TP) (isPixelOn : TP -> bool)
    (rows cols : Z) : option BitImage :=
  let n := to_size_t (to_int32 (rows * cols)) in
  if n >? vector_max_size then None
  else Some (mkBitImage
               (take (Z.to_nat n)
                     (map (fun p => b2i (isPixelOn p)) imageData
                      ++ replicate (Z.to_nat n - length imageData)%nat 0))
               rows cols).

(** The public template with the constructor as the source runs it: [None]
    when the constructor throws, before the entry point is reached. *)
Definition fitPolylines_template `{StdSort} {TP : Type} (imageData : list TP)
    (rows cols : N) (isPixelOn : TP -> bool)
    (minSectionSize maxRecursions : N) (doThinning : bool) : option Outcome :=
  match BitImage_new imageData isPixelOn
                     (to_int32 (Z.of_N rows)) (to_int32 (Z.of_N cols)) with
  | None => None
  | Some image => Some (fitPolylines image minSectionSize maxRecursions doThinning)
  end.

End Entry.

(** ** Geometry utilities ([FittingUtils], file FittingUtilsImpl.hpp) *)

(** The template parameter [TFloat]: the operations the utilities use. *)
Class FloatOps (TFloat : Type) : Type := {
  f_zero : TFloat;                        (* TFloat{0.} *)
  f_two : TFloat;                         (* TFloat{2.} *)
  f_minus_one : TFloat;                   (* TFloat{-1.} *)
  f_eps : TFloat;                         (* the default 1e-9 of fuzzyCompare *)
  f_quiet_NaN : TFloat;                   (* std::numeric_limits<TFloat>::quiet_NaN() *)
  f_add : TFloat -> TFloat -> TFloat;
  f_sub : TFloat -> TFloat -> TFloat;
  f_mul : TFloat -> TFloat -> TFloat;
  f_div : TFloat -> TFloat -> TFloat;
  f_abs : TFloat -> TFloat;               (* std::abs *)
  f_pow : TFloat -> TFloat -> TFloat;     (* std::pow *)
  f_isinf : TFloat -> bool;               (* std::isinf *)
  f_lt : TFloat -> TFloat -> bool;        (* operator< *)
  f_le : TFloat -> TFloat -> bool         (* operator<= *)
}.

(** IEEE 754 binary64, the [double] of the source; [std::pow] is used with
    the exponent 2 only and is taken as the product. *)
Module DoubleArith.
Import PrimFloat.

#[export] Instance DoubleOps : FloatOps float := {|
  f_zero := 0%float;
  f_two := 2%float;
  f_minus_one := opp 1%float;
  f_eps := 0x1.12e0be826d695p-30%float;
  f_quiet_NaN := nan;
  f_add := add;
  f_sub := sub;
  f_mul := mul;
  f_div := div;
  f_abs := abs;
  f_pow := fun x _ => mul x x;
  f_isinf := is_infinity;
  f_lt := ltb;
  f_le := leb
|}.

End DoubleArith.

Module FittingUtils.
Import Merger.

Section WithFloat.
Context {TFloat : Type} `{FloatOps TFloat}.

(** [std::min] and [std::max], by their definition through [operator<]. *)
Definition f_min (a b : TFloat) : TFloat := if f_lt b a then b else a.
Definition f_max (a b : TFloat) : TFloat := if f_lt a b then b else a.

Definition fuzzyCompare (floatA floatB : TFloat) : bool :=
  f_lt (f_abs (f_sub floatA floatB)) f_eps.

Definition arePointsEqual (pointA pointB : TFloat * TFloat) : bool :=
  fuzzyCompare (fst pointA) (fst pointB) && fuzzyCompare (snd pointA) (snd pointB).

Definition computeSlope (pointA pointB : TFloat * TFloat) : TFloat :=
  if arePointsEqual pointA pointB then f_quiet_NaN
  else f_div (f_sub (snd pointB) (snd pointA)) (f_sub (fst pointB) (fst pointA)).

(** The overload of [computePointProjectionOnLine] on a slope and an offset. *)
Definition computePointProjectionOnLine (point : TFloat * TFloat) (slope offset : TFloat)
    : TFloat * TFloat :=
  if fuzzyCompare slope f_zero then (fst point, offset)
  else if f_isinf slope then (offset, snd point)
  else
    let counterSlope := f_div f_minus_one slope in
    let counterOffset := f_sub (snd point) (f_mul (fst point) counterSlope) in
    let x := f_div (f_sub offset counterOffset) (f_sub counterSlope slope) in
    let y := f_add (f_mul counterSlope x) counterOffset in
    (x, y).

Definition computeSquaredDistanceToPoint (pointA pointB : TFloat * TFloat) : TFloat :=
  f_add (f_pow (f_sub (fst pointA) (fst pointB)) f_two)
        (f_pow (f_sub (snd pointA) (snd pointB)) f_two).

Definition computeSquaredDistanceToSegment (point pointA pointB : TFloat * TFloat) : TFloat :=
  let slope := computeSlope pointA pointB in
  let offset := if f_isinf slope then fst pointA
                else f_sub (snd pointA) (f_mul (fst pointA) slope) in
  let pointProjected := computePointProjectionOnLine point slope offset in
  let squaredDistanceToLine := computeSquaredDistanceToPoint point pointProjected in
  if f_lt (f_min (fst pointA) (fst pointB)) (fst pointProjected)
     && f_lt (fst pointProjected) (f_max (fst pointA) (fst pointB))
  then squaredDistanceToLine
  else f_min (computeSquaredDistanceToPoint point pointA)
             (computeSquaredDistanceToPoint point pointB).

(** *** [simplifyPolyline]

    The range [first, last) is the list of its elements, an iterator in it
    its distance from [first]; the function gives back the range as the swaps
    leave it and the iterator it returns. *)
Section Simplify.
Context {Point : Type}.
Variable point_eqb : Point -> Point -> bool.          (* operator== of the elements *)
Variable get2DCoords : Point -> TFloat * TFloat.
Variable epsilon : TFloat.

(** [std::max_element]: the loop from the element after [largest] on; [idx]
    is the position of the head of [rest]. *)
Fixpoint max_element_from (comp : Point -> Point -> bool) (largestIdx : nat)
    (largest : Point) (idx : nat) (rest : list Point) : nat :=
  match rest with
  | [] => largestIdx
  | x :: t =>
      if comp largest x then max_element_from comp idx x (S idx) t
      else max_element_from comp largestIdx largest (S idx) t
  end.

(** [std::max_element] on the elements [range], the first at position [pos]:
    the position of the first greatest element, [pos] on an empty range. *)
Definition max_element (comp : Point -> Point -> bool) (pos : nat) (range : list Point)
    : nat :=
  match range with
  | [] => pos
  | x :: t => max_element_from comp pos x (S pos) t
  end.

(** The comparison lambda handed to [std::max_element]. *)
Definition closer (pointA pointB pt1 pt2 : Point) : bool :=
  f_lt (computeSquaredDistanceToSegment (get2DCoords pt1) (get2DCoords pointA)
                                        (get2DCoords pointB))
       (computeSquaredDistanceToSegment (get2DCoords pt2) (get2DCoords pointA)
                                        (get2DCoords pointB)).

(** [while (pt != pointB) std::iter_swap(pointA++, pt++)], for the [count]
    passes that take [pt] to [pointB]. *)
Fixpoint compact (l : list Point) (pointA pt count : nat) : list Point * nat :=
  match count with
  | O => (l, pointA)
  | S count' => compact (iter_swap l pointA pt) (S pointA) (S pt) count'
  end.

Fixpoint simplifyPolyline_fuel (fuel : nat) (l : list Point) : option (list Point * nat) :=
  match fuel with
  | O => None
  | S fuel' =>
      let n := length l in
      if Z.of_nat n - 1 <? 2 then Some (l, n) else
      match head l, last l with
      | Some a, Some b =>
          if point_eqb a b || f_le epsilon f_zero then Some (l, n) else
          let furthest := max_element (closer a b) 1 (take (n - 2) (drop 1 l)) in
          match l !! furthest with
          | None => None
          | Some v =>
              if f_lt (f_pow epsilon f_two)
                      (computeSquaredDistanceToSegment (get2DCoords v) (get2DCoords a)
                                                       (get2DCoords b))
              then
                match simplifyPolyline_fuel fuel' (drop furthest l) with
                | None => None
                | Some (rightPart, kr) =>
                    let pointB := (furthest + kr)%nat in
                    let l1 := take furthest l ++ rightPart in
                    match simplifyPolyline_fuel fuel' (take (S furthest) l1) with
                    | None => None
                    | Some (leftPart, kl) =>
                        let l2 := leftPart ++ drop (S furthest) l1 in
                        Some (compact l2 kl (S furthest) (pointB - S furthest))
                    end
                end
              else Some (iter_swap l (n - 1) 1, 2%nat)
          end
      | _, _ => Some (l, n)
      end
  end.

(** The recursion is on ranges that get shorter: the length of the range,
    plus one, bounds its depth (lemma [simplify_total]). *)
Definition simplifyPolyline (l : list Point) : list Point * nat :=
  default (l, length l) (simplifyPolyline_fuel (S (length l)) l).

End Simplify.
End WithFloat.

(** What a call leaves: the range permuted, and, ahead of the returned
    iterator, a subsequence of the input that keeps its two ends. *)
Definition Kept {Point : Type} (l l' : list Point) (k : nat) : Prop :=
  length l' = length l /\ l' ≡ₚ l /\ (k <= length l)%nat /\
  take k l' `sublist_of` l /\
  ((2 <= length l)%nat ->
   (2 <= k)%nat /\ head l' = head l /\ last (take k l') = last l).


End FittingUtils.

(** ** Segment fitting ([SegmentFitting], file SegmentFittingImpl.hpp) *)

(** What the segment fitter asks of [TFloat] beyond the utilities. *)
Class FloatFit (TFloat : Type) `{FloatOps TFloat} : Type := {
  f_infinity : TFloat;                    (* std::numeric_limits<TFloat>::infinity() *)
  f_isnan : TFloat -> bool;               (* std::isnan *)
  f_eqb : TFloat -> TFloat -> bool;       (* operator== *)
  f_of_size : Z -> TFloat;                (* the conversion of a size_t to TFloat *)
  f_isnan_quiet_NaN : f_isnan f_quiet_NaN = true
}.

(** The generator [std::mt19937] under [std::uniform_int_distribution<>]: a
    draw between the bounds [a] and [b] gives an [int] and the next state of
    the generator; the distribution promises a value from [a] to [b] when
    [a <= b], and nothing otherwise. *)
Class UniformGen (G : Type) : Type := {
  uniform_int : Z -> Z -> G -> Z * G;
  uniform_int_range : forall a b g, a <= b -> a <= fst (uniform_int a b g) <= b
}.

Module DoubleFitting.
Import PrimFloat DoubleArith.

#[export] Instance DoubleFit : FloatFit float := {|
  f_infinity := infinity;
  f_isnan := is_nan;
  f_eqb := eqb;
  f_of_size := fun z => of_uint63 (Uint63.of_Z z);
  f_isnan_quiet_NaN := eq_refl
|}.

End DoubleFitting.

(** A generator that walks through the interval, one value after the other;
    its state is the number of draws made. *)
#[export] Instance CountingGen : UniformGen Z.
Proof.
  refine {| uniform_int := fun a b g => (a + g mod (b - a + 1), g + 1) |}.
  intros a b g Hab. cbn [fst].
  pose proof (Z.mod_pos_bound g (b - a + 1) ltac:(lia)). lia.
Defined.

(** ** [std::partition]

    [std::partition] promises a permutation of the range in which the
    elements that satisfy the predicate come first, and returns the position
    of the first that does not; it leaves the order inside the two groups
    open. *)
Class StdPartition : Type := {
  std_partition : forall {A : Type}, (A -> bool) -> list A -> list A * nat;
  std_partition_perm : forall (A : Type) (p : A -> bool) (l : list A),
    Permutation (fst (std_partition p l)) l;
  std_partition_split : forall (A : Type) (p : A -> bool) (l : list A) (i : nat) (x : A),
    fst (std_partition p l) !! i = Some x ->
    (p x = true <-> (i < snd (std_partition p l))%nat)
}.

(** The partition that keeps the order of both groups, one function with
    the contract. *)
Definition stable_partition {A : Type} (p : A -> bool) (l : list A) : list A * nat :=
  (List.filter p l ++ List.filter (fun x => negb (p x)) l, length (List.filter p l)).

Lemma stable_partition_perm {A : Type} (p : A -> bool) (l : list A) :
  Permutation (fst (stable_partition p l)) l.
Proof.
  unfold stable_partition. cbn [fst].
  induction l as [|x l IH]; [reflexivity|].
  simpl. destruct (p x); simpl.
  - constructor. exact IH.
  - rewrite <- Permutation_middle. constructor. exact IH.
Qed.

Lemma stable_partition_split {A : Type} (p : A -> bool) (l : list A) (i : nat) (x : A) :
  fst (stable_partition p l) !! i = Some x ->
  (p x = true <-> (i < snd (stable_partition p l))%nat).
Proof.
  unfold stable_partition. cbn [fst snd]. intros Hx.
  destruct (Nat.lt_ge_cases i (length (List.filter p l))) as [Hlt|Hge].
  - rewrite lookup_app_l in Hx by exact Hlt.
    apply list_elem_of_lookup_2, list_elem_of_In, filter_In in Hx as [_ Hp]. tauto.
  - rewrite lookup_app_r in Hx by exact Hge.
    apply list_elem_of_lookup_2, list_elem_of_In, filter_In in Hx as [_ Hp].
    destruct (p x); [discriminate|]. split; [discriminate|lia].
Qed.

#[export] Instance StablePartition : StdPartition := {|
  std_partition := @stable_partition;
  std_partition_perm := @stable_partition_perm;
  std_partition_split := @stable_partition_split
|}.

Module SegmentFitting.
Import Entry FittingUtils.

(** How a call ends: with a value, or at a stop.  [at] throws
    [std::out_of_range]; an access outside a range is undefined in C++; the
    loop that draws [iB] has no bound, so the embedding gives it a number of
    draws; and the sampling loop is given a number of passes. *)
Inductive Stop : Type :=
| StdOutOfRange
| OutsideRange
| DrawsSpent
| PassesSpent.

Inductive Run (A : Type) : Type :=
| Returns (a : A)
| Stops (s : Stop).
Arguments Returns {A} a.
Arguments Stops {A} s.

Definition notEnough : string := "Points are not enough to fit segment!".
Definition noIterations : string :=
  "Number of iterations is 0! Defaulting to 1... Estimate is likely inaccurate!".

(** [std::min_element] and the second half of [std::minmax_element]: the
    first of the smallest elements and the last of the largest. *)
Fixpoint first_smallest {A : Type} (comp : A -> A -> bool) (smallest : A) (rest : list A) : A :=
  match rest with
  | [] => smallest
  | x :: t => if comp x smallest then first_smallest comp x t
              else first_smallest comp smallest t
  end.

Fixpoint last_largest {A : Type} (comp : A -> A -> bool) (largest : A) (rest : list A) : A :=
  match rest with
  | [] => largest
  | x :: t => if comp x largest then last_largest comp largest t
              else last_largest comp x t
  end.

Section WithFloat.
Context {TFloat : Type} `{FloatFit TFloat}.
Context {G : Type} `{UniformGen G}.
Context {Point : Type}.
Variable get2DCoords : Point -> TFloat * TFloat.

Record Segment2D : Type := mkSegment2D {
  m_begin : TFloat * TFloat;
  m_end : TFloat * TFloat;
  m_mse : TFloat;
  m_isValid : bool
}.

(** [Segment2D<TFloat>{}]: every member zero. *)
Definition Segment2D_value : Segment2D :=
  mkSegment2D (f_zero, f_zero) (f_zero, f_zero) f_zero false.

(** [Segment2D<TFloat>{begin, end, mse}] *)
Definition Segment2D_of (pBegin pEnd : TFloat * TFloat) (mse : TFloat) : Segment2D :=
  mkSegment2D pBegin pEnd mse true.

(** [Segment2D<TFloat> bestFitSegment;]: the defaulted constructor gives the
    two pairs their zeros and writes neither [m_mse] nor [m_isValid]; the two
    variables stand for what these members hold. *)
Variable indeterminate_mse : TFloat.
Variable indeterminate_isValid : bool.

Definition Segment2D_default : Segment2D :=
  mkSegment2D (f_zero, f_zero) (f_zero, f_zero) indeterminate_mse indeterminate_isValid.

(** [*(first + i)] for an [int] or [difference_type] [i]. *)
Definition element (points : list Point) (i : Z) : option Point :=
  if i <? 0 then None else points !! Z.to_nat i.

(** The variables of the sampling loop. *)
Record Sampling : Type := mkSampling {
  sumSquaredDistance : TFloat;
  segmentPoints : list (TFloat * TFloat);
  wasSampled : list bool;
  n : Z;
  gen : G
}.

Section Iteration.
Variable points : list Point.
Variable slope offset maxSquaredDistance smallestSumSquaredDistance : TFloat.

Definition nPoints : Z := Z.of_nat (length points).

(** One pass of the sampling loop.  The distribution yields an [int], [at]
    and [operator[]] take it as a [size_t], and the [n] of the conditional
    expression is converted back to [int]. *)
Definition samplePass (st : Sampling) : Run Sampling :=
  let '(i0, g) := uniform_int (to_int32 0) (to_int32 (n st)) (gen st) in
  match (wasSampled st !! Z.to_nat (to_size_t i0) : option bool) with
  | None => Stops StdOutOfRange
  | Some was =>
      let i := if was then to_int32 (n st) else i0 in
      if (Z.to_nat (to_size_t i) <? length (wasSampled st))%nat then
        match element points i with
        | None => Stops OutsideRange
        | Some p =>
            let point := get2DCoords p in
            let pointOnSegment := computePointProjectionOnLine point slope offset in
            let squaredDistance := computeSquaredDistanceToPoint point pointOnSegment in
            Returns
              (mkSampling
                 (f_add (sumSquaredDistance st) (f_min squaredDistance maxSquaredDistance))
                 (if f_le squaredDistance maxSquaredDistance
                  then segmentPoints st ++ [pointOnSegment] else segmentPoints st)
                 (<[Z.to_nat (to_size_t i) := true]> (wasSampled st))
                 (n st + 1)
                 g)
        end
      else Stops OutsideRange
  end.

(** [while (n < nPoints && sumSquaredDistance < smallestSumSquaredDistance)],
    at most [fuel] passes; [None] when they do not take the loop to its
    end. *)
Fixpoint sampleLoop (fuel : nat) (st : Sampling) : option (Run Sampling) :=
  match fuel with
  | O => None
  | S fuel' =>
      if (n st <? nPoints) && f_lt (sumSquaredDistance st) smallestSumSquaredDistance then
        match samplePass st with
        | Returns st' => sampleLoop fuel' st'
        | Stops s => Some (Stops s)
        end
      else Some (Returns st)
  end.

End Iteration.

(** [do { iB = ... } while (iA == iB);] with [draws] draws at most.  The
    comparison is one of [size_t]s, and so is [iB]; for the values of an
    [int] it is the comparison of the values drawn, and [first + iB] is the
    element the drawn value numbers. *)
Fixpoint drawB (points : list Point) (draws : nat) (iA : Z) (g : G) : Run (Z * G) :=
  match draws with
  | O => Stops DrawsSpent
  | S draws' =>
      let '(iB, g') := uniform_int (to_int32 0) (to_int32 (nPoints points - 1)) g in
      if iA =? iB then drawB points draws' iA g' else Returns (iB, g')
  end.

(** The body of [while (nIterations-- > 0)] on the variables it changes:
    [bestFitSegment], [smallestSumSquaredDistance] and the generator. *)
Definition iteration (points : list Point) (draws : nat) (nSamples : Z)
    (maxSquaredDistance : TFloat) (vars : Segment2D * TFloat * G)
    : Run (Segment2D * TFloat * G) :=
  let '(bestFitSegment, smallest, g) := vars in
  let '(iA, g1) := uniform_int (to_int32 0) (to_int32 (nPoints points - 1)) g in
  match drawB points draws iA g1 with
  | Stops s => Stops s
  | Returns (iB, g2) =>
      match element points iA, element points iB with
      | Some a, Some b =>
          let pointA := get2DCoords a in
          let pointB := get2DCoords b in
          let slope := computeSlope pointA pointB in
          if f_isnan (computeSlope pointA pointB) then Returns (bestFitSegment, smallest, g2)
          else
            let offset := if f_isinf slope then fst pointA
                          else f_sub (snd pointA) (f_mul (fst pointA) slope) in
            let st0 := mkSampling f_zero [pointA; pointB]
                         (replicate (length points) false)
                         (nPoints points - nSamples) g2 in
            match sampleLoop points slope offset maxSquaredDistance smallest
                             (S (Z.to_nat nSamples)) st0 with
            | None => Stops PassesSpent
            | Some (Stops s) => Stops s
            | Some (Returns st) =>
                if f_le smallest (sumSquaredDistance st)
                then Returns (bestFitSegment, smallest, gen st)
                else
                  match segmentPoints st with
                  | [] => Stops OutsideRange
                  | p :: rest =>
                      let comp := fun p1 p2 : TFloat * TFloat => f_lt (fst p1) (fst p2) in
                      Returns (Segment2D_of (first_smallest comp p rest)
                                            (last_largest comp p rest)
                                            (f_div (sumSquaredDistance st) (f_of_size nSamples)),
                               sumSquaredDistance st, gen st)
                  end
            end
      | _, _ => Stops OutsideRange
      end
  end.

Fixpoint iterations (points : list Point) (draws : nat) (nSamples : Z)
    (maxSquaredDistance : TFloat) (nIterations : nat) (vars : Segment2D * TFloat * G)
    : Run (Segment2D * TFloat * G) :=
  match nIterations with
  | O => Returns vars
  | S nIterations' =>
      match iteration points draws nSamples maxSquaredDistance vars with
      | Stops s => Stops s
      | Returns vars' => iterations points draws nSamples maxSquaredDistance nIterations' vars'
      end
  end.

(** [fitSegment2D] on the range [points], with the generator as the seed of
    [std::random_device] leaves it: the messages handed to [logWarning], and
    the segment returned. *)
Definition fitSegment2D (draws : nat) (points : list Point) (nIterations nSamples : N)
    (maxInliersDistance : TFloat) (g : G) : list string * Run Segment2D :=
  if nPoints points <? 2 then ([notEnough], Returns Segment2D_value)
  else
    let warnings := if (nIterations =? 0)%N then [noIterations] else [] in
    let nIterations' := if (nIterations =? 0)%N then 1%N else nIterations in
    let nSamples' := if (nSamples =? 0)%N then nPoints points
                     else Z.min (Z.of_N nSamples) (nPoints points) in
    let maxSquaredDistance :=
      if negb (f_eqb maxInliersDistance f_zero) then f_pow maxInliersDistance f_two
      else f_infinity in
    (warnings,
     match iterations points draws nSamples' maxSquaredDistance (N.to_nat nIterations')
                      (Segment2D_default, f_infinity, g) with
     | Stops s => Stops s
     | Returns (bestFitSegment, _, _) => Returns bestFitSegment
     end).

(** [partitionInliers2D] on the range [points]: the range as the call leaves
    it and the iterator it returns. *)
Definition partitionInliers2D `{StdPartition} (points : list Point) (segment : Segment2D)
    (maxInliersDistance : TFloat) : list Point * nat :=
  if f_eqb maxInliersDistance f_zero then (points, length points)
  else if f_isnan (computeSlope (m_begin segment) (m_end segment)) then (points, O)
  else
    let maxSquaredDistance := f_pow maxInliersDistance f_two in
    std_partition
      (fun point =>
         f_lt (computeSquaredDistanceToSegment (get2DCoords point)
                                               (m_begin segment) (m_end segment))
              maxSquaredDistance)
      points.

End WithFloat.

(** The number of points the sampling loop has marked. *)
Definition marked (flags : list bool) : Z :=
  Z.of_nat (length (List.filter (fun b : bool => b) flags)).

(** What holds of the sampling loop before each pass, [n0] being the first
    value of [n]: one mark for each pass made, all below [n]. *)
Definition FloydInv (nPoints n0 : Z) (flags : list bool) (n : Z) : Prop :=
  Z.of_nat (length flags) = nPoints /\ (0 <= n0 <= n) /\ (n <= nPoints) /\
  (marked flags = n - n0) /\
  (forall j : nat, flags !! j = Some true -> Z.of_nat j < n).

End SegmentFitting.

(** ** Sample images *)

Module Samples.

(** A 3x3 block of on-pixels in a 5x5 image. *)
Definition blob : BitImage :=
  mkBitImage [0; 0; 0; 0; 0;
              0; 1; 1; 1; 0;
              0; 1; 1; 1; 0;
              0; 1; 1; 1; 0;
              0; 0; 0; 0; 0] 5 5.

(** A horizontal stroke across a 3x7 image. *)
Definition stroke : BitImage :=
  mkBitImage [0; 0; 0; 0; 0; 0; 0;
              1; 1; 1; 1; 1; 1; 1;
              0; 0; 0; 0; 0; 0; 0] 3 7.

(** The 3x3 cross of the specification's first scenario. *)
Definition cross : BitImage :=
  mkBitImage [0; 1; 0;
              1; 1; 1;
              0; 1; 0] 3 3.

(** Two strokes leaving a 3x3 section: one through its top-left corner, one
    through its right side. *)
Definition cornerStroke : BitImage :=
  mkBitImage [1; 1; 0;
              0; 0; 1;
              0; 0; 0] 3 3.

(** A stroke that enters a 3x4 section from the left and ends at once. *)
Definition sideDot : BitImage :=
  mkBitImage [0; 0; 0; 0;
              1; 0; 0; 0;
              0; 0; 0; 0] 3 4.

(** Points with small integer coordinates, in binary64. *)
Definition pt (x y : Z) : PrimFloat.float * PrimFloat.float :=
  (PrimFloat.of_uint63 (Uint63.of_Z x), PrimFloat.of_uint63 (Uint63.of_Z y)).

Definition zigzag : list (PrimFloat.float * PrimFloat.float) :=
  [pt 0 0; pt 1 10; pt 2 0; pt 3 10; pt 4 0].

Definition fifty : PrimFloat.float := PrimFloat.of_uint63 (Uint63.of_Z 50).

(** A stroke of two pixels inside a 3x4 image. *)
Definition dash : BitImage :=
  mkBitImage [0; 0; 0; 0;
              0; 1; 1; 0;
              0; 0; 0; 0] 3 4.

End Samples.

(** * Facts about the bit image *)

Lemma coords_find (img : BitImage) (r c : Z) :
  0 <= r -> 0 <= c < m_cols img -> coords img (find img r c) = (r, c).
Proof.
  intros Hr Hc. unfold coords, find.
  assert (Hn : 0 <= m_cols img * r + c) by nia.
  rewrite Z.quot_div_nonneg, Z.rem_mod_nonneg by lia.
  f_equal.
  - symmetry. apply (Z.div_unique _ _ r c); lia.
  - symmetry. apply (Z.mod_unique _ _ r c); lia.
Qed.

Lemma in_section (img : BitImage) (r0 c0 rows cols px : Z) :
  In px (section img r0 c0 rows cols) <->
  exists r c, r0 <= r < r0 + rows /\ c0 <= c < c0 + cols /\ px = find img r c.
Proof.
  unfold section, find. rewrite in_flat_map. split.
  - intros (r & Hr & Hpx). apply in_map_iff in Hpx as (c & <- & Hc).
    apply list_elem_of_In, elem_of_seqZ in Hr.
    apply list_elem_of_In, elem_of_seqZ in Hc. eauto.
  - intros (r & c & Hr & Hc & ->). exists r. split.
    + apply list_elem_of_In, elem_of_seqZ. lia.
    + apply in_map_iff. exists c. split; [reflexivity|].
      apply list_elem_of_In, elem_of_seqZ. lia.
Qed.

Lemma deref_assign (img : BitImage) (px q : Z) :
  deref (assign img px 0) q = if q =? px then 0 else deref img q.
Proof.
  unfold deref, assign.
  destruct (Z.eqb_spec q px) as [->|Hne].
  - destruct (Z.ltb_spec px 0) as [Hneg|Hpos]; [reflexivity|]. simpl.
    destruct (decide (Z.to_nat px < length (bits img))%nat) as [Hlt|Hge].
    + rewrite list_lookup_insert_eq by exact Hlt. reflexivity.
    + rewrite list_insert_ge by lia. rewrite lookup_ge_None_2 by lia. reflexivity.
  - destruct (Z.ltb_spec px 0) as [Hneg|Hpos]; [reflexivity|]. simpl.
    destruct (Z.ltb_spec q 0) as [Hq|Hq]; [reflexivity|].
    rewrite list_lookup_insert_ne by lia. reflexivity.
Qed.

Lemma assign_dims (img : BitImage) (px v : Z) :
  m_rows (assign img px v) = m_rows img /\ m_cols (assign img px v) = m_cols img.
Proof. unfold assign. destruct (px <? 0); auto. Qed.

Lemma binary_deref (img : BitImage) (px : Z) :
  binary img -> deref img px = 0 \/ deref img px = 1.
Proof.
  intros Hb. unfold deref. destruct (px <? 0); [auto|].
  destruct (bits img !! Z.to_nat px) as [v|] eqn:E; simpl; [|auto].
  unfold binary in Hb. rewrite Forall_forall in Hb.
  apply Hb. eapply list_elem_of_lookup_2. exact E.
Qed.

Lemma binary_assign (img : BitImage) (px : Z) :
  binary img -> binary (assign img px 0).
Proof.
  unfold binary, assign. intros Hb. destruct (px <? 0); [exact Hb|]. simpl.
  apply Forall_insert; auto.
Qed.

Lemma count_insert_zero (l : list Z) (i : nat) :
  (length (List.filter truthy (<[i := 0%Z]> l)) <= length (List.filter truthy l))%nat /\
  (forall v, l !! i = Some v -> truthy v = true ->
     (length (List.filter truthy (<[i := 0%Z]> l)) < length (List.filter truthy l))%nat).
Proof.
  revert i. induction l as [|x l IH]; intros i.
  - split; [reflexivity|]. intros v Hv. destruct i; discriminate.
  - destruct i as [|i]; simpl.
    + split.
      * destruct (truthy x); simpl; lia.
      * intros v [= ->] ->. simpl. lia.
    + destruct (IH i) as [IH1 IH2]. split.
      * destruct (truthy x); simpl; lia.
      * intros v Hv Ht. specialize (IH2 v Hv Ht). destruct (truthy x); simpl; lia.
Qed.

Lemma countOn_assign_le (img : BitImage) (px : Z) :
  (countOn (assign img px 0) <= countOn img)%nat.
Proof.
  unfold countOn, assign. destruct (px <? 0); [reflexivity|]. simpl.
  apply count_insert_zero.
Qed.

Lemma countOn_assign_lt (img : BitImage) (px : Z) :
  deref img px <> 0 -> (countOn (assign img px 0) < countOn img)%nat.
Proof.
  unfold countOn, assign, deref. destruct (px <? 0); [congruence|]. simpl.
  destruct (bits img !! Z.to_nat px) as [v|] eqn:E; simpl; [|congruence].
  intros Hv. apply (proj2 (count_insert_zero _ _) v E).
  unfold truthy. destruct (Z.eqb_spec v 0); [contradiction|reflexivity].
Qed.

(** The constructor yields well-formed images of 0/1 bytes. *)
Lemma BitImage_from_binary {TP : Type} (imageData : list TP) (isPixelOn : TP -> bool)
    (rows cols : Z) :
  binary (BitImage_from imageData isPixelOn rows cols).
Proof.
  unfold binary, BitImage_from. cbn [bits].
  apply Forall_take, Forall_app. split.
  - apply Forall_map, Forall_forall. intros p _. destruct (isPixelOn p); auto.
  - apply Forall_replicate. auto.
Qed.

Lemma BitImage_from_wf {TP : Type} (imageData : list TP) (isPixelOn : TP -> bool)
    (rows cols : Z) :
  0 <= rows -> 0 <= cols -> wf_image (BitImage_from imageData isPixelOn rows cols).
Proof.
  intros Hr Hc. unfold wf_image, BitImage_from. cbn [bits m_rows m_cols].
  split; [exact Hr|]. split; [exact Hc|].
  rewrite length_take, length_app, length_map, length_replicate. nia.
Qed.

(** On a well-formed image the thinner reads inside the vector: the eight
    neighbours of an interior pixel are pixels of the image. *)
Lemma neighbour_in_range (img : BitImage) (r c dr dc : Z) :
  wf_image img ->
  1 <= r <= m_rows img - 2 -> 1 <= c <= m_cols img - 2 ->
  -1 <= dr <= 1 -> -1 <= dc <= 1 ->
  0 <= find img (r + dr) (c + dc) < Z.of_nat (length (bits img)).
Proof.
  intros (Hrows & Hcols & Hlen) Hr Hc Hdr Hdc. unfold find. rewrite Hlen. nia.
Qed.

(** * The thinner *)

Module ThinnerFacts.
Import Thinner.

Lemma deref_clearAll_in (fl : list Z) (img : BitImage) (px : Z) :
  In px fl -> deref (clearAll fl img) px = 0.
Proof.
  unfold clearAll. revert img.
  assert (Hz : forall l im, deref im px = 0 ->
               deref (fold_left (fun im q => assign im q 0) l im) px = 0).
  { induction l as [|q l IH]; intros im H; simpl; [exact H|].
    apply IH. rewrite deref_assign. destruct (px =? q); auto. }
  induction fl as [|q fl IH]; intros img Hin; [destruct Hin|].
  simpl. destruct Hin as [->|Hin].
  - apply Hz. rewrite deref_assign, Z.eqb_refl. reflexivity.
  - apply IH, Hin.
Qed.

Lemma deref_clearAll_notin (fl : list Z) (img : BitImage) (px : Z) :
  ~ In px fl -> deref (clearAll fl img) px = deref img px.
Proof.
  unfold clearAll. revert img.
  induction fl as [|q fl IH]; intros img Hn; simpl; [reflexivity|].
  rewrite IH by (intros H; apply Hn; right; exact H).
  rewrite deref_assign. destruct (Z.eqb_spec px q) as [->|]; [|reflexivity].
  exfalso. apply Hn. left. reflexivity.
Qed.

Lemma deref_clearAll (fl : list Z) (img : BitImage) (px : Z) :
  deref (clearAll fl img) px = if in_dec Z.eq_dec px fl then 0 else deref img px.
Proof.
  destruct (in_dec Z.eq_dec px fl).
  - apply deref_clearAll_in; assumption.
  - apply deref_clearAll_notin; assumption.
Qed.

Lemma clearAll_dims (fl : list Z) (img : BitImage) :
  m_rows (clearAll fl img) = m_rows img /\ m_cols (clearAll fl img) = m_cols img.
Proof.
  unfold clearAll. revert img. induction fl as [|q fl IH]; intros img; simpl; [auto|].
  destruct (IH (assign img q 0)) as [-> ->]. apply assign_dims.
Qed.

Lemma binary_clearAll (fl : list Z) (img : BitImage) :
  binary img -> binary (clearAll fl img).
Proof.
  unfold clearAll. revert img. induction fl as [|q fl IH]; intros img Hb; simpl; [exact Hb|].
  apply IH, binary_assign, Hb.
Qed.

Lemma countOn_clearAll_le (fl : list Z) (img : BitImage) :
  (countOn (clearAll fl img) <= countOn img)%nat.
Proof.
  unfold clearAll. revert img. induction fl as [|q fl IH]; intros img; simpl; [lia|].
  etransitivity; [apply IH|apply countOn_assign_le].
Qed.

Lemma countOn_clearAll_lt (q : Z) (fl : list Z) (img : BitImage) :
  deref img q <> 0 -> (countOn (clearAll (q :: fl) img) < countOn img)%nat.
Proof.
  intros Hq. unfold clearAll. simpl.
  eapply Nat.le_lt_trans; [apply (countOn_clearAll_le fl)|].
  apply countOn_assign_lt, Hq.
Qed.

Lemma in_remaining (s : State) (px : Z) :
  In px (remaining s) <-> In px (onPixels s) /\ deref (image s) px <> 0.
Proof.
  unfold remaining. rewrite filter_In.
  destruct (Z.eqb_spec (deref (image s) px) 0); simpl; intuition congruence.
Qed.

Lemma in_flaggedPixels (s : State) (px : Z) :
  In px (flaggedPixels s) <->
  In px (onPixels s) /\ deref (image s) px <> 0 /\
  flagTest (iteration s) (image s) px = true.
Proof. unfold flaggedPixels. rewrite filter_In, in_remaining. tauto. Qed.

(** A pass that flags something removes at least one on-pixel. *)
Lemma body_decreases (s : State) :
  flaggedPixels s <> [] ->
  (countOn (image (body s)) < countOn (image s))%nat /\ difference (body s) = true.
Proof.
  intros Hne. unfold body. simpl.
  destruct (flaggedPixels s) as [|q fl] eqn:E; [congruence|]. split; [|reflexivity].
  apply countOn_clearAll_lt.
  assert (Hin : In q (flaggedPixels s)) by (rewrite E; left; reflexivity).
  apply in_flaggedPixels in Hin. tauto.
Qed.

(** A pass that flags nothing leaves the image alone and ends the loop. *)
Lemma body_final (s : State) :
  flaggedPixels s = [] ->
  image (body s) = image s /\ difference (body s) = false.
Proof. intros E. unfold body. rewrite E. simpl. auto. Qed.

Lemma loop_enough_fuel (fuel : nat) (s : State) :
  (countOn (image s) < fuel)%nat -> exists img, loop fuel s = Some img.
Proof.
  revert s. induction fuel as [|fuel IH]; intros s Hlt; [lia|].
  cbn [loop]. destruct (difference s) eqn:Hd; [|eauto].
  destruct (flaggedPixels s) as [|q fl] eqn:E.
  - destruct (body_final s E) as [Hi Hf]. exists (image s).
    destruct fuel; cbn [loop]; rewrite Hf, Hi; reflexivity.
  - destruct (body_decreases s) as [Hc _]; [congruence|]. apply IH. lia.
Qed.

Lemma loop_more_fuel (fuel fuel' : nat) (s : State) (img : BitImage) :
  loop fuel s = Some img -> (fuel <= fuel')%nat -> loop fuel' s = Some img.
Proof.
  revert fuel' s. induction fuel as [|fuel IH]; intros fuel' s H Hle.
  - simpl in H. destruct (difference s) eqn:Hd; [discriminate|].
    destruct fuel'; simpl; rewrite Hd; exact H.
  - destruct fuel' as [|fuel']; [lia|]. simpl in *.
    destruct (difference s); [|exact H]. apply IH; [exact H|lia].
Qed.

Lemma thinImage_total (img : BitImage) :
  thinImage_fuel (S (countOn img)) img = Some (thinImage img).
Proof.
  unfold thinImage. destruct (loop_enough_fuel (S (countOn img)) (init img)) as [r Hr].
  - simpl. lia.
  - unfold thinImage_fuel. rewrite Hr. reflexivity.
Qed.

(** Invariant of the loop: the phase follows the parity of the pass number,
    the candidates are interior pixels, and no interior on-pixel is missing
    from them. *)
Lemma Reach_inv (img0 : BitImage) (k : nat) (s : State) :
  Reach img0 k s ->
  iteration s = Nat.odd k /\
  m_rows (image s) = m_rows img0 /\ m_cols (image s) = m_cols img0 /\
  (binary img0 -> binary (image s)) /\
  (forall px, In px (onPixels s) -> interior img0 px) /\
  (forall px, interior img0 px -> deref (image s) px <> 0 -> In px (onPixels s)) /\
  (forall px, deref img0 px = 0 -> deref (image s) px = 0).
Proof.
  induction 1 as [|k s HR IH Hd].
  - simpl. repeat split; auto.
    + intros px Hin. apply in_section in Hin as (r & c & Hr & Hc & ->).
      exists r, c. repeat split; lia.
    + intros px (r & c & Hr & Hc & ->) _. apply in_section.
      exists r, c. repeat split; lia.
  - destruct IH as (Hit & Hrows & Hcols & Hbin & Hsub & Hsup & Hmono).
    destruct (clearAll_dims (flaggedPixels s) (image s)) as [Er Ec].
    unfold body; simpl. repeat split.
    + rewrite Hit. rewrite Nat.odd_succ, <- Nat.negb_odd. reflexivity.
    + congruence.
    + congruence.
    + intros Hb. apply binary_clearAll, Hbin, Hb.
    + intros px Hin. apply in_remaining in Hin. apply Hsub. tauto.
    + intros px Hint Hon. rewrite deref_clearAll in Hon.
      destruct (in_dec Z.eq_dec px (flaggedPixels s)); [congruence|].
      apply in_remaining. split; [apply Hsup; assumption|exact Hon].
    + intros px H0. rewrite deref_clearAll.
      destruct (in_dec Z.eq_dec px (flaggedPixels s)); auto.
Qed.

(** On 0/1 bytes the test of the code is the rule of the specification:
    512 cases. *)
Lemma flagRule_specRule (k : nat) (p2 p3 p4 p5 p6 p7 p8 p9 : Z) :
  (p2 = 0 \/ p2 = 1) -> (p3 = 0 \/ p3 = 1) -> (p4 = 0 \/ p4 = 1) -> (p5 = 0 \/ p5 = 1) ->
  (p6 = 0 \/ p6 = 1) -> (p7 = 0 \/ p7 = 1) -> (p8 = 0 \/ p8 = 1) -> (p9 = 0 \/ p9 = 1) ->
  flagRule (Nat.odd k) p2 p3 p4 p5 p6 p7 p8 p9 = specRule k p2 p3 p4 p5 p6 p7 p8 p9.
Proof.
  unfold specRule. rewrite <- (Nat.negb_odd k).
  intros [-> | ->] [-> | ->] [-> | ->] [-> | ->] [-> | ->] [-> | ->] [-> | ->] [-> | ->];
    destruct (Nat.odd k); reflexivity.
Qed.

Lemma flagTest_spec (k : nat) (img : BitImage) (r c : Z) :
  binary img -> 0 <= r -> 0 <= c < m_cols img ->
  flagTest (Nat.odd k) img (find img r c) = true <->
  specA img r c = 1 /\ 2 <= specB img r c <= 6 /\
  specM1 k img r c = 0 /\ specM2 k img r c = 0.
Proof.
  intros Hb Hr Hc. unfold flagTest. rewrite coords_find by assumption.
  rewrite !Z.add_0_r.
  rewrite flagRule_specRule by (apply binary_deref, Hb).
  unfold specRule, specA, specB, specM1, specM2. simpl map.
  rewrite !andb_true_iff, !Z.eqb_eq, !Z.leb_le. tauto.
Qed.

End ThinnerFacts.

Module ThinnerClaims.
Import Thinner ThinnerFacts.

(** C1: in every sub-iteration executed by the thinner (numbered k from 0),
    an interior on-pixel (r, c) is flagged if and only if A = 1, 2 <= B <= 6,
    m1 = 0 and m2 = 0, with m1 = P2*P4*P6, m2 = P4*P6*P8 when k is even and
    m1 = P2*P4*P8, m2 = P2*P6*P8 when k is odd, all neighbours being read in
    the image as it is when the sub-iteration starts; only interior on-pixels
    are flagged; and the image after the sub-iteration is the image before it
    with exactly the flagged pixels cleared. *)
Theorem C1_flag_rule (img0 : BitImage) (k : nat) (s : State) :
  binary img0 -> Reach img0 k s -> difference s = true ->
  (forall r c, 1 <= r <= m_rows (image s) - 2 -> 1 <= c <= m_cols (image s) - 2 ->
     deref (image s) (find (image s) r c) <> 0 ->
     (In (find (image s) r c) (flaggedPixels s) <->
      specA (image s) r c = 1 /\ 2 <= specB (image s) r c <= 6 /\
      specM1 k (image s) r c = 0 /\ specM2 k (image s) r c = 0)) /\
  (forall px, In px (flaggedPixels s) ->
     interior (image s) px /\ deref (image s) px <> 0) /\
  (forall px, deref (image (body s)) px =
              if in_dec Z.eq_dec px (flaggedPixels s) then 0 else deref (image s) px).
Proof.
  intros Hb HR Hd.
  destruct (Reach_inv img0 k s HR) as (Hit & Hrows & Hcols & Hbin & Hsub & Hsup & _).
  assert (Hint : forall px, interior img0 px <-> interior (image s) px).
  { intros px. unfold interior, find. rewrite Hrows, Hcols. tauto. }
  split; [|split].
  - intros r c Hr Hc Hon. rewrite in_flaggedPixels, Hit.
    rewrite flagTest_spec by (auto; lia).
    assert (In (find (image s) r c) (onPixels s)).
    { apply Hsup; [|exact Hon]. apply Hint. exists r, c. auto. }
    tauto.
  - intros px Hin. apply in_flaggedPixels in Hin as (Hin & Hon & _).
    split; [apply Hint, Hsub, Hin|exact Hon].
  - intros px. unfold body. simpl. apply deref_clearAll.
Qed.

Lemma C1_flag_rule_witness :
  binary Samples.blob /\
  (In (find Samples.blob 1 1) (flaggedPixels (init Samples.blob)) <->
   specA Samples.blob 1 1 = 1 /\ 2 <= specB Samples.blob 1 1 <= 6 /\
   specM1 0 Samples.blob 1 1 = 0 /\ specM2 0 Samples.blob 1 1 = 0).
Proof.
  assert (Hb : binary Samples.blob).
  { unfold binary, Samples.blob, bits. repeat (constructor; [auto|]). constructor. }
  split; [exact Hb|].
  apply (proj1 (C1_flag_rule Samples.blob 0 (init Samples.blob) Hb
                             (Reach_init Samples.blob) eq_refl)).
  - simpl. lia.
  - simpl. lia.
  - discriminate.
Defined.

(** C7: thinImage terminates on every image; a sub-iteration that flags
    something strictly decreases the number of on-pixels and the loop goes
    on, a sub-iteration that flags nothing changes nothing and is the last
    one; and a pixel that is off stays off, in every sub-iteration and in the
    result. *)
Theorem C7_thinner_terminates (img0 : BitImage) :
  (forall fuel, (countOn img0 < fuel)%nat ->
     thinImage_fuel fuel img0 = Some (thinImage img0)) /\
  (forall k s, Reach img0 k s -> difference s = true ->
     (flaggedPixels s <> [] ->
        (countOn (image (body s)) < countOn (image s))%nat /\
        difference (body s) = true) /\
     (flaggedPixels s = [] ->
        image (body s) = image s /\ difference (body s) = false /\
        forall fuel, loop fuel (body s) = Some (image s)) /\
     (forall px, deref (image s) px = 0 -> deref (image (body s)) px = 0)) /\
  (forall px, deref img0 px = 0 -> deref (thinImage img0) px = 0) /\
  (countOn (thinImage img0) <= countOn img0)%nat.
Proof.
  assert (Hrun : forall fuel k s r, Reach img0 k s -> loop fuel s = Some r ->
            exists k' s', Reach img0 k' s' /\ r = image s').
  { induction fuel as [|fuel IH]; intros k s r HR Hl; cbn [loop] in Hl;
      destruct (difference s) eqn:Hd; try discriminate.
    - injection Hl as <-. eauto.
    - apply (IH (S k) (body s) r); [constructor; assumption|exact Hl].
    - injection Hl as <-. eauto. }
  assert (Hcount : forall k s, Reach img0 k s -> (countOn (image s) <= countOn img0)%nat).
  { induction 1 as [|k s HR IH Hd]; simpl; [lia|].
    etransitivity; [apply countOn_clearAll_le|exact IH]. }
  pose proof (thinImage_total img0) as Ht.
  split; [|split; [|split]].
  - intros fuel Hlt. unfold thinImage_fuel in *.
    apply (loop_more_fuel (S (countOn img0))); [exact Ht|lia].
  - intros k s HR Hd. split; [|split].
    + apply body_decreases.
    + intros E. destruct (body_final s E) as [Hi Hf]. repeat split; auto.
      intros fuel. destruct fuel; cbn [loop]; rewrite Hf, Hi; reflexivity.
    + intros px H0. unfold body. simpl. rewrite deref_clearAll.
      destruct (in_dec Z.eq_dec px (flaggedPixels s)); auto.
  - intros px H0. destruct (Hrun _ _ _ _ (Reach_init img0) Ht) as (k' & s' & HR & ->).
    apply (Reach_inv img0 k' s' HR). exact H0.
  - destruct (Hrun _ _ _ _ (Reach_init img0) Ht) as (k' & s' & HR & ->).
    apply (Hcount k' s' HR).
Qed.

End ThinnerClaims.

(** * The entry point *)

Module EntryClaims.
Import Entry.

Lemma to_int32_small (n : N) :
  (n < 3)%N -> (to_size_t (to_int32 (Z.of_N n)) <? 3) = true.
Proof.
  intros Hn. assert (Hc : Z.of_N n = 0 \/ Z.of_N n = 1 \/ Z.of_N n = 2) by lia.
  destruct Hc as [-> | [-> | ->]]; reflexivity.
Qed.

(** Inside the [int32_t] range the constructor returns, with the image of
    [BitImage_from]. *)
Lemma BitImage_new_in_range {TP : Type} (imageData : list TP) (isPixelOn : TP -> bool)
    (rows cols : Z) :
  0 <= rows * cols <= Tracer.INT32_MAX ->
  BitImage_new imageData isPixelOn rows cols
  = Some (BitImage_from imageData isPixelOn rows cols).
Proof.
  unfold Tracer.INT32_MAX. intros Hp. unfold BitImage_new, BitImage_from.
  assert (Hn : to_size_t (to_int32 (rows * cols)) = rows * cols).
  { unfold to_size_t, to_int32. rewrite (Z.mod_small (rows * cols + 2 ^ 31)) by lia.
    rewrite Z.mod_small by lia. lia. }
  rewrite Hn. unfold vector_max_size.
  destruct (Z.gtb_spec (rows * cols) (2 ^ 63 - 1)) as [Hgt|_]; [lia|reflexivity].
Qed.

(** A product that is negative as an [int32_t] makes the vector throw,
    whatever the pixels. *)
Lemma BitImage_new_throws {TP : Type} (imageData : list TP) (isPixelOn : TP -> bool)
    (rows cols : Z) :
  to_int32 (rows * cols) < 0 -> BitImage_new imageData isPixelOn rows cols = None.
Proof.
  intros Hneg. unfold BitImage_new.
  assert (Hlow : - 2 ^ 31 <= to_int32 (rows * cols)).
  { unfold to_int32. pose proof (Z.mod_pos_bound (rows * cols + 2 ^ 31) (2 ^ 32)). lia. }
  assert (Hn : to_size_t (to_int32 (rows * cols)) = to_int32 (rows * cols) + 2 ^ 64).
  { unfold to_size_t. symmetry. apply Z.mod_unique with (q := -1); lia. }
  rewrite Hn. unfold vector_max_size.
  destruct (Z.gtb_spec (to_int32 (rows * cols) + 2 ^ 64) (2 ^ 63 - 1)) as [_|Hle];
    [reflexivity|lia].
Qed.

(** The casts of the template keep a product that fits an [int32_t]. *)
Lemma cast_product (rows cols : N) :
  Z.of_N rows * Z.of_N cols <= Tracer.INT32_MAX ->
  0 <= to_int32 (Z.of_N rows) * to_int32 (Z.of_N cols) <= Tracer.INT32_MAX.
Proof.
  unfold Tracer.INT32_MAX. intros Hp.
  destruct (Z.eq_dec (Z.of_N rows) 0) as [->|Hr]; [change (to_int32 0) with 0; lia|].
  destruct (Z.eq_dec (Z.of_N cols) 0) as [->|Hc]; [change (to_int32 0) with 0; lia|].
  assert (Hrs : to_int32 (Z.of_N rows) = Z.of_N rows).
  { unfold to_int32. rewrite Z.mod_small by nia. lia. }
  assert (Hcs : to_int32 (Z.of_N cols) = Z.of_N cols).
  { unfold to_int32. rewrite Z.mod_small by nia. lia. }
  rewrite Hrs, Hcs. lia.
Qed.

(** C8, as amended: for every image with fewer than 3 rows or fewer than 3
    columns and at most 2^31 - 1 pixels, the public entry point returns, with
    no polyline, whatever the pixels and the options; it hands exactly one
    warning to the diagnostic sink and leaves the image as it was built (it
    is neither thinned nor traced). *)
Theorem C8_small_image `{StdSort} {TP : Type} (imageData : list TP) (rows cols : N)
    (isPixelOn : TP -> bool) (minSectionSize maxRecursions : N) (doThinning : bool) :
  (rows < 3)%N \/ (cols < 3)%N ->
  Z.of_N rows * Z.of_N cols <= Tracer.INT32_MAX ->
  Z.of_nat (length imageData) = Z.of_N rows * Z.of_N cols ->
  fitPolylines_template imageData rows cols isPixelOn
                        minSectionSize maxRecursions doThinning
  = Some (mkOutcome [] [tooSmall]
            (BitImage_from imageData isPixelOn
                           (to_int32 (Z.of_N rows)) (to_int32 (Z.of_N cols)))).
Proof.
  intros Hsmall Hproduct _. unfold fitPolylines_template.
  rewrite BitImage_new_in_range by (apply cast_product, Hproduct).
  f_equal. unfold fitPolylines. cbn [m_rows m_cols BitImage_from].
  destruct Hsmall as [Hr|Hc].
  - rewrite (to_int32_small rows Hr). reflexivity.
  - rewrite (to_int32_small cols Hc), orb_true_r. reflexivity.
Qed.

Lemma C8_small_image_witness :
  fitPolylines_template (H := InsertionSort) [true; true; true; true; true; true] 2 3
                        (fun b : bool => b) 3 0 true
  = Some (mkOutcome [] [tooSmall] (mkBitImage [1; 1; 1; 1; 1; 1] 2 3)).
Proof.
  apply (C8_small_image (H := InsertionSort) [true; true; true; true; true; true] 2 3
                        (fun b : bool => b) 3 0 true).
  - left. reflexivity.
  - unfold Tracer.INT32_MAX. simpl. lia.
  - reflexivity.
Defined.

(** C8 as the claim states it fails on an image of 2 rows and 2^30 columns:
    the product 2^31 of the constructor is negative as an [int32_t], the
    vector throws [std::length_error], and the entry point, with its guard
    and its warning, is never reached. *)
Lemma C8_counterexample :
  (2 < 3)%N /\
  Z.of_nat (length (replicate (Z.to_nat (2 ^ 31)) true)) = Z.of_N 2 * Z.of_N (2 ^ 30) /\
  fitPolylines_template (H := InsertionSort) (replicate (Z.to_nat (2 ^ 31)) true)
                        2 (2 ^ 30) (fun b : bool => b) 3 0 true
  = None.
Proof.
  split; [reflexivity|]. split.
  - rewrite length_replicate, Z2Nat.id by lia. reflexivity.
  - unfold fitPolylines_template. rewrite BitImage_new_throws; [reflexivity|].
    reflexivity.
Qed.

End EntryClaims.

(** * The recursive tracer *)

Module TracerFacts.
Import Tracer.


Section Search.
Variable image : BitImage.
Variables r0 c0 rows cols : Z.

Local Abbreviation lineCount := (Tracer.lineCount image r0 c0 rows cols).
Local Abbreviation SearchInv := (Tracer.SearchInv image r0 c0 rows cols).

Lemma lineCount_nonneg (i : Z) : 0 <= lineCount i.
Proof. unfold Tracer.lineCount, nOnPixels. lia. Qed.

Lemma searchLoop_inv (fuel : nat) :
  (forall l, 0 <= l < iMax rows cols -> lineCount l < INT64_MAX) ->
  forall i best m,
    0 <= i -> Z.of_nat fuel = iMax rows cols - i -> SearchInv i best m ->
    let st := searchLoop image r0 c0 rows cols fuel i best m in
    (i_final st = iMax rows cols /\ SearchInv (iMax rows cols) (bestSplit st) (minOn st)) \/
    (i <= i_final st < iMax rows cols /\ lineCount (i_final st) = 0 /\
     (forall l, 0 <= l < i_final st -> 0 < lineCount l) /\
     bestSplit st = splitCandidate r0 c0 rows cols (i_final st) /\ minOn st = 0).
Proof.
  intros Hbound. induction fuel as [|fuel IH]; intros i best m Hi Hfuel Hinv.
  - simpl. left. split; [lia|]. replace (iMax rows cols) with i by lia. exact Hinv.
  - cbn [searchLoop]. destruct (Z.ltb_spec i (iMax rows cols)) as [Hlt|Hge]; [|lia].
    change (nOnPixels image r0 c0 rows cols (splitCandidate r0 c0 rows cols i))
      with (lineCount i).
    pose proof (lineCount_nonneg i) as Hn0.
    pose proof (Hbound i ltac:(lia)) as Hnmax.
    destruct Hinv as [Hpos Hbest].
    assert (Hm : 0 < m).
    { destruct Hbest as [(_ & _ & Em)|(j & Hj & _ & Em & _)]; rewrite Em;
        [unfold INT64_MAX; lia|apply Hpos; lia]. }
    assert (Hprev : i = 0 /\ m = INT64_MAX \/
                    exists j, 0 <= j < i /\ best = splitCandidate r0 c0 rows cols j /\
                              m = lineCount j /\
                              (forall l, 0 <= l < i -> m <= lineCount l) /\
                              (forall l, 0 <= l < j -> m < lineCount l)).
    { destruct Hbest as [(E0 & _ & Em)|Hj]; [left; auto|right; exact Hj]. }
    clear Hbest.
    destruct (Z.eqb_spec (Z.min m (lineCount i)) 0) as [Hz|Hnz].
    + right. cbn [i_final bestSplit minOn].
      assert (Hn : lineCount i = 0) by lia.
      destruct (Z.ltb_spec (lineCount i) m); [|lia].
      repeat split; auto; lia.
    + match goal with
      | |- context [searchLoop _ _ _ _ _ fuel (i + 1) ?b ?m'] =>
          specialize (IH (i + 1) b m' ltac:(lia) ltac:(lia)); cbv zeta in IH;
          enough (Hinv' : SearchInv (i + 1) b m');
          [destruct (IH Hinv') as [L|(R1 & R2)]; [left; exact L|right; split; [lia|exact R2]]|]
      end.
      split.
      * intros l Hl. destruct (Z.eq_dec l i) as [E|]; [rewrite E; lia|apply Hpos; lia].
      * right. destruct (Z.ltb_spec (lineCount i) m) as [Hlt'|Hge'].
        -- exists i. split; [lia|]. split; [reflexivity|]. split; [lia|]. split.
           ++ intros l Hl. destruct (Z.eq_dec l i) as [E|]; [rewrite E; lia|].
              destruct Hprev as [(E0 & _)|(j & Hj & _ & _ & Hall & _)]; [lia|].
              specialize (Hall l ltac:(lia)). lia.
           ++ intros l Hl.
              destruct Hprev as [(E0 & _)|(j & Hj & _ & _ & Hall & _)]; [lia|].
              specialize (Hall l ltac:(lia)). lia.
        -- destruct Hprev as [(E0 & Em)|(j & Hj & Hb & Hmj & Hall & Hfirst)]; [lia|].
           exists j. split; [lia|]. split; [exact Hb|]. split; [lia|]. split.
           ++ intros l Hl. destruct (Z.eq_dec l i) as [E|]; [rewrite E; lia|].
              specialize (Hall l ltac:(lia)). lia.
           ++ intros l Hl. specialize (Hfirst l Hl). lia.
Qed.

Lemma lineCount_le_dim (l : Z) :
  0 <= (if rows >=? cols then rows else cols) ->
  lineCount l <= (if rows >=? cols then rows else cols).
Proof.
  unfold Tracer.lineCount, nOnPixels, linePixels, section. intros Hdim.
  etransitivity; [apply inj_le, filter_length_le|].
  rewrite !Z.geb_leb in *. destruct (Z.leb_spec cols rows).
  - rewrite (seqZ_cons _ 1), (seqZ_nil _ (Z.pred 1)) by lia. simpl.
    rewrite app_nil_r, length_map, length_seqZ. lia.
  - rewrite (flat_map_constant_length (c := 1%nat)).
    + rewrite length_seqZ. lia.
    + intros r _. rewrite (seqZ_cons _ 1), (seqZ_nil _ (Z.pred 1)) by lia. reflexivity.
Qed.

(** The loop always selects one of its candidates. *)
Lemma search_selects :
  5 <= (if rows >=? cols then rows else cols) <= INT32_MAX ->
  exists j, 0 <= j < iMax rows cols /\
            bestSplit (search image r0 c0 rows cols) = splitCandidate r0 c0 rows cols j.
Proof.
  intros Hdim.
  assert (HiMax : iMax rows cols = (if rows >=? cols then rows else cols) - 4).
  { unfold iMax. destruct (rows >=? cols); reflexivity. }
  pose proof (searchLoop_inv (Z.to_nat (iMax rows cols))) as Hloop.
  specialize (Hloop ltac:(intros l _; pose proof (lineCount_le_dim l ltac:(lia));
                          unfold INT32_MAX, INT64_MAX in *; lia)).
  specialize (Hloop 0 (-1) INT64_MAX ltac:(lia) ltac:(lia)).
  specialize (Hloop ltac:(split; [intros; lia|left; auto])).
  cbv zeta in Hloop. fold (search image r0 c0 rows cols) in Hloop.
  destruct Hloop as [(Hfin & Hpos & Hbest)|(Hfin & Hzero & Hpos & Hbest & Hmin)].
  - destruct Hbest as [(Habs & _)|(j & Hj & Hb & _)]; [lia|]. exists j. auto.
  - exists (i_final (search image r0 c0 rows cols)). split; [lia|exact Hbest].
Qed.

End Search.

Lemma offset_bounds (j : Z) : 0 <= j -> - (j + 1) <= 2 * offset j <= j.
Proof.
  intros Hj. unfold offset. destruct (Z.even j) eqn:E.
  - apply Z.even_spec in E as [k ->]. rewrite Z.mul_1_l.
    rewrite Z.quot_div_nonneg by lia.
    replace ((2 * k + 1) / 2) with k; [lia|].
    apply (Z.div_unique _ _ _ 1); lia.
  - replace (-1 * (j + 1)) with (- (j + 1)) by lia.
    rewrite Z.quot_opp_l by lia. rewrite Z.quot_div_nonneg by lia.
    pose proof (Z.mul_div_le (j + 1) 2 ltac:(lia)).
    pose proof (Z.div_pos (j + 1) 2 ltac:(lia) ltac:(lia)). lia.
Qed.

(** Where the selected line lies: two lines at least on either side. *)
Lemma split_position (image : BitImage) (r0 c0 rows cols : Z) :
  5 <= (if rows >=? cols then rows else cols) <= INT32_MAX ->
  let best := bestSplit (search image r0 c0 rows cols) in
  if rows >=? cols then r0 + 2 <= best <= r0 + rows - 3
  else c0 + 2 <= best <= c0 + cols - 3.
Proof.
  intros Hdim best.
  destruct (search_selects image r0 c0 rows cols Hdim) as (j & Hj & Hb).
  fold best in Hb. unfold splitCandidate, iMax in *.
  pose proof (offset_bounds j ltac:(lia)) as Ho.
  destruct (rows >=? cols).
  - rewrite Hb. rewrite Z.quot_div_nonneg by lia.
    pose proof (Z.div_mod rows 2 ltac:(lia)). pose proof (Z.mod_pos_bound rows 2 ltac:(lia)).
    lia.
  - rewrite Hb. rewrite Z.quot_div_nonneg by lia.
    pose proof (Z.div_mod cols 2 ltac:(lia)). pose proof (Z.mod_pos_bound cols 2 ltac:(lia)).
    lia.
Qed.

(** The two sections of the recursive calls, once the test
    [bestSplit == rSplit] is resolved. *)
Lemma halves (image : BitImage) (r0 c0 rows cols : Z) :
  5 <= (if rows >=? cols then rows else cols) <= INT32_MAX -> 0 <= c0 ->
  let best := bestSplit (search image r0 c0 rows cols) in
  if rows >=? cols then
    firstHalf image r0 c0 rows cols = (r0, c0, best - r0 + 1, cols) /\
    secondHalf image r0 c0 rows cols = (best, c0, r0 + rows - best, cols)
  else
    firstHalf image r0 c0 rows cols = (r0, c0, rows, best - c0 + 1) /\
    secondHalf image r0 c0 rows cols = (r0, best, rows, c0 + cols - best).
Proof.
  intros Hdim Hc0 best. pose proof (split_position image r0 c0 rows cols Hdim) as Hp.
  cbv zeta in Hp. fold best in Hp.
  unfold firstHalf, secondHalf, splitsRows, rSplit, cSplit. fold best.
  destruct (rows >=? cols).
  - rewrite Z.eqb_refl. auto.
  - destruct (Z.eqb_spec best (-1)); [lia|]. auto.
Qed.

Lemma not_leaf_dim (rows cols iter minSectionSize maxRecursions : Z) :
  isLeaf rows cols iter minSectionSize maxRecursions = false ->
  5 <= (if rows >=? cols then rows else cols).
Proof.
  unfold isLeaf. rewrite orb_false_iff, andb_false_iff, (Z.geb_leb rows cols).
  intros [_ H]. destruct (Z.leb_spec cols rows); destruct H as [H|H];
    apply Z.ltb_ge in H; lia.
Qed.

Lemma halves_admissible (image : BitImage) (r0 c0 rows cols iter mss mr : Z) :
  Admissible (r0, c0, rows, cols) ->
  isLeaf rows cols iter mss mr = false ->
  Admissible (firstHalf image r0 c0 rows cols) /\
  Admissible (secondHalf image r0 c0 rows cols).
Proof.
  intros (Hr0 & Hc0 & Hrows & Hcols) Hleaf.
  pose proof (not_leaf_dim _ _ _ _ _ Hleaf) as Hdim.
  assert (Hdim' : 5 <= (if rows >=? cols then rows else cols) <= INT32_MAX)
    by (destruct (rows >=? cols); lia).
  pose proof (split_position image r0 c0 rows cols Hdim') as Hp.
  pose proof (halves image r0 c0 rows cols Hdim' Hc0) as Hh.
  cbv zeta in *. destruct (rows >=? cols); destruct Hh as [-> ->]; simpl; lia.
Qed.


Lemma not_empty_sides (image : BitImage) (r0 c0 rows cols : Z) :
  isEmpty image (section image r0 c0 rows cols) = false -> 1 <= rows /\ 1 <= cols.
Proof.
  unfold isEmpty. rewrite negb_false_iff, existsb_exists.
  intros (px & Hin & _). apply in_section in Hin as (r & c & Hr & Hc & _). lia.
Qed.

(** The recursion returns: every split shortens the axis it splits. *)
Lemma recurse_total {A : Type} (leaf : BitImage -> Z -> Z -> Z -> Z -> A)
    (merge : A -> A -> A) (none : A) (fuel : nat) (image : BitImage) :
  forall r0 c0 rows cols iter mss mr,
    0 <= r0 -> 0 <= c0 -> rows <= INT32_MAX -> cols <= INT32_MAX ->
    Z.max 0 (rows + cols) < Z.of_nat fuel ->
    exists a, recurse leaf merge none fuel image r0 c0 rows cols iter mss mr = Some a.
Proof.
  induction fuel as [|fuel IH]; intros r0 c0 rows cols iter mss mr Hr0 Hc0 Hrows Hcols Hfuel;
    [lia|].
  cbn [recurse].
  destruct (isEmpty image (section image r0 c0 rows cols)) eqn:Hempty; [eauto|].
  destruct (isLeaf rows cols iter mss mr) eqn:Hleaf; [eauto|].
  apply not_empty_sides in Hempty as [Hr1 Hc1].
  pose proof (not_leaf_dim _ _ _ _ _ Hleaf) as Hdim.
  assert (Hdim' : 5 <= (if rows >=? cols then rows else cols) <= INT32_MAX)
    by (destruct (rows >=? cols); lia).
  pose proof (split_position image r0 c0 rows cols Hdim') as Hp.
  pose proof (halves image r0 c0 rows cols Hdim' Hc0) as Hh.
  cbv zeta in *.
  destruct (rows >=? cols); destruct Hh as [-> ->].
  - destruct (IH r0 c0 (bestSplit (search image r0 c0 rows cols) - r0 + 1) cols
                 (iter + 1) mss mr) as [a ->]; try lia.
    destruct (IH (bestSplit (search image r0 c0 rows cols)) c0
                 (r0 + rows - bestSplit (search image r0 c0 rows cols)) cols
                 (iter + 1) mss mr) as [b ->]; try lia.
    eauto.
  - destruct (IH r0 c0 rows (bestSplit (search image r0 c0 rows cols) - c0 + 1)
                 (iter + 1) mss mr) as [a ->]; try lia.
    destruct (IH r0 (bestSplit (search image r0 c0 rows cols)) rows
                 (c0 + cols - bestSplit (search image r0 c0 rows cols))
                 (iter + 1) mss mr) as [b ->]; try lia.
    eauto.
Qed.

(** [fitPolylines] is the result of the recursion: the depth bound is never
    reached. *)
Lemma fitPolylines_total `{StdSort} (image : BitImage) (r0 c0 rows cols iter mss mr : Z) :
  0 <= r0 -> 0 <= c0 -> rows <= INT32_MAX -> cols <= INT32_MAX ->
  recurse Leaf.fitSegments Merger.mergePolylines [] (depthBound rows cols)
          image r0 c0 rows cols iter mss mr
  = Some (fitPolylines image r0 c0 rows cols iter mss mr).
Proof.
  intros Hr0 Hc0 Hrows Hcols. unfold fitPolylines.
  destruct (recurse_total Leaf.fitSegments Merger.mergePolylines [] (depthBound rows cols)
              image r0 c0 rows cols iter mss mr Hr0 Hc0 Hrows Hcols) as [a ->].
  - unfold depthBound. lia.
  - reflexivity.
Qed.

End TracerFacts.

Module TracerClaims.
Import Tracer TracerFacts.





End TracerClaims.

(** * The polyline merger *)

Module MergerFacts.
Import Merger.

Lemma find_if_le {A : Type} (p : A -> bool) (l : list A) : (find_if p l <= length l)%nat.
Proof. induction l as [|x l IH]; simpl; [lia|]. destruct (p x); simpl; lia. Qed.

Lemma find_if_found {A : Type} (p : A -> bool) (l : list A) :
  (find_if p l < length l)%nat ->
  exists x, l !! find_if p l = Some x /\ p x = true.
Proof.
  induction l as [|x l IH]; simpl; [lia|]. destruct (p x) eqn:E.
  - intros _. exists x. auto.
  - intros Hlt. apply IH. lia.
Qed.

Lemma iter_swap_length {A : Type} (l : list A) (i j : nat) :
  length (iter_swap l i j) = length l.
Proof.
  unfold iter_swap. destruct (l !! i), (l !! j); try reflexivity.
  rewrite !length_insert. reflexivity.
Qed.

Lemma insert_Permutation {A : Type} (l : list A) (i : nat) (x y : A) :
  l !! i = Some x -> <[i := y]> l ≡ₚ y :: delete i l.
Proof.
  intros Hi. pose proof (lookup_lt_Some _ _ _ Hi) as Hlt.
  rewrite insert_take_drop by exact Hlt. rewrite delete_take_drop.
  symmetry. apply Permutation_middle.
Qed.

Lemma iter_swap_Permutation {A : Type} (l : list A) (i j : nat) :
  iter_swap l i j ≡ₚ l.
Proof.
  unfold iter_swap. destruct (l !! i) as [x|] eqn:Ei; [|reflexivity].
  destruct (l !! j) as [y|] eqn:Ej; [|reflexivity].
  destruct (decide (i = j)) as [->|Hne].
  - assert (x = y) by congruence. subst y.
    rewrite (list_insert_id l j x) by exact Ej. rewrite list_insert_id by exact Ej.
    reflexivity.
  - assert (Ej' : <[i := y]> l !! j = Some y) by (rewrite list_lookup_insert_ne; auto).
    rewrite (insert_Permutation _ j y x Ej').
    pose proof (delete_Permutation _ _ _ Ej') as H1.
    pose proof (insert_Permutation l i x y Ei) as H2.
    assert (H3 : delete j (<[i := y]> l) ≡ₚ delete i l).
    { apply (Permutation_cons_inv (a := y)). rewrite <- H1. exact H2. }
    rewrite H3. symmetry. apply delete_Permutation. exact Ei.
Qed.

(** The swap of a match: the source goes to the end of the live range. *)
Lemma swap_out (srcs : list (list Z)) (e i : nat) (s : list Z) :
  (e <= length srcs)%nat -> (i < e)%nat -> srcs !! i = Some s ->
  take e srcs ≡ₚ take (e - 1) (iter_swap srcs i (e - 1)) ++ [s].
Proof.
  intros He Hi Hs.
  destruct (lookup_lt_is_Some_2 srcs (e - 1)) as [y Hy]; [lia|].
  assert (Hlast : iter_swap srcs i (e - 1) !! (e - 1)%nat = Some s).
  { unfold iter_swap. rewrite Hs, Hy. apply list_lookup_insert_eq.
    rewrite length_insert. lia. }
  rewrite <- (take_S_r _ _ _ Hlast). replace (S (e - 1)) with e by lia.
  unfold iter_swap. rewrite Hs, Hy.
  rewrite !take_insert_lt by lia.
  transitivity (iter_swap (take e srcs) i (e - 1)).
  - symmetry. apply iter_swap_Permutation.
  - unfold iter_swap. rewrite !lookup_take_lt by lia. rewrite Hs, Hy. reflexivity.
Qed.

Lemma rev_front_last (src : list Z) :
  src <> [] -> rev src = removelast (rev src) ++ [front src].
Proof.
  destruct src as [|a t]; [congruence|]. intros _. simpl.
  rewrite removelast_last. reflexivity.
Qed.

Lemma rev_back_first (src : list Z) :
  src <> [] -> rev src = back src :: tail (rev src).
Proof.
  intros Hne. destruct (rev src) as [|a t] eqn:E.
  - exfalso. apply Hne. rewrite <- (rev_involutive src), E. reflexivity.
  - assert (Hsrc : src = rev (a :: t)) by (rewrite <- E, rev_involutive; reflexivity).
    unfold back. rewrite Hsrc. simpl. rewrite last_last. reflexivity.
Qed.

(** Each of the four splices keeps every locator of the destination and of
    the source but one: the endpoint of the source named by the test. *)
Lemma spliceFrontFront_perm (dest src : list Z) :
  src <> [] -> spliceFrontFront dest src ++ [front src] ≡ₚ dest ++ src.
Proof.
  intros Hne. unfold spliceFrontFront.
  rewrite <- app_assoc, (Permutation_app_comm dest), app_assoc.
  rewrite <- (rev_front_last src Hne), <- Permutation_rev. apply Permutation_app_comm.
Qed.

Lemma spliceFrontBack_perm (dest src : list Z) :
  src <> [] -> spliceFrontBack dest src ++ [back src] ≡ₚ dest ++ src.
Proof.
  intros Hne. unfold spliceFrontBack, back.
  rewrite <- app_assoc, (Permutation_app_comm dest), app_assoc.
  rewrite <- (app_removelast_last 0 Hne). apply Permutation_app_comm.
Qed.

Lemma spliceBackFront_perm (dest src : list Z) :
  src <> [] -> spliceBackFront dest src ++ [front src] ≡ₚ dest ++ src.
Proof.
  destruct src as [|a t]; [congruence|]. intros _. unfold spliceBackFront. simpl.
  rewrite <- app_assoc. apply Permutation_app_head.
  symmetry. apply Permutation_cons_append.
Qed.

Lemma spliceBackBack_perm (dest src : list Z) :
  src <> [] -> spliceBackBack dest src ++ [back src] ≡ₚ dest ++ src.
Proof.
  intros Hne. unfold spliceBackBack.
  rewrite <- app_assoc. apply Permutation_app_head.
  rewrite <- Permutation_cons_append, <- (rev_back_first src Hne).
  symmetry. apply Permutation_rev.
Qed.

Lemma take_source_step (splice : list Z -> list Z -> list Z) (endOf : list Z -> Z)
    (p : list Z -> bool) (dest : list Z) (srcs : list (list Z)) (e : nat) :
  (e <= length srcs)%nat ->
  Forall (fun pl => pl <> []) (take e srcs) ->
  (forall s, s <> [] -> splice dest s ++ [endOf s] ≡ₚ dest ++ s) ->
  (forall s, p s = true -> sharedEnd (endOf s) dest s) ->
  (find_if p (take e srcs) < e)%nat ->
  let r := take_source splice dest srcs e (find_if p (take e srcs)) in
  OneStep dest srcs e (fst r) (fst (snd r)) (snd (snd r)).
Proof.
  intros He Hne Hsplice Hshared Hlt r. right.
  destruct (find_if_found p (take e srcs)) as (s & Hs & Hp).
  { rewrite length_take_le by exact He. exact Hlt. }
  rewrite lookup_take_lt in Hs by exact Hlt.
  assert (Hin : In s (take e srcs)).
  { apply list_elem_of_In. apply (list_elem_of_lookup_2 _ (find_if p (take e srcs))).
    rewrite lookup_take_lt by exact Hlt. exact Hs. }
  exists s, (endOf s). subst r. unfold take_source. cbn [fst snd]. rewrite Hs. simpl.
  split; [exact Hin|]. split; [lia|]. split; [apply swap_out; auto|]. split.
  - apply Hsplice. rewrite Forall_forall in Hne. apply Hne, list_elem_of_In, Hin.
  - apply Hshared, Hp.
Qed.

Lemma mergeOne_step (dest : list Z) (srcs : list (list Z)) (e : nat) :
  (e <= length srcs)%nat ->
  Forall (fun pl => pl <> []) (take e srcs) ->
  let r := mergeOne dest (srcs, e) in
  OneStep dest srcs e (fst r) (fst (snd r)) (snd (snd r)).
Proof.
  intros He Hne. unfold mergeOne.
  destruct (Nat.ltb_spec (find_if (fun src => front dest =? front src) (take e srcs)) e).
  { apply (take_source_step spliceFrontFront front); auto.
    - intros s Hs. apply spliceFrontFront_perm, Hs.
    - intros s Hp. apply Z.eqb_eq in Hp. unfold sharedEnd. auto. }
  destruct (Nat.ltb_spec (find_if (fun src => front dest =? back src) (take e srcs)) e).
  { apply (take_source_step spliceFrontBack back); auto.
    - intros s Hs. apply spliceFrontBack_perm, Hs.
    - intros s Hp. apply Z.eqb_eq in Hp. unfold sharedEnd. auto. }
  destruct (Nat.ltb_spec (find_if (fun src => back dest =? front src) (take e srcs)) e).
  { apply (take_source_step spliceBackFront front); auto.
    - intros s Hs. apply spliceBackFront_perm, Hs.
    - intros s Hp. apply Z.eqb_eq in Hp. unfold sharedEnd. auto. }
  destruct (Nat.ltb_spec (find_if (fun src => back dest =? back src) (take e srcs)) e).
  { apply (take_source_step spliceBackBack back); auto.
    - intros s Hs. apply spliceBackBack_perm, Hs.
    - intros s Hp. apply Z.eqb_eq in Hp. unfold sharedEnd. auto. }
  left. auto.
Qed.


Lemma mergeOne_length (dest : list Z) (srcs : list (list Z)) (e : nat) :
  length (fst (snd (mergeOne dest (srcs, e)))) = length srcs.
Proof.
  unfold mergeOne, take_source.
  repeat (match goal with |- context [if ?b then _ else _] => destruct b end);
    cbn [fst snd]; try apply iter_swap_length; reflexivity.
Qed.

(** What the whole loop does: the live sources split into those still live
    and those merged, and each merge drops one shared end. *)
Lemma mergeLoop_spec (dests : list (list Z)) :
  forall (srcs : list (list Z)) (e : nat),
    (e <= length srcs)%nat ->
    Forall (fun pl => pl <> []) (take e srcs) ->
    let r := mergeLoop dests (srcs, e) in
    exists merged dropped,
      (snd (snd r) <= e)%nat /\
      length (fst (snd r)) = length srcs /\
      length merged = (e - snd (snd r))%nat /\
      length dropped = (e - snd (snd r))%nat /\
      take e srcs ≡ₚ take (snd (snd r)) (fst (snd r)) ++ merged /\
      concat (fst r) ++ dropped ≡ₚ concat dests ++ concat merged /\
      Forall (fun x => exists d s, In d dests /\ In s (take e srcs) /\ sharedEnd x d s)
             dropped.
Proof.
  induction dests as [|dest rest IH]; intros srcs e He Hne r.
  - exists [], []. subst r. cbn [mergeLoop fst snd concat]. rewrite !app_nil_r.
    repeat split; auto; try lia; simpl; try lia.
  - subst r. cbn [mergeLoop].
    pose proof (mergeOne_step dest srcs e He Hne) as Hstep.
    pose proof (mergeOne_length dest srcs e) as Hlen1.
    destruct (mergeOne dest (srcs, e)) as [dest' [srcs1 e1]]. cbn [fst snd] in *.
    assert (Hpre : (e1 <= length srcs1)%nat /\ Forall (fun pl => pl <> []) (take e1 srcs1) /\
                   (forall s, In s (take e1 srcs1) -> In s (take e srcs))).
    { destruct Hstep as [(_ & -> & ->)|(s & x & _ & He1 & Hperm & _)]; [auto|].
      split; [lia|]. split.
      - rewrite Hperm in Hne. apply Forall_app in Hne. tauto.
      - intros s' Hs'. apply (Permutation_in s' (symmetry Hperm)).
        apply in_or_app. left. exact Hs'. }
    destruct Hpre as (He1 & Hne1 & Hsub).
    specialize (IH srcs1 e1 He1 Hne1). cbv zeta in IH.
    destruct (mergeLoop rest (srcs1, e1)) as [rest' [srcs2 e2]]. cbn [fst snd] in *.
    destruct IH as (merged & dropped & Hle & Hlen & Hlm & Hld & Hperm & Hcat & Hends).
    assert (Hends' : Forall (fun x => exists d s, In d (dest :: rest) /\
                                        In s (take e srcs) /\ sharedEnd x d s) dropped).
    { eapply Forall_impl; [exact Hends|]. intros x (d & s & Hd & Hs & Hx).
      exists d, s. split; [right; exact Hd|]. split; [apply Hsub, Hs|exact Hx]. }
    destruct Hstep as [(-> & -> & ->)|(s & x & Hin & HSe & Hperm1 & Hsplice & Hshared)].
    + exists merged, dropped. repeat split; auto.
      cbn [concat]. rewrite <- !app_assoc. apply Permutation_app_head. exact Hcat.
    + exists (s :: merged), (x :: dropped).
      split; [lia|]. split; [congruence|]. split; [simpl; lia|]. split; [simpl; lia|].
      split; [|split].
      * rewrite Hperm1, Hperm. rewrite <- app_assoc. apply Permutation_app_head.
        symmetry. apply Permutation_cons_append.
      * cbn [concat].
        transitivity ((dest' ++ [x]) ++ (concat rest' ++ dropped)).
        { rewrite <- !app_assoc. apply Permutation_app_head.
          rewrite (Permutation_app_comm [x]). rewrite <- app_assoc.
          apply Permutation_app_head. simpl.
          apply Permutation_cons_append. }
        rewrite Hsplice, Hcat. rewrite <- !app_assoc. apply Permutation_app_head.
        rewrite !app_assoc. apply Permutation_app_tail. apply Permutation_app_comm.
      * constructor; [|exact Hends'].
        exists dest, s. split; [left; reflexivity|]. split; [exact Hin|exact Hshared].
Qed.

End MergerFacts.

Module MergerClaims.
Import Merger MergerFacts.

(** C2: for destination and source sets of non-empty polylines, the sources
    split into the unmerged ones and the merged ones, one per merge
    performed; every unmerged source is in the output unchanged; and the
    locators of the output, together with one locator per merge, which ends
    both a destination and a source polyline, are exactly the locators of
    D and S, counted with multiplicity. *)
Theorem C2_merger_conservation (D S : list (list Z)) :
  Forall (fun pl => pl <> []) D -> Forall (fun pl => pl <> []) S ->
  exists merged dropped : list _,
    Permutation S (unmergedSources D S ++ merged) /\
    length merged = mergesPerformed D S /\
    length dropped = mergesPerformed D S /\
    Forall (fun x => exists d s, In d D /\ In s S /\ sharedEnd x d s) dropped /\
    Permutation (concat (mergePolylines D S) ++ dropped) (concat D ++ concat S) /\
    (forall s, In s (unmergedSources D S) -> In s (mergePolylines D S)).
Proof.
  intros HD HS. unfold mergesPerformed, unmergedSources, mergePolylines.
  destruct D as [|d D'].
  { exists [], []. rewrite !app_nil_r.
    repeat split; auto; try reflexivity; simpl; lia. }
  pose proof (mergeLoop_spec (d :: D') S (length S) (Nat.le_refl _)) as Hspec.
  rewrite firstn_all in Hspec. specialize (Hspec HS). cbv zeta in Hspec.
  destruct (mergeLoop (d :: D') (S, length S)) as [dests [srcs srcEnd]].
  cbn [fst snd] in Hspec.
  destruct Hspec as (merged & dropped & Hle & Hlen & Hlm & Hld & Hperm & Hcat & Hends).
  assert (Htake : length (take srcEnd srcs) = srcEnd) by (apply length_take_le; lia).
  exists merged, dropped. rewrite Htake.
  split; [exact Hperm|]. split; [exact Hlm|]. split; [exact Hld|]. split; [exact Hends|].
  destruct S as [|s0 S'].
  - assert (srcEnd = 0%nat) by (simpl in Hle; lia). subst srcEnd.
    destruct merged; [|simpl in Hlm; lia]. destruct dropped; [|simpl in Hld; lia].
    split; [reflexivity|]. intros s Hs. rewrite take_0 in Hs. destruct Hs.
  - split.
    + rewrite concat_app, <- app_assoc.
      rewrite (Permutation_app_comm (concat (take srcEnd srcs))).
      rewrite app_assoc, Hcat, <- app_assoc. apply Permutation_app_head.
      rewrite Hperm, concat_app. apply Permutation_app_comm.
    + intros s Hs. apply in_or_app. right. exact Hs.
Qed.

Lemma C2_merger_conservation_witness :
  exists merged dropped : list _,
    Permutation [[3; 4; 5]; [8; 9]] (unmergedSources [[1; 2; 3]] [[3; 4; 5]; [8; 9]] ++ merged) /\
    length merged = mergesPerformed [[1; 2; 3]] [[3; 4; 5]; [8; 9]] /\
    length dropped = mergesPerformed [[1; 2; 3]] [[3; 4; 5]; [8; 9]] /\
    Forall (fun x => exists d s, In d [[1; 2; 3]] /\ In s [[3; 4; 5]; [8; 9]] /\
                                 sharedEnd x d s) dropped /\
    Permutation (concat (mergePolylines [[1; 2; 3]] [[3; 4; 5]; [8; 9]]) ++ dropped)
                (concat [[1; 2; 3]] ++ concat [[3; 4; 5]; [8; 9]]) /\
    (forall s, In s (unmergedSources [[1; 2; 3]] [[3; 4; 5]; [8; 9]]) ->
               In s (mergePolylines [[1; 2; 3]] [[3; 4; 5]; [8; 9]])).
Proof.
  apply (C2_merger_conservation [[1; 2; 3]] [[3; 4; 5]; [8; 9]]);
    repeat (constructor; [discriminate|]); constructor.
Defined.

End MergerClaims.

(** * The leaf segment fitter *)

Module LeafFacts.
Import Merger MergerFacts Leaf.

Lemma find_from_ge {A : Type} (p : A -> bool) (v : list A) (from : nat) :
  (from <= find_from p v from)%nat.
Proof. unfold find_from. lia. Qed.

Lemma find_from_le {A : Type} (p : A -> bool) (v : list A) (from : nat) :
  (from <= length v)%nat -> (find_from p v from <= length v)%nat.
Proof.
  intros Hle. unfold find_from.
  pose proof (find_if_le p (drop from v)) as H. rewrite length_drop in H. lia.
Qed.

Lemma find_from_end {A : Type} (p : A -> bool) (v : list A) :
  find_from p v (length v) = length v.
Proof. unfold find_from. rewrite drop_all. simpl. lia. Qed.

Lemma find_from_found {A : Type} (p : A -> bool) (v : list A) (from : nat) :
  (find_from p v from < length v)%nat ->
  exists x, v !! find_from p v from = Some x /\ p x = true.
Proof.
  intros Hlt. unfold find_from in *.
  destruct (find_if_found p (drop from v)) as (x & Hx & Hp).
  - rewrite length_drop. lia.
  - rewrite lookup_drop in Hx. eauto.
Qed.

Lemma find_from_skips {A : Type} (p : A -> bool) (v : list A) (from : nat) (x : A) :
  v !! from = Some x -> p x = false -> (from < find_from p v from)%nat.
Proof.
  intros Hx Hp. unfold find_from.
  rewrite (drop_S _ _ _ Hx). simpl. rewrite Hp. lia.
Qed.

(** The loop is left, and the last thing it has read for [pxMid] is the
    position one past the end of the frame. *)
Lemma scanLoop_reads_end (image : BitImage) (v : list Z) (pxCenter : Z) (fuel : nat) :
  forall st, (pxOff st <= length v)%nat -> (length v - pxOff st < fuel)%nat ->
    exists st', scanLoop image v pxCenter fuel st = Some st' /\
                exists reads, midReads st' = reads ++ [length v].
Proof.
  induction fuel as [|fuel IH]; intros st Hle Hfuel; [lia|].
  cbn [scanLoop].
  pose proof (find_from_ge (isOn image) v (pxOff st)) as Hge.
  pose proof (find_from_le (isOn image) v (pxOff st) Hle) as Hon.
  destruct (Nat.eqb_spec (find_from (isOn image) v (pxOff st)) (length v)) as [Heq|Hne].
  - eexists. split; [reflexivity|]. cbn [midReads]. exists (midReads st).
    rewrite Heq, find_from_end, Nat.sub_diag. simpl. rewrite Nat.add_0_r. reflexivity.
  - destruct (find_from_found (isOn image) v (pxOff st)) as (x & Hx & Hp); [lia|].
    assert (Hskip : (find_from (isOn image) v (pxOff st)
                     < find_from (isOff image) v (find_from (isOn image) v (pxOff st)))%nat).
    { apply (find_from_skips _ _ _ x Hx). unfold isOff. fold (isOn image x).
      rewrite Hp. reflexivity. }
    pose proof (find_from_le (isOff image) v _ Hon) as Hoff.
    apply IH; cbn [pxOff]; lia.
Qed.

Lemma frameScan_returns (image : BitImage) (r0 c0 rows cols : Z) :
  exists st, frameScan image r0 c0 rows cols = Some st /\
             exists reads, midReads st = reads ++ [length (rotatedFrame image r0 c0 rows cols)].
Proof.
  unfold frameScan.
  assert (Hlen : length (rotatedFrame image r0 c0 rows cols)
                 = length (pixelsFrame image r0 c0 rows cols)).
  { unfold rotatedFrame, rotate. rewrite length_app, length_drop, length_take.
    pose proof (find_if_le (isOff image) (pixelsFrame image r0 c0 rows cols)). lia. }
  apply scanLoop_reads_end; cbn [pxOff]; rewrite Hlen.
  - apply find_if_le.
  - lia.
Qed.

Lemma std_sort_singleton `{StdSort} (comp : Z -> Z -> bool) (x : Z) :
  std_sort comp [x] = [x].
Proof. apply Permutation_singleton_r, std_sort_perm. Qed.

Lemma std_sort_pair `{StdSort} (comp : Z -> Z -> bool) (key : Z -> Z) (a b : Z) :
  (forall x y, comp x y = (key x <? key y)) -> key b < key a ->
  std_sort comp [a; b] = [b; a].
Proof.
  intros Hc Hlt.
  pose proof (std_sort_perm comp [a; b]) as Hp. symmetry in Hp.
  apply Permutation_length_2_inv in Hp as [E|E]; [|exact E].
  pose proof (std_sort_sorted comp key [a; b] Hc 0%nat 1%nat a b) as Hs.
  rewrite E in Hs. specialize (Hs ltac:(lia) eq_refl eq_refl). lia.
Qed.

(** The leaf fitter on two sample sections, whatever [std::sort] does with
    equivalent elements. *)
Lemma fitSegments_cornerStroke `{StdSort} :
  fitSegments Samples.cornerStroke 0 0 3 3 = [[1; 4]].
Proof.
  unfold fitSegments. simpl orb. cbv iota.
  change (segments (default (mkScan O [] []) (frameScan Samples.cornerStroke 0 0 3 3)))
    with [[1; 4]].
  cbv beta iota zeta. simpl Nat.eqb. cbv iota.
  unfold estimateIntersection, pxsCanvas.
  change (section Samples.cornerStroke (0 + 1) (0 + 1) (3 - 2) (3 - 2)) with [4].
  rewrite std_sort_singleton. reflexivity.
Qed.

Lemma fitSegments_sideDot `{StdSort} :
  fitSegments Samples.sideDot 0 0 3 4 = [[4; 5]].
Proof.
  unfold fitSegments. simpl orb. cbv iota.
  change (segments (default (mkScan O [] []) (frameScan Samples.sideDot 0 0 3 4)))
    with [[4; 6]].
  cbv beta iota zeta. simpl Nat.eqb. cbv iota.
  unfold estimateIntersection, pxsCanvas.
  change (section Samples.sideDot (0 + 1) (0 + 1) (3 - 2) (4 - 2)) with [5; 6].
  rewrite (std_sort_pair _ (manhattan Samples.sideDot (pxCenterOf Samples.sideDot 0 0 3 4)));
    [reflexivity|reflexivity|reflexivity].
Qed.

(** A section that is not empty and meets the leaf test goes to the leaf
    fitter. *)
Lemma recurse_leaf {A : Type} (leaf : BitImage -> Z -> Z -> Z -> Z -> A)
    (merge : A -> A -> A) (none : A) (fuel : nat) (image : BitImage)
    (r0 c0 rows cols iter mss mr : Z) :
  Tracer.isEmpty image (section image r0 c0 rows cols) = false ->
  Tracer.isLeaf rows cols iter mss mr = true ->
  Tracer.recurse leaf merge none (S fuel) image r0 c0 rows cols iter mss mr
  = Some (leaf image r0 c0 rows cols).
Proof. intros He Hl. cbn [Tracer.recurse]. rewrite He, Hl. reflexivity. Qed.

(** The entry point on an image of one leaf section that the thinner leaves
    as it is. *)
Lemma entry_one_leaf `{StdSort} (image : BitImage) :
  (Entry.to_size_t (m_rows image) <? 3) = false ->
  (Entry.to_size_t (m_cols image) <? 3) = false ->
  Thinner.thinImage image = image ->
  Tracer.isEmpty image (section image 0 0 (m_rows image) (m_cols image)) = false ->
  Tracer.isLeaf (m_rows image) (m_cols image) 0 3 Tracer.INT32_MAX = true ->
  Entry.polylines (Entry.fitPolylines image 3 0 true)
  = map (map (coords image)) (fitSegments image 0 0 (m_rows image) (m_cols image)).
Proof.
  intros Hr Hc Hthin He Hl. unfold Entry.fitPolylines. rewrite Hr, Hc. simpl orb. cbv iota.
  cbv zeta. rewrite Hthin. cbn [Entry.polylines]. unfold Tracer.fitPolylines, Tracer.depthBound.
  change (Entry.to_int32 (3 `max` 3)) with 3. simpl negb. cbv iota.
  rewrite recurse_leaf by assumption. reflexivity.
Qed.

End LeafFacts.

Module LeafClaims.
Import Leaf LeafFacts.

(** C10 (refuted): whenever the scan of the frame runs, that is on every
    section whose frame has both on and off pixels, and on any other section
    alike had the loop been entered, it ends with a pass in which [pxOn] and
    [pxOff] are both the end of the frame vector, and the position read for
    [pxMid] in that pass is the length of the vector, one past its last
    element: not every read of the scan is within bounds. *)
Theorem C10_scan_reads_past_end (image : BitImage) (r0 c0 rows cols : Z) :
  exists st reads,
    frameScan image r0 c0 rows cols = Some st /\
    midReads st = reads ++ [length (rotatedFrame image r0 c0 rows cols)] /\
    ~ Forall (fun pos => (pos < length (rotatedFrame image r0 c0 rows cols))%nat)
             (midReads st).
Proof.
  destruct (frameScan_returns image r0 c0 rows cols) as (st & Hst & reads & Hreads).
  exists st, reads. split; [exact Hst|]. split; [exact Hreads|].
  rewrite Hreads. intros Hall. apply Forall_app in Hall as [_ Hall].
  apply Forall_inv in Hall. lia.
Qed.

(** C10 at a concrete section: the positions read on the 3x3 cross. *)
Lemma C10_cross_reads :
  midReads <$> frameScan Samples.cross 0 0 3 3 = Some [1; 3; 5; 7; 8]%nat /\
  length (rotatedFrame Samples.cross 0 0 3 3) = 8%nat.
Proof. split; reflexivity. Qed.

(** C4 (refuted): the rotated frame of the section below has two maximal runs
    of on-pixels, at positions 1 and 6, and the scan, which starts at the
    position the first off-pixel had before the rotation, emits one segment
    only, for the run at position 6: the run at position 1, whose midpoint is
    the pixel (1, 2), is skipped.  The entry point, called on this image,
    returns that one segment. *)
Theorem C4_scan_skips_run `{StdSort} :
  rotatedFrame Samples.cornerStroke 0 0 3 3 = [2; 5; 8; 7; 6; 3; 0; 1] /\
  maximalOnRuns Samples.cornerStroke (rotatedFrame Samples.cornerStroke 0 0 3 3)
    = [(1, 1); (6, 2)]%nat /\
  map (runMidpoint (rotatedFrame Samples.cornerStroke 0 0 3 3))
      (maximalOnRuns Samples.cornerStroke (rotatedFrame Samples.cornerStroke 0 0 3 3))
    = [5; 1] /\
  segments <$> frameScan Samples.cornerStroke 0 0 3 3 = Some [[1; 4]] /\
  fitSegments Samples.cornerStroke 0 0 3 3 = [[1; 4]] /\
  Entry.polylines (Entry.fitPolylines Samples.cornerStroke 3 0 true) = [[(0, 1); (1, 1)]].
Proof.
  split; [reflexivity|]. split; [reflexivity|]. split; [reflexivity|].
  split; [reflexivity|]. split; [apply fitSegments_cornerStroke|].
  rewrite entry_one_leaf by reflexivity.
  cbn [m_rows m_cols Samples.cornerStroke]. rewrite fitSegments_cornerStroke. reflexivity.
Qed.

(** C3 (refuted): on the section below the scan produces exactly one
    segment, from the frame pixel (1, 0) to the centre (1, 2), and the
    intersection estimate is applied all the same: the segment returned ends
    at (1, 1).  The entry point, called on this image, returns it. *)
Theorem C3_estimate_on_one_segment `{StdSort} :
  segments <$> frameScan Samples.sideDot 0 0 3 4 = Some [[4; 6]] /\
  pxCenterOf Samples.sideDot 0 0 3 4 = 6 /\
  fitSegments Samples.sideDot 0 0 3 4 = [[4; 5]] /\
  Entry.polylines (Entry.fitPolylines Samples.sideDot 3 0 true) = [[(1, 0); (1, 1)]].
Proof.
  split; [reflexivity|]. split; [reflexivity|].
  split; [apply fitSegments_sideDot|].
  rewrite entry_one_leaf by reflexivity.
  cbn [m_rows m_cols Samples.sideDot]. rewrite fitSegments_sideDot. reflexivity.
Qed.

End LeafClaims.

(** * The polyline simplifier *)

Module SimplifyFacts.
Import Merger MergerFacts FittingUtils.

Lemma iter_swap_same {A : Type} (l : list A) (i : nat) : iter_swap l i i = l.
Proof.
  unfold iter_swap. destruct (l !! i) as [x|] eqn:E; [|reflexivity].
  rewrite (list_insert_id l i x E). apply list_insert_id, E.
Qed.

Lemma iter_swap_comm {A : Type} (l : list A) (i j : nat) :
  iter_swap l i j = iter_swap l j i.
Proof.
  destruct (decide (i = j)) as [->|Hne]; [reflexivity|].
  unfold iter_swap. destruct (l !! i), (l !! j); try reflexivity.
  apply list_insert_insert_ne. auto.
Qed.

Lemma iter_swap_app {A : Type} (K M T : list A) (d x : A) :
  iter_swap (K ++ d :: M ++ x :: T) (length K) (length K + S (length M))
  = K ++ x :: M ++ d :: T.
Proof.
  unfold iter_swap.
  rewrite (list_lookup_middle K (M ++ x :: T) d (length K) eq_refl).
  assert (Hx : (K ++ d :: M ++ x :: T) !! (length K + S (length M))%nat = Some x).
  { rewrite lookup_app_r by lia.
    replace (length K + S (length M) - length K)%nat with (S (length M)) by lia.
    simpl. apply list_lookup_middle. reflexivity. }
  rewrite Hx.
  rewrite (insert_app_r_alt K _ (length K)) by lia.
  rewrite Nat.sub_diag. simpl.
  rewrite (insert_app_r_alt K _ (length K + S (length M))) by lia.
  replace (length K + S (length M) - length K)%nat with (S (length M)) by lia.
  simpl. f_equal. f_equal.
  rewrite (insert_app_r_alt M _ (length M)) by lia.
  rewrite Nat.sub_diag. reflexivity.
Qed.

Section Facts.
Context {TFloat : Type} `{FloatOps TFloat} {Point : Type}.
Variable point_eqb : Point -> Point -> bool.
Variable get2DCoords : Point -> TFloat * TFloat.
Variable epsilon : TFloat.

Local Abbreviation simplify_fuel := (simplifyPolyline_fuel point_eqb get2DCoords epsilon).

Lemma max_element_from_bounds (comp : Point -> Point -> bool) (rest : list Point) :
  forall largestIdx largest idx, (largestIdx < idx)%nat ->
    (largestIdx <= max_element_from comp largestIdx largest idx rest < idx + length rest)%nat.
Proof.
  induction rest as [|x t IH]; intros li lg idx Hlt; simpl; [lia|].
  destruct (comp lg x).
  - specialize (IH idx x (S idx) ltac:(lia)). lia.
  - specialize (IH li lg (S idx) ltac:(lia)). lia.
Qed.

Lemma max_element_bounds (comp : Point -> Point -> bool) (pos : nat) (range : list Point) :
  range <> [] -> (pos <= max_element comp pos range < pos + length range)%nat.
Proof.
  destruct range as [|x t]; [congruence|]. intros _. simpl.
  pose proof (max_element_from_bounds comp t pos x (S pos) ltac:(lia)). lia.
Qed.

(** The compaction loop moves the kept part [R] of the right half next to
    the kept part [K] of the left half; the discarded points [D] of the left
    half end up behind, in some order. *)
Lemma compact_spec (count : nat) :
  forall K D R T : list Point, length R = count ->
    exists D', D' ≡ₚ D /\
      compact (K ++ D ++ R ++ T) (length K) (length K + length D) count
      = (K ++ R ++ D' ++ T, (length K + count)%nat).
Proof.
  induction count as [|count IH]; intros K D R T HR.
  - destruct R; [|discriminate]. exists D. split; [reflexivity|].
    simpl. rewrite Nat.add_0_r. reflexivity.
  - destruct R as [|x R]; [discriminate|]. injection HR as HR.
    cbn [compact]. destruct D as [|d D].
    + rewrite Nat.add_0_r, iter_swap_same.
      destruct (IH (K ++ [x]) [] R T HR) as (D' & HD' & Heq).
      exists D'. split; [exact HD'|].
      rewrite length_app in Heq. simpl in Heq. rewrite Nat.add_0_r in Heq.
      simpl. rewrite <- !app_assoc in Heq. simpl in Heq.
      replace (S (length K)) with (length K + 1)%nat by lia.
      rewrite Heq. f_equal. lia.
    + simpl length.
      replace ((K ++ (d :: D) ++ (x :: R) ++ T)) with (K ++ d :: D ++ x :: R ++ T)
        by (simpl; reflexivity).
      rewrite iter_swap_app.
      destruct (IH (K ++ [x]) (D ++ [d]) R T HR) as (D' & HD' & Heq).
      exists D'. split.
      * rewrite HD'. symmetry. apply Permutation_cons_append.
      * rewrite !length_app in Heq. simpl in Heq.
        rewrite <- !app_assoc in Heq. simpl in Heq.
        replace (S (length K)) with (length K + 1)%nat by lia.
        replace (S (length K + S (length D))) with (length K + 1 + (length D + 1))%nat by lia.
        rewrite Heq. f_equal. lia.
Qed.

Lemma Kept_all (l : list Point) : Kept l l (length l).
Proof.
  unfold Kept. rewrite take_ge by lia. repeat split; auto; lia.
Qed.

Lemma Kept_ends (l : list Point) :
  (3 <= length l)%nat -> Kept l (iter_swap l (length l - 1) 1) 2.
Proof.
  intros Hn. destruct l as [|a [|x l0]]; simpl in Hn; try lia.
  destruct (exists_last (l := l0)) as (M & b & ->); [destruct l0; simpl in *; [lia|congruence]|].
  assert (Hswap : iter_swap (a :: x :: M ++ [b]) (length (a :: x :: M ++ [b]) - 1) 1
                  = a :: b :: M ++ [x]).
  { rewrite iter_swap_comm. pose proof (iter_swap_app [a] M [] x b) as E.
    simpl in E. rewrite <- E. f_equal. simpl. rewrite length_app. simpl. lia. }
  unfold Kept. rewrite Hswap. split; [|split; [|split; [|split]]].
  - simpl. rewrite !length_app. reflexivity.
  - rewrite <- Hswap. apply iter_swap_Permutation.
  - simpl. lia.
  - simpl. constructor. apply sublist_cons. apply sublist_inserts_l. reflexivity.
  - intros _. split; [lia|]. split; [reflexivity|].
    change (a :: x :: M ++ [b]) with ((a :: x :: M) ++ [b]). rewrite last_snoc.
    reflexivity.
Qed.


Lemma last_app_nonempty (l1 l2 : list Point) : l2 <> [] -> last (l1 ++ l2) = last l2.
Proof.
  intros Hne. rewrite last_app. destruct (last l2) eqn:E; [reflexivity|].
  apply last_None in E. contradiction.
Qed.

Lemma head_app_nonempty (l1 l2 : list Point) : l1 <> [] -> head (l1 ++ l2) = head l1.
Proof. destruct l1; [congruence|reflexivity]. Qed.

Lemma furthest_bounds (a b : Point) (l : list Point) :
  (3 <= length l)%nat ->
  (1 <= max_element (closer get2DCoords a b) 1 (take (length l - 2) (drop 1 l))
   <= length l - 2)%nat.
Proof.
  intros Hn.
  pose proof (max_element_bounds (closer get2DCoords a b) 1
                (take (length l - 2) (drop 1 l))) as Hb.
  assert (Hlen : length (take (length l - 2) (drop 1 l)) = (length l - 2)%nat).
  { rewrite length_take, length_drop. lia. }
  rewrite Hlen in Hb. specialize (Hb ltac:(intros E; rewrite E in Hlen; simpl in Hlen; lia)).
  lia.
Qed.

(** The recursive case: the two halves, each left in order by its own call,
    and the compaction that joins what they keep. *)
Lemma Kept_join (l : list Point) (f : nat) (v : Point) (rightPart leftPart : list Point)
    (kr kl : nat) :
  (1 <= f)%nat -> (f <= length l - 2)%nat -> l !! f = Some v ->
  Kept (drop f l) rightPart kr ->
  Kept (take (S f) (take f l ++ rightPart)) leftPart kl ->
  let r := compact (leftPart ++ drop (S f) (take f l ++ rightPart)) kl (S f)
                   (f + kr - S f) in
  Kept l (fst r) (snd r).
Proof.
  intros Hf1 Hf2 Ev Hright Hleft r.
  pose proof (lookup_lt_Some _ _ _ Ev) as Hflt.
  pose proof (take_drop_middle l f v Ev) as Hl.
  assert (HlenA : length (take f l) = f) by (apply length_take_le; lia).
  rewrite (drop_S l v f Ev) in Hright.
  set (A := take f l) in *. set (B := drop (S f) l) in *.
  assert (HlenB : (1 <= length B)%nat).
  { subst B. rewrite length_drop. lia. }
  destruct Hright as (Hlr & Hpr & Hkr & Hsr & Hendr).
  destruct (Hendr ltac:(simpl; lia)) as (Hkr2 & Hhr & Hlastr).
  destruct rightPart as [|v' R']; [discriminate|].
  simpl in Hhr. injection Hhr as ->.
  assert (Hl1 : A ++ v :: R' = (A ++ [v]) ++ R') by (rewrite <- app_assoc; reflexivity).
  subst r. rewrite Hl1 in *.
  rewrite (take_app_length' (A ++ [v]) R' (S f)) in Hleft
    by (rewrite length_app; simpl; lia).
  rewrite (drop_app_length' (A ++ [v]) R' (S f)) by (rewrite length_app; simpl; lia).
  destruct Hleft as (Hll & Hpl & Hkl & Hsl & Hendl).
  rewrite length_app in Hll, Hkl, Hendl. simpl in Hll, Hkl, Hendl.
  destruct (Hendl ltac:(lia)) as (Hkl2 & Hhl & Hlastl).
  rewrite last_snoc in Hlastl.
  set (K := take kl leftPart) in *. set (D := drop kl leftPart).
  set (R := take (kr - 1) R'). set (T := drop (kr - 1) R').
  simpl in Hlr, Hkr.
  assert (HlenK : length K = kl) by (subst K; apply length_take_le; lia).
  assert (HlenKD : (length K + length D)%nat = S f).
  { subst K D. rewrite <- length_app, take_drop. lia. }
  assert (HlenR : length R = (kr - 1)%nat) by (subst R; apply length_take_le; lia).
  destruct (compact_spec (kr - 1) K D R T HlenR) as (D' & HD' & Hc).
  assert (Heq : compact (leftPart ++ R') kl (S f) (f + kr - S f)
                = compact (K ++ D ++ R ++ T) (length K) (length K + length D) (kr - 1)).
  { f_equal; try lia. subst K D R T. rewrite app_assoc, !take_drop. reflexivity. }
  rewrite Heq, Hc. cbn [fst snd].
  assert (Htake : take kr (v :: R') = v :: R).
  { subst R. destruct kr as [|kr']; [lia|]. simpl. rewrite Nat.sub_0_r. reflexivity. }
  rewrite Htake in Hsr, Hlastr.
  assert (HRB : R `sublist_of` B) by (apply (sublist_app_inv_l [v]); exact Hsr).
  assert (HKne : K <> []) by (intros E; rewrite E in HlenK; simpl in HlenK; lia).
  assert (HRne : R <> []) by (intros E; rewrite E in HlenR; simpl in HlenR; lia).
  assert (HAne : A <> []) by (intros E; rewrite E in HlenA; simpl in HlenA; lia).
  assert (HlastR : last R = last (v :: B)).
  { rewrite <- Hlastr. symmetry. apply (last_app_nonempty [v] R HRne). }
  unfold Kept. split; [|split; [|split; [|split]]].
  - rewrite !length_app. rewrite (Permutation_length HD').
    assert (length R + length T = length R')%nat
      by (subst R T; rewrite <- length_app, take_drop; reflexivity).
    rewrite <- Hl, length_app. simpl. lia.
  - rewrite HD'. rewrite (Permutation_app_swap_app R D T).
    replace (K ++ D ++ R ++ T) with ((K ++ D) ++ (R ++ T)) by (rewrite <- app_assoc; reflexivity).
    subst K D R T. rewrite !take_drop. rewrite Hpl.
    rewrite <- Hl. rewrite <- app_assoc. simpl. apply Permutation_app_head.
    exact Hpr.
  - rewrite <- Hl, length_app. simpl. lia.
  - replace (K ++ R ++ D' ++ T) with ((K ++ R) ++ (D' ++ T))
      by (rewrite <- app_assoc; reflexivity).
    rewrite take_app_length' by (rewrite length_app; lia).
    rewrite <- Hl. replace (A ++ v :: B) with ((A ++ [v]) ++ B)
      by (rewrite <- app_assoc; reflexivity).
    apply sublist_app; assumption.
  - intros _. split; [lia|]. split.
    + rewrite head_app_nonempty by exact HKne.
      transitivity (head leftPart).
      { subst K. destruct leftPart, kl; simpl in *; try lia; reflexivity. }
      rewrite Hhl, <- Hl. rewrite !head_app_nonempty by exact HAne. reflexivity.
    + replace (K ++ R ++ D' ++ T) with ((K ++ R) ++ (D' ++ T))
        by (rewrite <- app_assoc; reflexivity).
      rewrite take_app_length' by (rewrite length_app; lia).
      rewrite last_app_nonempty by exact HRne.
      rewrite HlastR, <- Hl. symmetry. apply last_app_nonempty. discriminate.
Qed.

Lemma simplify_Kept (fuel : nat) :
  forall l l' k, simplify_fuel fuel l = Some (l', k) -> Kept l l' k.
Proof.
  induction fuel as [|fuel IH]; intros l l' k Hrun; [discriminate|].
  cbn [simplifyPolyline_fuel] in Hrun.
  destruct (Z.ltb_spec (Z.of_nat (length l) - 1) 2) as [Hshort|Hlong].
  { injection Hrun as <- <-. apply Kept_all. }
  destruct (head l) as [a|]; [|injection Hrun as <- <-; apply Kept_all].
  destruct (last l) as [b|]; [|injection Hrun as <- <-; apply Kept_all].
  destruct (point_eqb a b || f_le epsilon f_zero);
    [injection Hrun as <- <-; apply Kept_all|].
  pose proof (furthest_bounds a b l ltac:(lia)) as Hf.
  set (f := max_element (closer get2DCoords a b) 1 (take (length l - 2) (drop 1 l))) in *.
  destruct (l !! f) as [v|] eqn:Ev; [|discriminate].
  destruct (f_lt _ _); [|injection Hrun as <- <-; apply Kept_ends; lia].
  destruct (simplify_fuel fuel (drop f l)) as [[rightPart kr]|] eqn:Er; [|discriminate].
  destruct (simplify_fuel fuel (take (S f) (take f l ++ rightPart)))
    as [[leftPart kl]|] eqn:El; [|discriminate].
  injection Hrun as Hrun. apply IH in Er, El.
  pose proof (Kept_join l f v rightPart leftPart kr kl
                ltac:(lia) ltac:(lia) Ev Er El) as HK.
  cbv zeta in HK. rewrite Hrun in HK. exact HK.
Qed.

Lemma simplify_total (fuel : nat) :
  forall l, (length l < fuel)%nat -> exists r, simplify_fuel fuel l = Some r.
Proof.
  induction fuel as [|fuel IH]; intros l Hlt; [lia|].
  cbn [simplifyPolyline_fuel].
  destruct (Z.ltb_spec (Z.of_nat (length l) - 1) 2) as [Hshort|Hlong]; [eauto|].
  destruct (head l) as [a|]; [|eauto].
  destruct (last l) as [b|]; [|eauto].
  destruct (point_eqb a b || f_le epsilon f_zero); [eauto|].
  pose proof (furthest_bounds a b l ltac:(lia)) as Hf.
  set (f := max_element (closer get2DCoords a b) 1 (take (length l - 2) (drop 1 l))) in *.
  destruct (lookup_lt_is_Some_2 l f ltac:(lia)) as [v Ev]. rewrite Ev.
  destruct (f_lt _ _); [|eauto].
  destruct (IH (drop f l)) as [[rightPart kr] Er].
  { rewrite length_drop. lia. }
  rewrite Er.
  destruct (IH (take (S f) (take f l ++ rightPart))) as [[leftPart kl] El].
  { rewrite length_take. lia. }
  rewrite El. eauto.
Qed.

End Facts.
End SimplifyFacts.

Module SimplifyClaims.
Import FittingUtils SimplifyFacts DoubleArith.

(** C9: for every range of points and every epsilon, simplifyPolyline
    permutes the range and returns an iterator inside it; the points ahead of
    the iterator are a subsequence of the input, in their original order;
    when the range has two points or more they begin with its first point and
    end with its last (for every epsilon, positive or not); and when the
    range has fewer than three points, or its first and last points are
    equal, or epsilon <= 0, the range is untouched and the iterator returned
    is its end. *)
Theorem C9_simplify_keeps {TFloat : Type} `{FloatOps TFloat} {Point : Type}
    (point_eqb : Point -> Point -> bool) (get2DCoords : Point -> TFloat * TFloat)
    (epsilon : TFloat) (l : list Point) :
  let r := simplifyPolyline point_eqb get2DCoords epsilon l in
  Permutation (fst r) l /\ (snd r <= length l)%nat /\
  take (snd r) (fst r) `sublist_of` l /\
  ((2 <= length l)%nat ->
   head (take (snd r) (fst r)) = head l /\ last (take (snd r) (fst r)) = last l) /\
  ((length l < 3)%nat \/
   (exists a b, head l = Some a /\ last l = Some b /\ point_eqb a b = true) \/
   f_le epsilon f_zero = true ->
   r = (l, length l)).
Proof.
  intros r. subst r. unfold simplifyPolyline.
  destruct (simplify_total point_eqb get2DCoords epsilon (S (length l)) l ltac:(lia))
    as [[l' k] Hrun].
  pose proof (simplify_Kept point_eqb get2DCoords epsilon _ _ _ _ Hrun)
    as (Hlen & Hperm & Hk & Hsub & Hends).
  rewrite Hrun. simpl default. unfold id. cbn [fst snd].
  split; [exact Hperm|]. split; [exact Hk|]. split; [exact Hsub|]. split.
  - intros H2. destruct (Hends H2) as (Hk2 & Hhead & Hlast). split; [|exact Hlast].
    rewrite <- Hhead. destruct l', k; simpl in *; try lia; reflexivity.
  - intros Hbase. cbn [simplifyPolyline_fuel] in Hrun.
    destruct (Z.ltb_spec (Z.of_nat (length l) - 1) 2) as [Hshort|Hlong];
      [congruence|].
    destruct (head l) as [a|]; [|congruence].
    destruct (last l) as [b|]; [|congruence].
    destruct Hbase as [Hn|[(a' & b' & [= <-] & [= <-] & Heq)|Heps]]; [lia| |].
    + rewrite Heq in Hrun. simpl in Hrun. congruence.
    + rewrite Heps, orb_true_r in Hrun. congruence.
Qed.

(** The zig-zag of the specification's fifth scenario, in binary64. *)
Example simplify_zigzag :
  let eqb := fun a b : PrimFloat.float * PrimFloat.float =>
               PrimFloat.eqb (fst a) (fst b) && PrimFloat.eqb (snd a) (snd b) in
  simplifyPolyline eqb (fun p => p) Samples.fifty Samples.zigzag
  = ([Samples.pt 0 0; Samples.pt 4 0; Samples.pt 2 0; Samples.pt 3 10; Samples.pt 1 10],
     2%nat).
Proof. vm_compute. reflexivity. Qed.

End SimplifyClaims.

(** * More on the bit image *)

Module ImageExtras.

(** X1: [coords] and [find] are inverse of each other on an image with at
    least one column, for offsets below 2^31: [coords (find r c) = (r, c)]
    for a non-negative row and a column of the image, and [find] of the
    coordinates of an offset gives the offset back, its column inside the
    image and its row inside the image when the offset is below
    rows * cols. *)
Theorem coords_find_roundtrip (img : BitImage) :
  0 < m_cols img ->
  (forall r c, 0 <= r -> 0 <= c < m_cols img -> m_cols img * r + c < 2 ^ 31 ->
     coords img (find img r c) = (r, c)) /\
  (forall px, 0 <= px < 2 ^ 31 ->
     find img (fst (coords img px)) (snd (coords img px)) = px /\
     0 <= fst (coords img px) /\
     0 <= snd (coords img px) < m_cols img /\
     (px < m_rows img * m_cols img -> fst (coords img px) < m_rows img)).
Proof.
  intros Hcols. split.
  - intros r c Hr Hc _. apply coords_find; assumption.
  - intros px [Hpx _]. unfold coords, find. cbn [fst snd].
    rewrite Z.quot_div_nonneg, Z.rem_mod_nonneg by lia.
    pose proof (Z.div_mod px (m_cols img) ltac:(lia)) as Hdm.
    pose proof (Z.mod_pos_bound px (m_cols img) Hcols) as Hmod.
    pose proof (Z.div_pos px (m_cols img) Hpx Hcols) as Hdiv.
    repeat split; try lia.
    intros Hlt. apply Z.div_lt_upper_bound; lia.
Qed.

Lemma coords_find_roundtrip_witness :
  coords Samples.blob (find Samples.blob 3 4) = (3, 4) /\
  find Samples.blob (fst (coords Samples.blob 19)) (snd (coords Samples.blob 19)) = 19.
Proof.
  assert (H : 0 < m_cols Samples.blob) by reflexivity.
  split.
  - apply (proj1 (coords_find_roundtrip Samples.blob H)); simpl; lia.
  - apply (proj2 (coords_find_roundtrip Samples.blob H) 19). lia.
Defined.

Lemma lookup_map {A B : Type} (f : A -> B) (l : list A) (i : nat) :
  map f l !! i = f <$> (l !! i).
Proof. revert i. induction l as [|a l IH]; intros [|i]; simpl; auto. Qed.

Lemma flat_map_lookup_chunk {A B : Type} (f : A -> list B) (n : nat) (l : list A) :
  (forall y, length (f y) = n) ->
  forall (i j : nat) x z, l !! i = Some x -> f x !! j = Some z ->
    flat_map f l !! (i * n + j)%nat = Some z.
Proof.
  intros Hn. induction l as [|a l IH]; intros i j x z Hi Hj; [destruct i; discriminate|].
  pose proof (lookup_lt_Some _ _ _ Hj) as Hjlt. rewrite Hn in Hjlt.
  destruct i as [|i]; simpl in *.
  - injection Hi as ->. apply lookup_app_l_Some. exact Hj.
  - rewrite lookup_app_r by (rewrite Hn; lia). rewrite Hn.
    replace (n + i * n + j - n)%nat with (i * n + j)%nat by lia.
    apply (IH i j x z); assumption.
Qed.

Lemma section_length (img : BitImage) (r0 c0 rows cols : Z) :
  length (section img r0 c0 rows cols) = (Z.to_nat rows * Z.to_nat cols)%nat.
Proof.
  unfold section. rewrite (flat_map_constant_length (c := Z.to_nat cols)).
  - rewrite length_seqZ. reflexivity.
  - intros r _. rewrite length_map, length_seqZ. reflexivity.
Qed.

Lemma section_lookup (img : BitImage) (r0 c0 rows cols i j : Z) :
  0 <= i < rows -> 0 <= j < cols ->
  section img r0 c0 rows cols !! Z.to_nat (i * cols + j) = Some (find img (r0 + i) (c0 + j)).
Proof.
  intros Hi Hj. unfold section, find.
  replace (Z.to_nat (i * cols + j)) with (Z.to_nat i * Z.to_nat cols + Z.to_nat j)%nat by nia.
  apply (flat_map_lookup_chunk _ (Z.to_nat cols) _
           ltac:(intros y; rewrite length_map, length_seqZ; reflexivity)
           _ _ (r0 + i)).
  - rewrite lookup_seqZ. split; lia.
  - rewrite lookup_map, (lookup_seqZ_lt c0 cols (Z.to_nat j)) by lia.
    simpl. f_equal. lia.
Qed.

(** X2: a call of [section] that returns (the product of its extents is not
    negative) gives rows * cols pixels when both extents are positive, and
    none when an extent is zero or both are negative (nothing is retrieved
    backwards); its pixels are those of the rectangle; and they come in
    row-major order: the pixel at position i * cols + j is the one of row
    r0 + i and column c0 + j. *)
Theorem section_row_major (img : BitImage) (r0 c0 rows cols : Z) :
  section_returns rows cols ->
  length (section img r0 c0 rows cols) = (Z.to_nat rows * Z.to_nat cols)%nat /\
  (rows <= 0 \/ cols <= 0 -> section img r0 c0 rows cols = []) /\
  (forall px, In px (section img r0 c0 rows cols) <->
     exists r c, r0 <= r < r0 + rows /\ c0 <= c < c0 + cols /\ px = find img r c) /\
  (forall i j, 0 <= i < rows -> 0 <= j < cols ->
     section img r0 c0 rows cols !! Z.to_nat (i * cols + j)
     = Some (find img (r0 + i) (c0 + j))).
Proof.
  intros _. split; [apply section_length|]. split; [|split].
  - intros Hext. apply length_zero_iff_nil. rewrite section_length. lia.
  - apply in_section.
  - apply section_lookup.
Qed.

Lemma section_row_major_witness :
  length (section Samples.blob 1 1 3 3) = (Z.to_nat 3 * Z.to_nat 3)%nat /\
  section Samples.blob 1 1 3 3 !! Z.to_nat (1 * 3 + 2) = Some (find Samples.blob (1 + 1) (1 + 2)).
Proof.
  destruct (section_row_major Samples.blob 1 1 3 3) as (Hlen & _ & _ & Hat).
  - unfold section_returns. lia.
  - split; [exact Hlen|]. apply Hat; lia.
Defined.

(** X3: for a caller's buffer of rows * cols pixels, fewer than 2^31, the
    constructor yields a well-formed image of 0/1 bytes with the dimensions
    given, whose pixel number i is the predicate applied to the caller's
    pixel number i. *)
Theorem BitImage_from_pixels {TP : Type} (imageData : list TP) (isPixelOn : TP -> bool)
    (rows cols : Z) :
  0 <= rows -> 0 <= cols -> rows * cols < 2 ^ 31 ->
  rows * cols <= Z.of_nat (length imageData) ->
  let img := BitImage_from imageData isPixelOn rows cols in
  wf_image img /\ binary img /\ m_rows img = rows /\ m_cols img = cols /\
  forall i : nat, Z.of_nat i < rows * cols ->
    exists p, imageData !! i = Some p /\ bits img !! i = Some (b2i (isPixelOn p)).
Proof.
  intros Hr Hc _ Hdata img. split; [apply BitImage_from_wf; assumption|].
  split; [apply BitImage_from_binary|]. split; [reflexivity|]. split; [reflexivity|].
  intros i Hi. subst img. unfold BitImage_from. cbn [bits].
  destruct (lookup_lt_is_Some_2 imageData i ltac:(lia)) as [p Hp].
  exists p. split; [exact Hp|].
  rewrite lookup_take_lt by lia.
  apply lookup_app_l_Some. rewrite lookup_map, Hp. reflexivity.
Qed.

Lemma BitImage_from_pixels_witness :
  exists p, [true; false; true; true; false; true] !! 2%nat = Some p /\
    bits (BitImage_from [true; false; true; true; false; true] (fun b : bool => b) 2 3)
      !! 2%nat = Some (b2i p).
Proof.
  pose proof (BitImage_from_pixels [true; false; true; true; false; true] (fun b : bool => b)
                2 3 ltac:(lia) ltac:(lia) ltac:(lia) ltac:(simpl; lia))
    as (_ & _ & _ & _ & Hpx).
  apply (Hpx 2%nat). lia.
Defined.

End ImageExtras.

(** * More on the thinner *)

Module ThinnerExtras.
Import Thinner ThinnerFacts.

(** The image returned is the image of a state the loop reaches. *)
Lemma loop_reach (img0 : BitImage) (fuel : nat) :
  forall k s r, Reach img0 k s -> loop fuel s = Some r ->
    exists k' s', Reach img0 k' s' /\ r = image s'.
Proof.
  induction fuel as [|fuel IH]; intros k s r HR Hl; cbn [loop] in Hl;
    destruct (difference s) eqn:Hd; try discriminate.
  - injection Hl as <-. eauto.
  - apply (IH (S k) (body s) r); [constructor; assumption|exact Hl].
  - injection Hl as <-. eauto.
Qed.

Lemma thinImage_reach (img0 : BitImage) :
  exists k s, Reach img0 k s /\ thinImage img0 = image s.
Proof.
  apply (loop_reach img0 (S (countOn img0)) O (init img0));
    [constructor|apply thinImage_total].
Qed.

Lemma assign_length (img : BitImage) (px v : Z) :
  length (bits (assign img px v)) = length (bits img).
Proof. unfold assign. destruct (px <? 0); [reflexivity|]. apply length_insert. Qed.

Lemma clearAll_length (fl : list Z) (img : BitImage) :
  length (bits (clearAll fl img)) = length (bits img).
Proof.
  unfold clearAll. revert img. induction fl as [|q fl IH]; intros img; simpl; [reflexivity|].
  rewrite IH. apply assign_length.
Qed.

(** Along a run the vector keeps its length, and a pixel either keeps its
    byte or is an interior pixel that was cleared. *)
Lemma Reach_frame (img0 : BitImage) (k : nat) (s : State) :
  Reach img0 k s ->
  length (bits (image s)) = length (bits img0) /\
  forall px, deref (image s) px = deref img0 px \/
             (deref (image s) px = 0 /\ interior img0 px /\ deref img0 px <> 0).
Proof.
  induction 1 as [|k s HR [IHlen IHpx] Hd]; [simpl; auto|].
  destruct (Reach_inv img0 k s HR) as (_ & _ & _ & _ & Hsub & _ & _).
  unfold body. cbn [image]. split.
  - rewrite clearAll_length. exact IHlen.
  - intros px. rewrite deref_clearAll.
    destruct (in_dec Z.eq_dec px (flaggedPixels s)) as [Hin|Hnin]; [|apply IHpx].
    apply in_flaggedPixels in Hin as (Hin & Hon & _).
    destruct (IHpx px) as [Heq|(H0 & _)]; [|contradiction].
    right. split; [reflexivity|]. split; [apply Hsub, Hin|congruence].
Qed.

Lemma thinImage_dims (img0 : BitImage) :
  m_rows (thinImage img0) = m_rows img0 /\ m_cols (thinImage img0) = m_cols img0.
Proof.
  destruct (thinImage_reach img0) as (k & s & HR & ->).
  destruct (Reach_inv img0 k s HR) as (_ & Hrows & Hcols & _). auto.
Qed.

(** X4: thinning keeps the dimensions of the image and the length of its
    vector, keeps a well-formed image well-formed and 0/1 bytes 0/1, and
    changes interior on-pixels only: every other pixel, the border in
    particular, keeps its byte, and a byte that changes becomes 0. *)
Theorem thinImage_interior_only (img0 : BitImage) :
  m_rows (thinImage img0) = m_rows img0 /\
  m_cols (thinImage img0) = m_cols img0 /\
  length (bits (thinImage img0)) = length (bits img0) /\
  (wf_image img0 -> wf_image (thinImage img0)) /\
  (binary img0 -> binary (thinImage img0)) /\
  (forall px, deref (thinImage img0) px = deref img0 px \/
              (deref (thinImage img0) px = 0 /\ interior img0 px /\ deref img0 px <> 0)) /\
  (forall px, ~ interior img0 px -> deref (thinImage img0) px = deref img0 px).
Proof.
  destruct (thinImage_reach img0) as (k & s & HR & ->).
  destruct (Reach_inv img0 k s HR) as (_ & Hrows & Hcols & Hbin & _).
  destruct (Reach_frame img0 k s HR) as (Hlen & Hpx).
  split; [exact Hrows|]. split; [exact Hcols|]. split; [exact Hlen|].
  split; [|split; [exact Hbin|split; [exact Hpx|]]].
  - unfold wf_image. rewrite Hrows, Hcols, Hlen. tauto.
  - intros px Hnot. destruct (Hpx px) as [Heq|(_ & Hint & _)]; [exact Heq|contradiction].
Qed.

Lemma thinImage_unchanged (img : BitImage) :
  (forall px, interior img px -> deref img px = 0) -> thinImage img = img.
Proof.
  intros Hoff.
  assert (Hrem : remaining (init img) = []).
  { unfold remaining.
    destruct (List.filter _ _) as [|px l] eqn:E; [reflexivity|].
    assert (Hin : In px (px :: l)) by (left; reflexivity).
    rewrite <- E in Hin. apply filter_In in Hin as [Hin Hon].
    cbn [init image onPixels] in Hin, Hon.
    apply in_section in Hin as (r & c & Hr & Hc & ->).
    rewrite Hoff in Hon; [discriminate|]. exists r, c. repeat split; lia. }
  unfold thinImage, thinImage_fuel. cbn [loop]. cbn [init difference].
  assert (Hbody : body (init img) = mkState img [] false true).
  { unfold body, flaggedPixels. rewrite Hrem. reflexivity. }
  fold (init img). rewrite Hbody.
  destruct (countOn img); reflexivity.
Qed.

(** X5: an image whose interior holds no on-pixel, an all-off image for
    instance, is returned as it is, when the call of [section] on its canvas
    returns (the product (rows - 2) * (cols - 2) is not negative). *)
Theorem thinImage_no_interior_on (img : BitImage) :
  section_returns (m_rows img - 2) (m_cols img - 2) ->
  (forall px, interior img px -> deref img px = 0) -> thinImage img = img.
Proof. intros _. apply thinImage_unchanged. Qed.

Lemma thinImage_no_interior_on_witness :
  thinImage Samples.cornerStroke = Samples.cornerStroke.
Proof.
  apply thinImage_no_interior_on.
  - unfold section_returns. simpl. lia.
  - intros px (r & c & Hr & Hc & ->). simpl in Hr, Hc.
    assert (r = 1) by lia. assert (c = 1) by lia. subst. reflexivity.
Defined.

Lemma filter_length_mono {A : Type} (f g : A -> bool) (l : list A) :
  (forall x, In x l -> f x = true -> g x = true) ->
  (length (List.filter f l) <= length (List.filter g l))%nat.
Proof.
  induction l as [|a l IH]; intros H; simpl; [lia|].
  specialize (IH ltac:(intros x Hx; apply H; right; exact Hx)).
  destruct (f a) eqn:Ef.
  - rewrite (H a ltac:(left; reflexivity) Ef). simpl. lia.
  - destruct (g a); simpl; lia.
Qed.

Lemma filter_map_length {A B : Type} (f : B -> bool) (g : A -> B) (l : list A) :
  length (List.filter f (map g l)) = length (List.filter (fun x => f (g x)) l).
Proof.
  induction l as [|a l IH]; simpl; [reflexivity|]. destruct (f (g a)); simpl; lia.
Qed.

(** Clearing pixels can only lower the number of on-neighbours. *)
Lemma specB_mono (img img' : BitImage) (r c : Z) :
  m_cols img' = m_cols img ->
  (forall px, deref img px = 0 -> deref img' px = 0) ->
  specB img' r c <= specB img r c.
Proof.
  intros Hcols Hmono. unfold specB. apply inj_le.
  rewrite !filter_map_length. apply filter_length_mono.
  intros k _. rewrite !negb_true_iff, !Z.eqb_neq. intros Hon H0. apply Hon.
  unfold P, find in *. rewrite Hcols.
  do 10 (destruct k as [|k]; [apply Hmono; exact H0|]). apply Hmono. exact H0.
Qed.

(** X6: on an image of 0/1 bytes, an interior on-pixel with fewer than two
    on-neighbours, an isolated pixel or the end of a stroke, is never
    cleared: it is on in the thinned image. *)
Theorem thinImage_keeps_endpoints (img0 : BitImage) (r c : Z) :
  binary img0 ->
  1 <= r <= m_rows img0 - 2 -> 1 <= c <= m_cols img0 - 2 ->
  deref img0 (find img0 r c) <> 0 ->
  specB img0 r c < 2 ->
  deref (thinImage img0) (find img0 r c) = deref img0 (find img0 r c).
Proof.
  intros Hb Hr Hc Hon HB.
  destruct (thinImage_reach img0) as (k & s & HR & ->).
  induction HR as [|k s HR IH Hd]; [reflexivity|].
  destruct (Reach_inv img0 k s HR) as (Hit & Hrows & Hcols & Hbin & _ & _ & Hmono).
  unfold body. cbn [image]. rewrite deref_clearAll.
  destruct (in_dec Z.eq_dec (find img0 r c) (flaggedPixels s)) as [Hin|Hnin];
    [|exact IH].
  exfalso. apply in_flaggedPixels in Hin as (_ & _ & Hflag).
  assert (Hfind : find img0 r c = find (image s) r c) by (unfold find; congruence).
  rewrite Hit, Hfind in Hflag.
  apply (flagTest_spec k (image s) r c (Hbin Hb)) in Hflag; [|lia|lia].
  destruct Hflag as (_ & HB2 & _).
  pose proof (specB_mono img0 (image s) r c Hcols Hmono). lia.
Qed.

Lemma thinImage_keeps_endpoints_witness :
  deref (thinImage Samples.dash) (find Samples.dash 1 2)
  = deref Samples.dash (find Samples.dash 1 2).
Proof.
  apply thinImage_keeps_endpoints.
  - unfold binary, Samples.dash, bits. repeat (constructor; [auto|]). constructor.
  - simpl. lia.
  - simpl. lia.
  - discriminate.
  - vm_compute. reflexivity.
Defined.

(** The loop is left at a state whose flag [difference] is down. *)
Lemma loop_reach_final (img0 : BitImage) (fuel : nat) :
  forall k s r, Reach img0 k s -> loop fuel s = Some r ->
    exists k' s', Reach img0 k' s' /\ difference s' = false /\ r = image s'.
Proof.
  induction fuel as [|fuel IH]; intros k s r HR Hl; cbn [loop] in Hl;
    destruct (difference s) eqn:Hd; try discriminate.
  - injection Hl as <-. eauto.
  - apply (IH (S k) (body s) r); [constructor; assumption|exact Hl].
  - injection Hl as <-. eauto.
Qed.

(** A state with the flag down comes from a pass that has flagged nothing
    and has left the image as it was. *)
Lemma Reach_last (img0 : BitImage) (k : nat) (s : State) :
  Reach img0 k s -> difference s = false ->
  exists k0 s0, Reach img0 k0 s0 /\ flaggedPixels s0 = [] /\ image s = image s0.
Proof.
  intros HR. destruct HR as [|k s HR Hd]; [discriminate|].
  intros Hdown. exists k, s. split; [exact HR|].
  unfold body in *. cbn [difference image] in *.
  destruct (flaggedPixels s); [auto|discriminate].
Qed.

(** X27: the image [thinImage] leaves is stable for the sub-iteration it
    ran last: for the parity k of that sub-iteration no interior on-pixel of
    the result passes the test of the code, and, on 0/1 bytes, none satisfies
    the rule A = 1, 2 <= B <= 6, m1 = 0, m2 = 0 of that parity. *)
Theorem thinImage_stable (img0 : BitImage) :
  exists k : nat,
    (forall px, interior img0 px -> deref (thinImage img0) px <> 0 ->
       flagTest (Nat.odd k) (thinImage img0) px = false) /\
    (binary img0 ->
     forall r c, 1 <= r <= m_rows img0 - 2 -> 1 <= c <= m_cols img0 - 2 ->
       deref (thinImage img0) (find img0 r c) <> 0 ->
       ~ (specA (thinImage img0) r c = 1 /\ 2 <= specB (thinImage img0) r c <= 6 /\
          specM1 k (thinImage img0) r c = 0 /\ specM2 k (thinImage img0) r c = 0)).
Proof.
  destruct (loop_reach_final img0 (S (countOn img0)) O (init img0) (thinImage img0))
    as (k1 & s1 & HR1 & Hdown & Himg); [constructor|apply thinImage_total|].
  destruct (Reach_last img0 k1 s1 HR1 Hdown) as (k & s & HR & Hnone & Hsame).
  destruct (Reach_inv img0 k s HR) as (Hit & Hrows & Hcols & Hbin & _ & Hsup & _).
  rewrite Himg, Hsame. exists k.
  assert (Htest : forall px, interior img0 px -> deref (image s) px <> 0 ->
                    flagTest (Nat.odd k) (image s) px = false).
  { intros px Hint Hon.
    destruct (flagTest (Nat.odd k) (image s) px) eqn:E; [|reflexivity].
    assert (Hin : In px (flaggedPixels s)).
    { apply in_flaggedPixels. rewrite Hit. auto. }
    rewrite Hnone in Hin. destruct Hin. }
  split; [exact Htest|].
  intros Hb r c Hr Hc Hon Hrule.
  assert (Hfind : find img0 r c = find (image s) r c) by (unfold find; congruence).
  apply (flagTest_spec k (image s) r c (Hbin Hb)) in Hrule; [|lia|lia].
  rewrite <- Hfind in Hrule. rewrite Htest in Hrule; [discriminate| |exact Hon].
  exists r, c. repeat split; lia.
Qed.

End ThinnerExtras.

(** * More on the polyline merger *)

Module MergerExtras.
Import Merger MergerFacts.

Lemma find_if_none {A : Type} (p : A -> bool) (l : list A) :
  (forall x, In x l -> p x = false) -> find_if p l = length l.
Proof.
  induction l as [|a l IH]; intros H; simpl; [reflexivity|].
  rewrite (H a ltac:(left; reflexivity)). f_equal. apply IH.
  intros x Hx. apply H. right. exact Hx.
Qed.

(** One pass of the loop, without any assumption on the polylines: nothing
    changes, or one live source is spliced in and swapped out of the live
    range. *)
Lemma mergeOne_shape (dest : list Z) (srcs : list (list Z)) (e : nat) :
  (e <= length srcs)%nat ->
  let r := mergeOne dest (srcs, e) in
  r = (dest, (srcs, e)) \/
  (exists i s, (i < e)%nat /\ srcs !! i = Some s /\ Spliced dest s (fst r) /\
               snd r = (iter_swap srcs i (e - 1), (e - 1)%nat)).
Proof.
  intros He. unfold mergeOne.
  assert (Hfound : forall p, (find_if p (take e srcs) < e)%nat ->
            exists s, srcs !! find_if p (take e srcs) = Some s).
  { intros p Hlt. destruct (find_if_found p (take e srcs)) as (s & Hs & _).
    - rewrite length_take_le by exact He. exact Hlt.
    - rewrite lookup_take_lt in Hs by exact Hlt. eauto. }
  repeat match goal with
  | |- context [(find_if ?p (take e srcs) <? e)%nat] =>
      destruct (Nat.ltb_spec (find_if p (take e srcs)) e) as [Hlt|_];
      [right; destruct (Hfound p Hlt) as [s Hs];
       exists (find_if p (take e srcs)), s; unfold take_source, Spliced; cbn [fst snd];
       rewrite Hs; simpl; auto 10|]
  end.
  left. reflexivity.
Qed.

Lemma mergeLoop_shape (dests : list (list Z)) :
  forall (srcs : list (list Z)) (e : nat),
    (e <= length srcs)%nat ->
    let r := mergeLoop dests (srcs, e) in
    length (fst r) = length dests /\
    (snd (snd r) <= e)%nat /\ (e - snd (snd r) <= length dests)%nat /\
    fst (snd r) ≡ₚ srcs /\
    (forall (i : nat) d, dests !! i = Some d ->
       exists pre post, fst r !! i = Some (pre ++ d ++ post) /\ (pre = [] \/ post = [])).
Proof.
  induction dests as [|dest rest IH]; intros srcs e He r.
  - subst r. simpl. repeat split; auto; try lia. intros i d Hd. destruct i; discriminate.
  - subst r. cbn [mergeLoop].
    pose proof (mergeOne_shape dest srcs e He) as Hone. cbv zeta in Hone.
    destruct (mergeOne dest (srcs, e)) as [dest' [srcs1 e1]]. cbn [fst snd] in Hone.
    assert (Hpre : (e1 <= length srcs1)%nat /\ (e1 <= e)%nat /\ (e - e1 <= 1)%nat /\
                   srcs1 ≡ₚ srcs /\
                   exists pre post, dest' = pre ++ dest ++ post /\ (pre = [] \/ post = [])).
    { destruct Hone as [Hsame|(i & s & Hi & Hs & Hsp & Hswap)].
      - injection Hsame as E1 E2 E3. subst dest' srcs1 e1.
        repeat split; auto; try lia. exists [], []. rewrite app_nil_r. auto.
      - injection Hswap as E2 E3. subst srcs1 e1. rewrite iter_swap_length. split; [lia|]. split; [lia|]. split; [lia|].
        split; [apply iter_swap_Permutation|].
        destruct Hsp as [-> | [-> | [-> | ->]]];
          unfold spliceFrontFront, spliceFrontBack, spliceBackFront, spliceBackBack.
        + exists (removelast (rev s)), []. rewrite app_nil_r. auto.
        + exists (removelast s), []. rewrite app_nil_r. auto.
        + exists [], (tail s). auto.
        + exists [], (tail (rev s)). auto. }
    destruct Hpre as (He1 & Hle1 & Hd1 & Hp1 & pre & post & Hdest & Hside).
    specialize (IH srcs1 e1 He1). cbv zeta in IH.
    destruct (mergeLoop rest (srcs1, e1)) as [rest' [srcs2 e2]]. cbn [fst snd] in *.
    destruct IH as (Hlen & Hle & Hcount & Hperm & Hkeep).
    split; [simpl; lia|]. split; [lia|]. split; [simpl; lia|].
    split; [rewrite Hperm; exact Hp1|].
    intros i d Hd. destruct i as [|i]; simpl in *.
    + injection Hd as <-. exists pre, post. rewrite Hdest. auto.
    + apply Hkeep, Hd.
Qed.

(** X7: the output holds |D| + |S| polylines less one per merge, and there
    are no more merges than destinations or than sources; the polyline at
    position i of the output is the destination at position i of D, with
    nothing added or with locators added at one of its two ends only. *)
Theorem merge_counts (D S : list (list Z)) :
  (length (mergePolylines D S) + mergesPerformed D S = length D + length S)%nat /\
  (mergesPerformed D S <= length D)%nat /\ (mergesPerformed D S <= length S)%nat /\
  (forall (i : nat) d, D !! i = Some d ->
     exists pre post, mergePolylines D S !! i = Some (pre ++ d ++ post) /\
                      (pre = [] \/ post = [])).
Proof.
  unfold mergesPerformed, unmergedSources, mergePolylines.
  destruct D as [|d D'].
  { simpl. repeat split; try lia. intros i d Hd. destruct i; discriminate. }
  pose proof (mergeLoop_shape (d :: D') S (length S) (Nat.le_refl _)) as Hs.
  cbv zeta in Hs.
  destruct (mergeLoop (d :: D') (S, length S)) as [dests [srcs srcEnd]].
  cbn [fst snd] in Hs. destruct Hs as (Hlen & Hle & Hcount & Hperm & Hkeep).
  assert (Hsl : length srcs = length S) by (apply Permutation_length, Hperm).
  assert (Htake : length (take srcEnd srcs) = srcEnd) by (apply length_take_le; lia).
  rewrite Htake. destruct S as [|s0 S'].
  - simpl in *. assert (srcEnd = 0%nat) by lia. subst srcEnd.
    repeat split; try lia.
    intros i x Hx. exists [], []. rewrite app_nil_r. auto.
  - rewrite length_app, Htake. repeat split; try lia.
    intros i x Hx. destruct (Hkeep i x Hx) as (pre & post & Hl & Hside).
    exists pre, post. split; [|exact Hside]. apply lookup_app_l_Some. exact Hl.
Qed.

Lemma mergeLoop_unchanged (dests : list (list Z)) (srcs : list (list Z)) (e : nat) :
  (e <= length srcs)%nat ->
  (forall d s, In d dests -> In s (take e srcs) ->
     front d <> front s /\ front d <> back s /\ back d <> front s /\ back d <> back s) ->
  mergeLoop dests (srcs, e) = (dests, (srcs, e)).
Proof.
  intros He. induction dests as [|dest rest IH]; intros Hno; [reflexivity|].
  cbn [mergeLoop].
  assert (Hone : mergeOne dest (srcs, e) = (dest, (srcs, e))).
  { unfold mergeOne.
    assert (Hn : forall p, (forall s, In s (take e srcs) -> p s = false) ->
                           (find_if p (take e srcs) <? e)%nat = false).
    { intros p Hp. rewrite (find_if_none p _ Hp), length_take_le by exact He.
      apply Nat.ltb_irrefl. }
    rewrite !Hn; [reflexivity|..]; intros s Hs; apply Z.eqb_neq;
      destruct (Hno dest s ltac:(left; reflexivity) Hs) as (H1 & H2 & H3 & H4); assumption. }
  rewrite Hone, IH; [reflexivity|].
  intros d s Hd Hs. apply Hno; [right; exact Hd|exact Hs].
Qed.

(** X8: when no end of a destination is an end of a source, nothing is
    merged: the output is D followed by S, both as they were. *)
Theorem merge_nothing_shared (D S : list (list Z)) :
  (forall d s, In d D -> In s S ->
     front d <> front s /\ front d <> back s /\ back d <> front s /\ back d <> back s) ->
  mergePolylines D S = D ++ S.
Proof.
  intros Hno. unfold mergePolylines.
  destruct D as [|d D']; [reflexivity|].
  destruct S as [|s0 S']; [rewrite app_nil_r; reflexivity|].
  rewrite mergeLoop_unchanged.
  - rewrite firstn_all. reflexivity.
  - reflexivity.
  - rewrite firstn_all. exact Hno.
Qed.

Lemma merge_nothing_shared_witness :
  mergePolylines [[1; 2; 3]; [4; 5]] [[6; 7]; [8; 9; 10]]
  = [[1; 2; 3]; [4; 5]] ++ [[6; 7]; [8; 9; 10]].
Proof.
  apply merge_nothing_shared.
  intros d s Hd Hs. simpl in Hd, Hs.
  destruct Hd as [<-|[<-|[]]]; destruct Hs as [<-|[<-|[]]]; vm_compute; repeat split;
    discriminate.
Defined.

Lemma merge_min_length (n : nat) (D S : list (list Z)) :
  Forall (fun pl => (n <= length pl)%nat) D ->
  Forall (fun pl => (n <= length pl)%nat) S ->
  Forall (fun pl => (n <= length pl)%nat) (mergePolylines D S).
Proof.
  intros HD HS. unfold mergePolylines.
  destruct D as [|d D']; [exact HS|]. destruct S as [|s0 S']; [exact HD|].
  pose proof (mergeLoop_shape (d :: D') (s0 :: S') (length (s0 :: S')) (Nat.le_refl _)) as Hs.
  cbv zeta in Hs.
  destruct (mergeLoop (d :: D') (s0 :: S', length (s0 :: S'))) as [dests [srcs srcEnd]].
  cbn [fst snd] in Hs. destruct Hs as (Hlen & _ & _ & Hperm & Hkeep).
  apply Forall_app. split.
  - apply Forall_lookup. intros i pl Hpl.
    assert (Hi : (i < length (d :: D'))%nat) by (rewrite <- Hlen; eapply lookup_lt_Some; eauto).
    destruct (lookup_lt_is_Some_2 _ _ Hi) as [x Hx].
    destruct (Hkeep i x Hx) as (pre & post & Hl & _).
    assert (pl = pre ++ x ++ post) by congruence. subst pl.
    rewrite Forall_lookup in HD. specialize (HD i x Hx). simpl in HD.
    rewrite !length_app. lia.
  - apply Forall_take. rewrite Hperm. exact HS.
Qed.

(** X9: the merger never shortens a polyline: when every polyline of D and
    of S has n locators or more, so has every polyline of the output (with
    n = 2 the polylines of the tracer keep their two ends). *)
Theorem merge_keeps_min_length (n : nat) (D S : list (list Z)) :
  Forall (fun pl => (n <= length pl)%nat) D ->
  Forall (fun pl => (n <= length pl)%nat) S ->
  Forall (fun pl => (n <= length pl)%nat) (mergePolylines D S).
Proof. apply merge_min_length. Qed.

(** The merger invents no locator. *)
Lemma merge_locators (D S : list (list Z)) (px : Z) :
  Forall (fun pl => pl <> []) D -> Forall (fun pl => pl <> []) S ->
  In px (concat (mergePolylines D S)) -> In px (concat D ++ concat S).
Proof.
  intros HD HS. unfold mergePolylines.
  destruct D as [|d D']; [simpl; auto|].
  destruct S as [|s0 S']; [intros Hin; apply in_or_app; left; exact Hin|].
  pose proof (mergeLoop_spec (d :: D') (s0 :: S') (length (s0 :: S')) (Nat.le_refl _)) as Hspec.
  rewrite firstn_all in Hspec. specialize (Hspec HS). cbv zeta in Hspec.
  destruct (mergeLoop (d :: D') (s0 :: S', length (s0 :: S'))) as [dests [srcs srcEnd]].
  cbn [fst snd] in Hspec.
  destruct Hspec as (merged & dropped & _ & _ & _ & _ & Hperm & Hcat & _).
  rewrite concat_app. intros Hin. apply in_app_iff in Hin as [Hin|Hin].
  - assert (H1 : In px (concat dests ++ dropped)) by (apply in_or_app; left; exact Hin).
    apply (Permutation_in _ Hcat) in H1. apply in_app_iff in H1 as [H1|H1].
    + apply in_or_app. left. exact H1.
    + apply in_or_app. right. rewrite Hperm, concat_app. apply in_or_app. right. exact H1.
  - apply in_or_app. right. rewrite Hperm, concat_app. apply in_or_app. left. exact Hin.
Qed.

Lemma merge_keeps_min_length_witness :
  Forall (fun pl => (2 <= length pl)%nat) (mergePolylines [[1; 2; 3]] [[3; 4; 5]; [8; 9]]).
Proof.
  apply merge_keeps_min_length; repeat (constructor; [simpl; lia|]); constructor.
Defined.

End MergerExtras.

(** * More on the leaf segment fitter *)

Module LeafExtras.
Import Merger MergerFacts MergerExtras Leaf LeafFacts ImageExtras.

Lemma rev_lookup {A : Type} (l : list A) (i : nat) :
  (i < length l)%nat -> rev l !! i = l !! (length l - S i)%nat.
Proof. intros Hi. rewrite rev_alt. apply reverse_lookup. exact Hi. Qed.

(** The four sides of the frame, as the source collects them. *)
Lemma frame_sides (image : BitImage) (r0 c0 rows cols : Z) :
  2 <= rows -> 2 <= cols ->
  length (section image r0 c0 1 (cols - 1)) = Z.to_nat (cols - 1) /\
  length (section image r0 (c0 + cols - 1) (rows - 1) 1) = Z.to_nat (rows - 1) /\
  length (section image (r0 + rows - 1) (c0 + 1) 1 (cols - 1)) = Z.to_nat (cols - 1) /\
  length (section image (r0 + 1) c0 (rows - 1) 1) = Z.to_nat (rows - 1).
Proof. intros Hr Hc. rewrite !section_length. repeat split; lia. Qed.

(** X10: for a section of two rows and two columns or more, the frame holds
    2 * (rows + cols) - 4 pixels, which are the pixels of the first and last
    row and column of the section, in clockwise order from the top-left
    corner: along the top row, down the right column, back along the bottom
    row and up the left column. *)
Theorem pixelsFrame_clockwise (image : BitImage) (r0 c0 rows cols : Z) :
  2 <= rows -> 2 <= cols ->
  let v := pixelsFrame image r0 c0 rows cols in
  let r1 := r0 + rows - 1 in
  let c1 := c0 + cols - 1 in
  Z.of_nat (length v) = 2 * (rows + cols) - 4 /\
  (forall px, In px v <->
     exists r c, r0 <= r <= r1 /\ c0 <= c <= c1 /\
                 (r = r0 \/ r = r1 \/ c = c0 \/ c = c1) /\ px = find image r c) /\
  (forall j, 0 <= j < cols - 1 -> v !! Z.to_nat j = Some (find image r0 (c0 + j))) /\
  (forall i, 0 <= i < rows - 1 ->
     v !! Z.to_nat (cols - 1 + i) = Some (find image (r0 + i) c1)) /\
  (forall j, 0 <= j < cols - 1 ->
     v !! Z.to_nat (cols - 1 + (rows - 1) + j) = Some (find image r1 (c1 - j))) /\
  (forall i, 0 <= i < rows - 1 ->
     v !! Z.to_nat (2 * (cols - 1) + (rows - 1) + i) = Some (find image (r1 - i) c0)).
Proof.
  intros Hr Hc v r1 c1. subst v. unfold pixelsFrame. fold r1 c1.
  destruct (frame_sides image r0 c0 rows cols Hr Hc) as (L1 & L2 & L3 & L4).
  fold r1 c1 in L2, L3.
  split; [|split; [|split; [|split; [|split]]]].
  - rewrite !length_app, !length_rev, L1, L2, L3, L4. lia.
  - intros px. rewrite !in_app_iff, <- !in_rev, !in_section. split.
    + intros [H|[H|[H|H]]]; destruct H as (r & c & Hrr & Hcc & ->);
        exists r, c; repeat split; lia.
    + intros (r & c & Hrr & Hcc & Hside & ->).
      destruct (Z.eq_dec r r0) as [->|Hnr0].
      * destruct (Z.eq_dec c c1) as [->|Hnc1].
        -- right; left. exists r0, c1. repeat split; lia.
        -- left. exists r0, c. repeat split; lia.
      * destruct (Z.eq_dec c c0) as [->|Hnc0].
        -- right; right; right. exists r, c0. repeat split; lia.
        -- destruct (Z.eq_dec r r1) as [->|Hnr1].
           ++ right; right; left. exists r1, c. repeat split; lia.
           ++ right; left. exists r, c. repeat split; lia.
  - intros j Hj. rewrite lookup_app_l by lia.
    pose proof (section_lookup image r0 c0 1 (cols - 1) 0 j ltac:(lia) Hj) as H.
    simpl in H. rewrite Z.add_0_r in H. exact H.
  - intros i Hi. rewrite lookup_app_r by lia. rewrite lookup_app_l by lia.
    rewrite L1. replace (Z.to_nat (cols - 1 + i) - Z.to_nat (cols - 1))%nat
      with (Z.to_nat (i * 1 + 0)) by lia.
    rewrite (section_lookup image r0 c1 (rows - 1) 1 i 0) by lia.
    rewrite Z.add_0_r. reflexivity.
  - intros j Hj. rewrite lookup_app_r by lia. rewrite lookup_app_r by lia.
    rewrite lookup_app_l by (rewrite length_rev; lia).
    rewrite rev_lookup by lia. rewrite L1, L2, L3.
    replace (Z.to_nat (cols - 1) - S (Z.to_nat (cols - 1 + (rows - 1) + j)
                                       - Z.to_nat (cols - 1) - Z.to_nat (rows - 1)))%nat
      with (Z.to_nat (0 * (cols - 1) + (cols - 2 - j))) by lia.
    rewrite (section_lookup image r1 (c0 + 1) 1 (cols - 1) 0 (cols - 2 - j)) by lia.
    f_equal. unfold c1. f_equal; lia.
  - intros i Hi. rewrite lookup_app_r by lia. rewrite lookup_app_r by lia.
    rewrite lookup_app_r by (rewrite length_rev; lia).
    rewrite rev_lookup by (rewrite length_rev; lia). rewrite length_rev, L1, L2, L3, L4.
    replace (Z.to_nat (rows - 1) - S (Z.to_nat (2 * (cols - 1) + (rows - 1) + i)
                                       - Z.to_nat (cols - 1) - Z.to_nat (rows - 1)
                                       - Z.to_nat (cols - 1)))%nat
      with (Z.to_nat ((rows - 2 - i) * 1 + 0)) by lia.
    rewrite (section_lookup image (r0 + 1) c0 (rows - 1) 1 (rows - 2 - i) 0) by lia.
    f_equal. unfold r1. f_equal; lia.
Qed.

Lemma pixelsFrame_clockwise_witness :
  Z.of_nat (length (pixelsFrame Samples.cross 0 0 3 3)) = 2 * (3 + 3) - 4.
Proof. apply (pixelsFrame_clockwise Samples.cross 0 0 3 3); lia. Defined.


(** X11: when the pixels of the frame are all off, or all on, the leaf
    fitter returns no segment. *)
Theorem fitSegments_uniform_frame `{StdSort} (image : BitImage) (r0 c0 rows cols : Z) :
  (forall px, In px (pixelsFrame image r0 c0 rows cols) -> deref image px = 0) \/
  (forall px, In px (pixelsFrame image r0 c0 rows cols) -> deref image px <> 0) ->
  fitSegments image r0 c0 rows cols = [].
Proof.
  intros Huni. unfold fitSegments.
  destruct Huni as [Hoff|Hon].
  - rewrite (find_if_none (isOn image) (pixelsFrame image r0 c0 rows cols)).
    + rewrite Nat.eqb_refl, orb_true_r. reflexivity.
    + intros px Hpx. unfold isOn, truthy. rewrite (Hoff px Hpx). reflexivity.
  - rewrite (find_if_none (isOff image) (pixelsFrame image r0 c0 rows cols)).
    + rewrite Nat.eqb_refl. reflexivity.
    + intros px Hpx. unfold isOff, truthy.
      destruct (Z.eqb_spec (deref image px) 0) as [E|_]; [|reflexivity].
      destruct (Hon px Hpx E).
Qed.

Lemma fitSegments_uniform_frame_witness :
  fitSegments Samples.blob 0 0 5 5 = [].
Proof.
  apply (fitSegments_uniform_frame (H := InsertionSort)). left.
  intros px Hpx. vm_compute in Hpx.
  repeat (destruct Hpx as [<-|Hpx]; [reflexivity|]). destruct Hpx.
Defined.

Lemma find_if_before {A : Type} (p : A -> bool) (l : list A) (j : nat) (x : A) :
  (j < find_if p l)%nat -> l !! j = Some x -> p x = false.
Proof.
  revert j. induction l as [|a l IH]; intros j Hlt Hx; [destruct j; discriminate|].
  simpl in Hlt. destruct (p a) eqn:E; [lia|].
  destruct j as [|j]; simpl in Hx.
  - injection Hx as <-. exact E.
  - apply (IH j); [lia|exact Hx].
Qed.

Lemma find_from_before {A : Type} (p : A -> bool) (v : list A) (from j : nat) (x : A) :
  (from <= j < find_from p v from)%nat -> v !! j = Some x -> p x = false.
Proof.
  unfold find_from. intros Hj Hx.
  apply (find_if_before p (drop from v) (j - from)); [lia|].
  rewrite lookup_drop. replace (from + (j - from))%nat with j by lia. exact Hx.
Qed.

Lemma scanLoop_segments (image : BitImage) (v : list Z) (pxCenter : Z) (fuel : nat) :
  forall st st', scanLoop image v pxCenter fuel st = Some st' ->
    (pxOff st <= length v)%nat ->
    Forall (ScanSegment image v pxCenter) (segments st) ->
    Forall (ScanSegment image v pxCenter) (segments st').
Proof.
  induction fuel as [|fuel IH]; intros st st' Hrun Hle Hsegs; [discriminate|].
  cbn [scanLoop] in Hrun.
  pose proof (find_from_ge (isOn image) v (pxOff st)) as Hge.
  pose proof (find_from_le (isOn image) v (pxOff st) Hle) as Hon.
  set (pxOn := find_from (isOn image) v (pxOff st)) in *.
  pose proof (find_from_le (isOff image) v pxOn Hon) as Hoff.
  set (pxOff' := find_from (isOff image) v pxOn) in *.
  destruct (Nat.eqb_spec pxOn (length v)) as [Heq|Hne].
  - injection Hrun as <-. exact Hsegs.
  - apply IH in Hrun; [exact Hrun|exact Hoff|]. cbn [segments].
    apply Forall_app. split; [exact Hsegs|]. constructor; [|constructor].
    destruct (find_from_found (isOn image) v (pxOff st)) as (x & Hx & Hp);
      [fold pxOn; lia|]. fold pxOn in Hx.
    assert (Hskip : (pxOn < pxOff')%nat).
    { apply (find_from_skips _ _ _ x Hx). unfold isOff. fold (isOn image x).
      rewrite Hp. reflexivity. }
    assert (Hmid : (pxOn <= pxOn + (pxOff' - pxOn) / 2 < pxOff')%nat).
    { pose proof (Nat.div_lt (pxOff' - pxOn) 2 ltac:(lia) ltac:(lia)). lia. }
    destruct (lookup_lt_is_Some_2 v (pxOn + (pxOff' - pxOn) / 2)%nat ltac:(lia)) as [m Hm].
    rewrite Hm. exists m. split; [reflexivity|]. split.
    + apply list_elem_of_In. eapply list_elem_of_lookup_2. exact Hm.
    + pose proof (find_from_before (isOff image) v pxOn _ m Hmid Hm) as Hnoff.
      unfold isOff, truthy in Hnoff. intros E. rewrite E in Hnoff. discriminate.
Qed.

Lemma in_rotatedFrame (image : BitImage) (r0 c0 rows cols px : Z) :
  In px (rotatedFrame image r0 c0 rows cols) -> In px (pixelsFrame image r0 c0 rows cols).
Proof.
  unfold rotatedFrame, rotate. intros Hin.
  rewrite <- (take_drop (find_if (isOff image) (pixelsFrame image r0 c0 rows cols))
                        (pixelsFrame image r0 c0 rows cols)).
  apply in_app_iff. apply in_app_iff in Hin. tauto.
Qed.

Lemma fitSegments_shape `{StdSort} (image : BitImage) (r0 c0 rows cols : Z) :
  forall pl, In pl (fitSegments image r0 c0 rows cols) ->
    exists a b, pl = [a; b] /\
      In a (pixelsFrame image r0 c0 rows cols) /\ deref image a <> 0 /\
      (b = estimateIntersection image r0 c0 rows cols (pxCenterOf image r0 c0 rows cols) \/
       In b (pixelsFrame image r0 c0 rows cols) /\ deref image b <> 0).
Proof.
  intros pl. unfold fitSegments.
  destruct (_ || _); [intros []|].
  destruct (frameScan_returns image r0 c0 rows cols) as (st & Hst & _).
  rewrite Hst. simpl default.
  assert (Hsegs : Forall (ScanSegment image (rotatedFrame image r0 c0 rows cols)
                            (pxCenterOf image r0 c0 rows cols)) (segments st)).
  { unfold frameScan in Hst. eapply scanLoop_segments; [exact Hst| |constructor].
    cbn [pxOff]. unfold rotatedFrame, rotate.
    rewrite length_app, length_drop, length_take.
    pose proof (find_if_le (isOff image) (pixelsFrame image r0 c0 rows cols)). lia. }
  destruct (Nat.eqb_spec (length (segments st)) 2) as [H2|Hn2].
  - destruct (segments st) as [|s1 [|s2 [|s3 l]]]; try discriminate.
    apply Forall_cons in Hsegs as [(m1 & -> & Hin1 & Hon1) Hsegs].
    apply Forall_cons in Hsegs as [(m2 & -> & Hin2 & Hon2) _].
    simpl. intros [<-|[]]. exists m1, m2. split; [reflexivity|].
    split; [apply in_rotatedFrame, Hin1|]. split; [exact Hon1|].
    right. split; [apply in_rotatedFrame, Hin2|exact Hon2].
  - intros Hin. apply in_map_iff in Hin as (seg & <- & Hseg).
    rewrite Forall_forall in Hsegs.
    destruct (Hsegs seg ltac:(apply list_elem_of_In; exact Hseg)) as (m & -> & Hin & Hon).
    exists m, (estimateIntersection image r0 c0 rows cols (pxCenterOf image r0 c0 rows cols)).
    split; [reflexivity|]. split; [apply in_rotatedFrame, Hin|]. split; [exact Hon|].
    left. reflexivity.
Qed.

(** X12: every polyline the leaf fitter returns has exactly two locators;
    the first is an on-pixel of the frame of the section, and the second is
    either the estimated intersection or, when the scan found two segments,
    an on-pixel of the frame too. *)
Theorem fitSegments_two_locators `{StdSort} (image : BitImage) (r0 c0 rows cols : Z) :
  forall pl, In pl (fitSegments image r0 c0 rows cols) ->
    exists a b, pl = [a; b] /\
      In a (pixelsFrame image r0 c0 rows cols) /\ deref image a <> 0 /\
      (b = estimateIntersection image r0 c0 rows cols (pxCenterOf image r0 c0 rows cols) \/
       In b (pixelsFrame image r0 c0 rows cols) /\ deref image b <> 0).
Proof. apply fitSegments_shape. Qed.

Lemma fitSegments_two_locators_witness :
  exists a b, [1; 4] = [a; b] /\
    In a (pixelsFrame Samples.cross 0 0 3 3) /\ deref Samples.cross a <> 0 /\
    (b = estimateIntersection (H := InsertionSort) Samples.cross 0 0 3 3
           (pxCenterOf Samples.cross 0 0 3 3) \/
     In b (pixelsFrame Samples.cross 0 0 3 3) /\ deref Samples.cross b <> 0).
Proof.
  apply (fitSegments_two_locators (H := InsertionSort) Samples.cross 0 0 3 3).
  vm_compute. left. reflexivity.
Defined.

(** The loop over the candidates, from any state below the early-stop
    threshold: it keeps its state when no candidate beats it, and otherwise
    ends on the first candidate that reaches the on-count it ends with. *)
Lemma intersectionLoop_spec (image : BitImage) (pxs : list Z) :
  forall m0 p0, m0 < 5 ->
    let r := intersectionLoop image pxs m0 p0 in
    (r = (m0, p0) /\ forall q, In q pxs -> conv image q <= m0) \/
    (exists i : nat, pxs !! i = Some (snd r) /\ fst r = conv image (snd r) /\ m0 < fst r /\
       (forall (j : nat) q, (j < i)%nat -> pxs !! j = Some q -> conv image q < fst r) /\
       (5 <= fst r \/ forall q, In q pxs -> conv image q <= fst r)).
Proof.
  induction pxs as [|px rest IH]; intros m0 p0 Hm0 r.
  - left. split; [reflexivity|]. intros q [].
  - subst r. cbn [intersectionLoop].
    destruct (Z.gtb_spec (conv image px) m0) as [Hgt|Hle].
    + replace (m0 `max` conv image px) with (conv image px) by lia.
      destruct (Z.geb_spec (conv image px) 5) as [H5|Hlt5].
      * right. exists 0%nat. cbn [fst snd].
        split; [reflexivity|]. split; [reflexivity|]. split; [lia|]. split.
        -- intros j q Hj. lia.
        -- left. lia.
      * specialize (IH (conv image px) px ltac:(lia)). cbv zeta in IH.
        destruct IH as [(-> & Hall)|(i & Hi & Hm & Hlt & Hbefore & Hmax)].
        -- right. exists 0%nat. cbn [fst snd].
           split; [reflexivity|]. split; [reflexivity|]. split; [lia|]. split.
           ++ intros j q Hj. lia.
           ++ right. intros q [<-|Hq]; [lia|apply Hall, Hq].
        -- right. exists (S i). split; [exact Hi|]. split; [exact Hm|]. split; [lia|]. split.
           ++ intros j q Hj Hq. destruct j as [|j]; simpl in Hq.
              ** injection Hq as <-. lia.
              ** apply (Hbefore j q); [lia|exact Hq].
           ++ destruct Hmax as [H5|Hall]; [left; exact H5|right].
              intros q [<-|Hq]; [lia|apply Hall, Hq].
    + replace (m0 `max` conv image px) with m0 by lia.
      destruct (Z.geb_spec m0 5) as [H5|_]; [lia|].
      specialize (IH m0 p0 Hm0). cbv zeta in IH.
      destruct IH as [(-> & Hall)|(i & Hi & Hm & Hlt & Hbefore & Hmax)].
      * left. split; [reflexivity|]. intros q [<-|Hq]; [lia|apply Hall, Hq].
      * right. exists (S i). split; [exact Hi|]. split; [exact Hm|]. split; [exact Hlt|]. split.
        -- intros j q Hj Hq. destruct j as [|j]; simpl in Hq.
           ++ injection Hq as <-. lia.
           ++ apply (Hbefore j q); [lia|exact Hq].
        -- destruct Hmax as [H5|Hall]; [left; exact H5|right].
           intros q [<-|Hq]; [lia|apply Hall, Hq].
Qed.

Lemma conv_nonneg (image : BitImage) (px : Z) : 0 <= conv image px.
Proof. unfold conv. lia. Qed.

Lemma estimateIntersection_facts `{StdSort} (image : BitImage) (r0 c0 rows cols : Z) :
  3 <= rows -> 3 <= cols ->
  let pxCenter := pxCenterOf image r0 c0 rows cols in
  let canvas := section image (r0 + 1) (c0 + 1) (rows - 2) (cols - 2) in
  let p := estimateIntersection image r0 c0 rows cols pxCenter in
  In p canvas /\
  (5 <= conv image p \/ forall q, In q canvas -> conv image q <= conv image p) /\
  (forall q, In q canvas -> manhattan image pxCenter q < manhattan image pxCenter p ->
             conv image q < conv image p).
Proof.
  intros Hr Hc pxCenter canvas p. subst p. unfold estimateIntersection, pxsCanvas.
  fold pxCenter. fold canvas.
  set (pxs := std_sort (closerToCenter image pxCenter) canvas).
  pose proof (std_sort_perm (closerToCenter image pxCenter) canvas) as Hperm. fold pxs in Hperm.
  pose proof (std_sort_sorted (closerToCenter image pxCenter) (manhattan image pxCenter)
                canvas ltac:(reflexivity)) as Hsorted. fold pxs in Hsorted.
  assert (Hne : exists q0, In q0 pxs).
  { exists (find image (r0 + 1) (c0 + 1)). apply (Permutation_in _ (symmetry Hperm)).
    apply in_section. exists (r0 + 1), (c0 + 1). repeat split; lia. }
  pose proof (intersectionLoop_spec image pxs (-1) noPixel ltac:(lia)) as Hloop.
  cbv zeta in Hloop.
  destruct Hloop as [(_ & Hall)|(i & Hi & Hm & _ & Hbefore & Hmax)].
  { destruct Hne as [q0 Hq0]. pose proof (Hall q0 Hq0). pose proof (conv_nonneg image q0). lia. }
  set (r := intersectionLoop image pxs (-1) noPixel) in *.
  assert (Hin : In (snd r) pxs).
  { apply list_elem_of_In. eapply list_elem_of_lookup_2. exact Hi. }
  split; [apply (Permutation_in _ Hperm), Hin|]. rewrite <- Hm. split.
  - destruct Hmax as [H5|Hall]; [left; exact H5|right].
    intros q Hq. apply Hall. apply (Permutation_in _ (symmetry Hperm)), Hq.
  - intros q Hq Hnear.
    apply (Permutation_in _ (symmetry Hperm)), list_elem_of_In, list_elem_of_lookup_1 in Hq.
    destruct Hq as [j Hj].
    destruct (Nat.lt_trichotomy j i) as [Hlt|[->|Hgt]].
    + apply (Hbefore j q Hlt Hj).
    + assert (q = snd r) by congruence. subst q. lia.
    + pose proof (Hsorted i j (snd r) q Hgt Hi Hj). lia.
Qed.



End LeafExtras.

(** * The scan of the frame and the runs of on-pixels *)

Module ScanExtras.
Import Merger MergerFacts Leaf LeafFacts.

(** An open run is closed by the first off-pixel, or by the end of the
    frame. *)
Lemma onRunsFrom_open (image : BitImage) (l : list Z) :
  forall pos start len,
    onRunsFrom image l pos (Some (start, len))
    = (start, (len + find_if (isOff image) l)%nat)
      :: onRunsFrom image (drop (find_if (isOff image) l) l)
                    (pos + find_if (isOff image) l)%nat None.
Proof.
  induction l as [|x l IH]; intros pos start len.
  - simpl. rewrite Nat.add_0_r. reflexivity.
  - cbn [onRunsFrom find_if].
    assert (Hoff : isOff image x = negb (isOn image x)) by reflexivity. rewrite Hoff.
    destruct (isOn image x) eqn:Ex; cbn [negb].
    + rewrite IH. cbn [drop]. rewrite <- !Nat.add_succ_comm. reflexivity.
    + rewrite !Nat.add_0_r. cbn [drop onRunsFrom]. rewrite Ex. reflexivity.
Qed.

(** With no run open, the off-pixels up to the first on-pixel give no run,
    and the run that starts there ends at the next off-pixel. *)
Lemma onRunsFrom_closed (image : BitImage) (l : list Z) :
  forall pos,
    let a := find_if (isOn image) l in
    let b := find_if (isOff image) (drop a l) in
    onRunsFrom image l pos None
    = if (a =? length l)%nat then []
      else ((pos + a)%nat, b)
           :: onRunsFrom image (drop (a + b) l) (pos + a + b)%nat None.
Proof.
  induction l as [|x l IH]; intros pos a b; [reflexivity|].
  subst a b. cbn [onRunsFrom find_if]. destruct (isOn image x) eqn:Ex.
  - cbn [Nat.eqb drop length]. rewrite onRunsFrom_open.
    cbn [find_if].
    assert (Hoff : isOff image x = negb (isOn image x)) by reflexivity. rewrite Hoff, Ex.
    cbn [negb].
    rewrite !Nat.add_0_r. cbn [Nat.add drop].
    rewrite <- !Nat.add_succ_comm. reflexivity.
  - rewrite IH. cbn [length Nat.eqb drop].
    destruct (Nat.eqb_spec (find_if (isOn image) l) (length l)); [reflexivity|].
    cbn [Nat.add drop]. rewrite <- !Nat.add_succ_comm. reflexivity.
Qed.

(** The segments of a run of the loop: one for each maximal run of
    on-pixels of the frame from the position the loop starts at. *)
Lemma scanLoop_runs (image : BitImage) (v : list Z) (pxCenter : Z) (fuel : nat) :
  forall st st', scanLoop image v pxCenter fuel st = Some st' ->
    (pxOff st <= length v)%nat ->
    segments st'
    = segments st
      ++ map (fun run => [runMidpoint v run; pxCenter])
             (onRunsFrom image (drop (pxOff st) v) (pxOff st) None).
Proof.
  induction fuel as [|fuel IH]; intros st st' Hrun Hle; [discriminate|].
  cbn [scanLoop] in Hrun.
  rewrite onRunsFrom_closed. cbv zeta.
  pose proof (find_if_le (isOn image) (drop (pxOff st) v)) as Ha.
  rewrite length_drop in *.
  unfold find_from in Hrun.
  set (a := find_if (isOn image) (drop (pxOff st) v)) in *.
  rewrite drop_drop in *.
  pose proof (find_if_le (isOff image) (drop (pxOff st + a) v)) as Hb.
  rewrite length_drop in Hb.
  set (b := find_if (isOff image) (drop (pxOff st + a) v)) in *.
  destruct (Nat.eqb_spec (pxOff st + a) (length v)) as [Heq|Hne].
  - injection Hrun as <-. cbn [segments].
    replace (a =? length v - pxOff st)%nat with true
      by (symmetry; apply Nat.eqb_eq; lia).
    rewrite app_nil_r. reflexivity.
  - replace (a =? length v - pxOff st)%nat with false
      by (symmetry; apply Nat.eqb_neq; lia).
    apply IH in Hrun; [|cbn [pxOff]; lia].
    cbn [pxOff segments] in Hrun. rewrite Hrun, <- app_assoc. f_equal.
    cbn [map app]. unfold runMidpoint at 2. cbn [fst snd].
    replace (pxOff st + a + b - (pxOff st + a))%nat with b by lia.
    rewrite drop_drop. rewrite !Nat.add_assoc. reflexivity.
Qed.

(** X20: the scan of the frame returns, with one segment for each maximal
    run of on-pixels of the rotated frame counted from the position the
    iterator [pxOff] has kept, each from the pixel at offset floor(length / 2)
    of its run to the centre; when the first pixel of the frame is off
    nothing is rotated, and the segments are those of the maximal runs of
    the whole frame. *)
Theorem scan_runs_of_suffix `{StdSort} (image : BitImage) (r0 c0 rows cols : Z) :
  let v := pixelsFrame image r0 c0 rows cols in
  let k := find_if (isOff image) v in
  let pxCenter := pxCenterOf image r0 c0 rows cols in
  exists st, frameScan image r0 c0 rows cols = Some st /\
    segments st
    = map (fun run => [runMidpoint (rotatedFrame image r0 c0 rows cols) run; pxCenter])
          (onRunsFrom image (drop k (rotatedFrame image r0 c0 rows cols)) k None) /\
    (k = 0%nat ->
     segments st = map (fun run => [runMidpoint v run; pxCenter]) (maximalOnRuns image v)).
Proof.
  intros v k pxCenter.
  destruct (frameScan_returns image r0 c0 rows cols) as (st & Hst & _).
  exists st. split; [exact Hst|].
  assert (Hsegs : segments st
    = map (fun run => [runMidpoint (rotatedFrame image r0 c0 rows cols) run; pxCenter])
          (onRunsFrom image (drop k (rotatedFrame image r0 c0 rows cols)) k None)).
  { unfold frameScan in Hst. apply scanLoop_runs in Hst; [exact Hst|].
    cbn [pxOff]. unfold rotatedFrame, rotate.
    rewrite length_app, length_drop, length_take.
    pose proof (find_if_le (isOff image) (pixelsFrame image r0 c0 rows cols)). lia. }
  split; [exact Hsegs|].
  intros Hk. rewrite Hsegs. unfold rotatedFrame, rotate. fold v. fold k.
  rewrite Hk. cbn [drop take]. rewrite app_nil_r. reflexivity.
Qed.

End ScanExtras.

(** * More on the recursive tracer and the entry point *)

Module TracerExtras.
Import Merger MergerFacts MergerExtras Leaf LeafFacts LeafExtras Tracer TracerFacts.

Lemma section_mono (image : BitImage) (r0 c0 rows cols ra ca rowsa colsa px : Z) :
  r0 <= ra -> ra + rowsa <= r0 + rows -> c0 <= ca -> ca + colsa <= c0 + cols ->
  In px (section image ra ca rowsa colsa) -> In px (section image r0 c0 rows cols).
Proof.
  intros H1 H2 H3 H4. rewrite !in_section. intros (r & c & Hr & Hc & ->).
  exists r, c. repeat split; lia.
Qed.

Lemma in_frame_section (image : BitImage) (r0 c0 rows cols px : Z) :
  1 <= rows -> 1 <= cols ->
  In px (pixelsFrame image r0 c0 rows cols) -> In px (section image r0 c0 rows cols).
Proof.
  intros Hr Hc. unfold pixelsFrame. rewrite !in_app_iff, <- !in_rev.
  intros [H|[H|[H|H]]]; revert H; apply section_mono; lia.
Qed.

Lemma fitSegments_traced `{StdSort} (image : BitImage) (r0 c0 rows cols : Z) :
  3 <= rows -> 3 <= cols ->
  Traced image r0 c0 rows cols (fitSegments image r0 c0 rows cols).
Proof.
  intros Hr Hc pl Hpl.
  destruct (fitSegments_shape image r0 c0 rows cols pl Hpl) as (a & b & -> & Ha & _ & Hb).
  split; [simpl; lia|].
  intros px [<-|[<-|[]]].
  - apply in_frame_section; [lia|lia|exact Ha].
  - destruct Hb as [->|[Hb _]].
    + destruct (estimateIntersection_facts image r0 c0 rows cols Hr Hc) as (Hin & _).
      revert Hin. apply section_mono; lia.
    + apply in_frame_section; [lia|lia|exact Hb].
Qed.

Lemma Traced_min_length (image : BitImage) (r0 c0 rows cols : Z) (pls : list (list Z)) :
  Traced image r0 c0 rows cols pls -> Forall (fun pl => (2 <= length pl)%nat) pls.
Proof. intros HT. apply Forall_forall. intros pl Hpl. apply HT, list_elem_of_In, Hpl. Qed.

Lemma merge_traced (image : BitImage) (r0 c0 rows cols : Z) (D S : list (list Z)) :
  Traced image r0 c0 rows cols D -> Traced image r0 c0 rows cols S ->
  Traced image r0 c0 rows cols (mergePolylines D S).
Proof.
  intros HD HS pl Hpl.
  pose proof (Traced_min_length _ _ _ _ _ _ HD) as HDl.
  pose proof (Traced_min_length _ _ _ _ _ _ HS) as HSl.
  split.
  - pose proof (merge_min_length 2 D S HDl HSl) as Hlen.
    rewrite Forall_forall in Hlen. apply Hlen, list_elem_of_In, Hpl.
  - intros px Hpx.
    assert (Hcat : In px (concat (mergePolylines D S))).
    { apply in_concat. exists pl. auto. }
    apply merge_locators in Hcat.
    + apply in_app_iff in Hcat as [Hin|Hin]; apply in_concat in Hin as (q & Hq & Hpxq).
      * apply (HD q Hq), Hpxq.
      * apply (HS q Hq), Hpxq.
    + eapply Forall_impl; [exact HDl|]. intros q Hq E. rewrite E in Hq. simpl in Hq. lia.
    + eapply Forall_impl; [exact HSl|]. intros q Hq E. rewrite E in Hq. simpl in Hq. lia.
Qed.

Lemma Traced_mono (image : BitImage) (r0 c0 rows cols ra ca rowsa colsa : Z)
    (pls : list (list Z)) :
  r0 <= ra -> ra + rowsa <= r0 + rows -> c0 <= ca -> ca + colsa <= c0 + cols ->
  Traced image ra ca rowsa colsa pls -> Traced image r0 c0 rows cols pls.
Proof.
  intros H1 H2 H3 H4 HT pl Hpl. destruct (HT pl Hpl) as [Hlen Hin].
  split; [exact Hlen|]. intros px Hpx. eapply section_mono; eauto.
Qed.

(** Where the halves of a split lie in the section. *)
Lemma halves_inside (image : BitImage) (r0 c0 rows cols iter mss mr : Z) :
  Admissible (r0, c0, rows, cols) ->
  isLeaf rows cols iter mss mr = false ->
  exists ra ca rowsa colsa rb cb rowsb colsb,
    firstHalf image r0 c0 rows cols = (ra, ca, rowsa, colsa) /\
    secondHalf image r0 c0 rows cols = (rb, cb, rowsb, colsb) /\
    Admissible (ra, ca, rowsa, colsa) /\ Admissible (rb, cb, rowsb, colsb) /\
    (r0 <= ra /\ ra + rowsa <= r0 + rows /\ c0 <= ca /\ ca + colsa <= c0 + cols) /\
    (r0 <= rb /\ rb + rowsb <= r0 + rows /\ c0 <= cb /\ cb + colsb <= c0 + cols) /\
    (forall r c, r0 <= r < r0 + rows -> c0 <= c < c0 + cols ->
       (ra <= r < ra + rowsa /\ ca <= c < ca + colsa) \/
       (rb <= r < rb + rowsb /\ cb <= c < cb + colsb)).
Proof.
  intros Hadm Hleaf.
  destruct (halves_admissible image r0 c0 rows cols iter mss mr Hadm Hleaf) as [Ha Hb].
  destruct Hadm as (Hr0 & Hc0 & Hrows & Hcols).
  pose proof (not_leaf_dim _ _ _ _ _ Hleaf) as Hdim.
  assert (Hdim' : 5 <= (if rows >=? cols then rows else cols) <= INT32_MAX)
    by (destruct (rows >=? cols); lia).
  pose proof (split_position image r0 c0 rows cols Hdim') as Hp.
  pose proof (halves image r0 c0 rows cols Hdim' Hc0) as Hh.
  cbv zeta in *.
  destruct (rows >=? cols); destruct Hh as [E1 E2]; rewrite E1, E2 in *;
    do 8 eexists; (split; [reflexivity|]); (split; [reflexivity|]);
    (split; [exact Ha|]); (split; [exact Hb|]); repeat split; try lia;
    intros r c Hr Hc; lia.
Qed.

Lemma recurse_traced `{StdSort} (fuel : nat) (image : BitImage) :
  forall r0 c0 rows cols iter mss mr pls,
    Admissible (r0, c0, rows, cols) ->
    recurse fitSegments mergePolylines [] fuel image r0 c0 rows cols iter mss mr = Some pls ->
    Traced image r0 c0 rows cols pls.
Proof.
  induction fuel as [|fuel IH]; intros r0 c0 rows cols iter mss mr pls Hadm Hrun;
    [discriminate|].
  cbn [recurse] in Hrun.
  destruct (isEmpty image (section image r0 c0 rows cols)).
  { injection Hrun as <-. intros pl []. }
  destruct (isLeaf rows cols iter mss mr) eqn:Hleaf.
  { injection Hrun as <-. destruct Hadm as (_ & _ & Hr & Hc).
    apply fitSegments_traced; lia. }
  destruct (halves_inside image r0 c0 rows cols iter mss mr Hadm Hleaf)
    as (ra & ca & rowsa & colsa & rb & cb & rowsb & colsb & E1 & E2 & Ha & Hb & Ia & Ib & _).
  rewrite E1, E2 in Hrun.
  destruct (recurse _ _ _ fuel image ra ca rowsa colsa _ _ _) as [pa|] eqn:Ea; [|discriminate].
  destruct (recurse _ _ _ fuel image rb cb rowsb colsb _ _ _) as [pb|] eqn:Eb; [|discriminate].
  injection Hrun as <-.
  apply merge_traced.
  - destruct Ia as (? & ? & ? & ?). eapply Traced_mono; [..|eapply IH; [exact Ha|exact Ea]]; lia.
  - destruct Ib as (? & ? & ? & ?). eapply Traced_mono; [..|eapply IH; [exact Hb|exact Eb]]; lia.
Qed.

Lemma fitPolylines_Traced `{StdSort} (image : BitImage) (r0 c0 rows cols iter mss mr : Z) :
  Admissible (r0, c0, rows, cols) ->
  Traced image r0 c0 rows cols (fitPolylines image r0 c0 rows cols iter mss mr).
Proof.
  intros Hadm. destruct Hadm as (Hr0 & Hc0 & Hrows & Hcols).
  eapply recurse_traced; [|apply fitPolylines_total; lia].
  repeat split; lia.
Qed.

(** X14: on a section of three rows and three columns or more, every
    polyline the tracer returns has two locators or more, and every locator
    is a pixel of the section. *)
Theorem fitPolylines_in_section `{StdSort} (image : BitImage)
    (r0 c0 rows cols iter mss mr : Z) :
  0 <= r0 -> 0 <= c0 -> 3 <= rows <= INT32_MAX -> 3 <= cols <= INT32_MAX ->
  forall pl, In pl (fitPolylines image r0 c0 rows cols iter mss mr) ->
    (2 <= length pl)%nat /\
    forall px, In px pl ->
      exists r c, r0 <= r < r0 + rows /\ c0 <= c < c0 + cols /\ px = find image r c.
Proof.
  intros Hr0 Hc0 Hrows Hcols pl Hpl.
  destruct (fitPolylines_Traced image r0 c0 rows cols iter mss mr
              ltac:(repeat split; lia) pl Hpl) as [Hlen Hin].
  split; [exact Hlen|]. intros px Hpx. apply in_section, Hin, Hpx.
Qed.

Lemma fitPolylines_in_section_witness :
  (2 <= length [13%Z; 10%Z; 7%Z])%nat /\
  forall px, In px [13; 10; 7] ->
    exists r c, 0 <= r < 0 + 3 /\ 0 <= c < 0 + 7 /\ px = find Samples.stroke r c.
Proof.
  apply (fitPolylines_in_section (H := InsertionSort) Samples.stroke 0 0 3 7 0 3 INT32_MAX);
    [lia|lia|unfold INT32_MAX; lia|unfold INT32_MAX; lia|].
  vm_compute. left. reflexivity.
Defined.

(** X15: every section handed to the leaf fitter lies inside the section the
    tracer was called on, and together they hold all its on-pixels: no
    on-pixel is lost by the splits. *)
Theorem leafSections_cover (fuel : nat) (image : BitImage) :
  forall r0 c0 rows cols iter mss mr secs,
    0 <= r0 -> 0 <= c0 -> 3 <= rows <= INT32_MAX -> 3 <= cols <= INT32_MAX ->
    leafSections fuel image r0 c0 rows cols iter mss mr = Some secs ->
    (forall sec, In sec secs ->
       let '(ra, ca, rowsa, colsa) := sec in
       r0 <= ra /\ ra + rowsa <= r0 + rows /\ c0 <= ca /\ ca + colsa <= c0 + cols) /\
    (forall r c, r0 <= r < r0 + rows -> c0 <= c < c0 + cols ->
       deref image (find image r c) <> 0 ->
       exists ra ca rowsa colsa, In (ra, ca, rowsa, colsa) secs /\
         ra <= r < ra + rowsa /\ ca <= c < ca + colsa).
Proof.
  unfold leafSections.
  induction fuel as [|fuel IH];
    intros r0 c0 rows cols iter mss mr secs Hr0 Hc0 Hrows Hcols Hrun; [discriminate|].
  cbn [recurse] in Hrun.
  destruct (isEmpty image (section image r0 c0 rows cols)) eqn:Hempty.
  { injection Hrun as <-. split; [intros sec []|].
    intros r c Hr Hc Hon. exfalso.
    unfold isEmpty in Hempty. apply negb_true_iff in Hempty.
    assert (Hex : existsb (fun px => truthy (deref image px)) (section image r0 c0 rows cols)
                  = true).
    { apply existsb_exists. exists (find image r c). split.
      - apply in_section. exists r, c. auto.
      - unfold truthy. apply negb_true_iff, Z.eqb_neq, Hon. }
    congruence. }
  destruct (isLeaf rows cols iter mss mr) eqn:Hleaf.
  { injection Hrun as <-. split.
    - intros sec [<-|[]]. lia.
    - intros r c Hr Hc _. exists r0, c0, rows, cols. split; [left; reflexivity|lia]. }
  destruct (halves_inside image r0 c0 rows cols iter mss mr ltac:(repeat split; lia) Hleaf)
    as (ra & ca & rowsa & colsa & rb & cb & rowsb & colsb & E1 & E2 & Ha & Hb & Ia & Ib & Hcov).
  rewrite E1, E2 in Hrun.
  destruct (recurse _ _ _ fuel image ra ca rowsa colsa _ _ _) as [sa|] eqn:Ea; [|discriminate].
  destruct (recurse _ _ _ fuel image rb cb rowsb colsb _ _ _) as [sb|] eqn:Eb; [|discriminate].
  injection Hrun as <-.
  destruct Ha as (Ha1 & Ha2 & Ha3 & Ha4). destruct Hb as (Hb1 & Hb2 & Hb3 & Hb4).
  destruct (IH _ _ _ _ _ _ _ _ Ha1 Ha2 Ha3 Ha4 Ea) as [Hina Hcova].
  destruct (IH _ _ _ _ _ _ _ _ Hb1 Hb2 Hb3 Hb4 Eb) as [Hinb Hcovb].
  split.
  - intros sec Hsec. apply in_app_iff in Hsec as [Hsec|Hsec].
    + specialize (Hina sec Hsec). destruct sec as [[[r c] h] w]. lia.
    + specialize (Hinb sec Hsec). destruct sec as [[[r c] h] w]. lia.
  - intros r c Hr Hc Hon. destruct (Hcov r c Hr Hc) as [[Hra Hca]|[Hrb Hcb]].
    + destruct (Hcova r c Hra Hca Hon) as (r' & c' & h & w & Hin & Hb').
      exists r', c', h, w. split; [apply in_or_app; left; exact Hin|exact Hb'].
    + destruct (Hcovb r c Hrb Hcb Hon) as (r' & c' & h & w & Hin & Hb').
      exists r', c', h, w. split; [apply in_or_app; right; exact Hin|exact Hb'].
Qed.

Lemma leafSections_cover_witness :
  (forall sec, In sec [(0, 0, 3, 4); (0, 3, 3, 4)] ->
     let '(ra, ca, rowsa, colsa) := sec in
     0 <= ra /\ ra + rowsa <= 0 + 3 /\ 0 <= ca /\ ca + colsa <= 0 + 7) /\
  (forall r c, 0 <= r < 0 + 3 -> 0 <= c < 0 + 7 ->
     deref Samples.stroke (find Samples.stroke r c) <> 0 ->
     exists ra ca rowsa colsa, In (ra, ca, rowsa, colsa) [(0, 0, 3, 4); (0, 3, 3, 4)] /\
       ra <= r < ra + rowsa /\ ca <= c < ca + colsa).
Proof.
  apply (leafSections_cover (depthBound 3 7) Samples.stroke 0 0 3 7 0 3 INT32_MAX);
    [lia|lia|unfold INT32_MAX; lia|unfold INT32_MAX; lia|].
  vm_compute. reflexivity.
Defined.

End TracerExtras.

Module EntryExtras.
Import Thinner ThinnerFacts ThinnerExtras Tracer TracerFacts TracerExtras Entry.

Lemma to_size_t_guard (z : Z) :
  0 <= z <= INT32_MAX -> (to_size_t z <? 3) = false -> 3 <= z.
Proof.
  unfold to_size_t, INT32_MAX. intros Hz Hg. apply Z.ltb_ge in Hg.
  rewrite Z.mod_small in Hg by lia. exact Hg.
Qed.

Lemma entry_points_facts `{StdSort} (image : BitImage)
    (minSectionSize maxRecursions : N) (doThinning : bool) :
  0 <= m_rows image <= INT32_MAX -> 0 <= m_cols image <= INT32_MAX ->
  forall pl, In pl (polylines (fitPolylines image minSectionSize maxRecursions doThinning)) ->
    (2 <= length pl)%nat /\
    forall rc, In rc pl ->
      0 <= fst rc < m_rows image /\ 0 <= snd rc < m_cols image.
Proof.
  intros Hrows Hcols pl. unfold fitPolylines.
  destruct (to_size_t (m_rows image) <? 3) eqn:Gr; [intros []|].
  destruct (to_size_t (m_cols image) <? 3) eqn:Gc; [intros []|].
  simpl orb. cbv iota zeta. cbn [polylines].
  apply to_size_t_guard in Gr; [|exact Hrows]. apply to_size_t_guard in Gc; [|exact Hcols].
  set (image' := if doThinning then thinImage image else image).
  assert (Hdims : m_rows image' = m_rows image /\ m_cols image' = m_cols image).
  { subst image'. destruct doThinning; [apply thinImage_dims|auto]. }
  destruct Hdims as [Er Ec].
  intros Hpl. apply in_map_iff in Hpl as (pxs & <- & Hpxs).
  apply fitPolylines_Traced in Hpxs; [|rewrite Er, Ec; repeat split; lia].
  destruct Hpxs as [Hlen Hin]. split; [rewrite length_map; exact Hlen|].
  intros rc Hrc. apply in_map_iff in Hrc as (px & <- & Hpx).
  apply Hin, in_section in Hpx as (r & c & Hr & Hc & ->).
  rewrite coords_find by lia. cbn [fst snd]. lia.
Qed.

(** X16: for an image whose dimensions are non-negative [int32_t] values,
    every polyline the entry point returns has two points or more, and every
    point (row, column) it returns is a pixel of the image. *)
Theorem entry_points_in_image `{StdSort} (image : BitImage)
    (minSectionSize maxRecursions : N) (doThinning : bool) :
  0 <= m_rows image <= INT32_MAX -> 0 <= m_cols image <= INT32_MAX ->
  forall pl, In pl (polylines (fitPolylines image minSectionSize maxRecursions doThinning)) ->
    (2 <= length pl)%nat /\
    forall rc, In rc pl ->
      0 <= fst rc < m_rows image /\ 0 <= snd rc < m_cols image.
Proof. apply entry_points_facts. Qed.

Lemma entry_points_in_image_witness :
  (2 <= length [(0%Z, 1%Z); (1%Z, 1%Z)])%nat /\
  forall rc, In rc [(0, 1); (1, 1)] -> 0 <= fst rc < 3 /\ 0 <= snd rc < 3.
Proof.
  apply (entry_points_in_image (H := InsertionSort) Samples.cross 3 0 true);
    [unfold INT32_MAX; simpl; lia|unfold INT32_MAX; simpl; lia|].
  vm_compute. left. reflexivity.
Defined.

Lemma entry_all_off_facts `{StdSort} (image : BitImage)
    (minSectionSize maxRecursions : N) (doThinning : bool) :
  (forall px, deref image px = 0) ->
  polylines (fitPolylines image minSectionSize maxRecursions doThinning) = [].
Proof.
  intros Hoff. unfold fitPolylines.
  destruct (_ || _); [reflexivity|]. cbv zeta. cbn [polylines].
  assert (Hthin : (if doThinning then thinImage image else image) = image).
  { destruct doThinning; [|reflexivity]. apply thinImage_unchanged. intros px _. apply Hoff. }
  rewrite Hthin. unfold Tracer.fitPolylines, depthBound. cbn [recurse].
  assert (Hempty : isEmpty image (section image 0 0 (m_rows image) (m_cols image)) = true).
  { unfold isEmpty. apply negb_true_iff.
    destruct (existsb _ _) eqn:E; [|reflexivity].
    apply existsb_exists in E as (px & _ & Hon).
    unfold truthy in Hon. rewrite Hoff in Hon. discriminate. }
  rewrite Hempty. reflexivity.
Qed.

(** X17: an image without any on-pixel gives no polyline, whatever its size
    and the options. *)
Theorem entry_all_off `{StdSort} (image : BitImage)
    (minSectionSize maxRecursions : N) (doThinning : bool) :
  (forall px, deref image px = 0) ->
  polylines (fitPolylines image minSectionSize maxRecursions doThinning) = [].
Proof. apply entry_all_off_facts. Qed.

Lemma entry_all_off_witness :
  polylines (fitPolylines (H := InsertionSort) (mkBitImage [0; 0; 0; 0; 0; 0; 0; 0; 0] 3 3)
                          3 0 true) = [].
Proof.
  apply entry_all_off. intros px. unfold deref. cbn [bits].
  destruct (px <? 0); [reflexivity|].
  destruct (Z.to_nat px) as [|[|[|[|[|[|[|[|[|n]]]]]]]]]; reflexivity.
Defined.

Lemma BitImage_from_off {TP : Type} (imageData : list TP) (isPixelOn : TP -> bool)
    (rows cols : Z) :
  (forall p, In p imageData -> isPixelOn p = false) ->
  forall px, deref (BitImage_from imageData isPixelOn rows cols) px = 0.
Proof.
  intros Hoff px. unfold deref, BitImage_from. cbn [bits].
  destruct (px <? 0); [reflexivity|].
  destruct (_ !! Z.to_nat px) as [b|] eqn:E; [|reflexivity]. cbn [default].
  apply lookup_take_Some in E as [E _].
  apply list_elem_of_lookup_2, list_elem_of_In, in_app_iff in E as [E|E].
  - apply in_map_iff in E as (p & <- & Hp). rewrite (Hoff p Hp). reflexivity.
  - apply list_elem_of_In, elem_of_replicate in E as [-> _]. reflexivity.
Qed.

(** With a product that fits an [int32_t] the constructor returns, and the
    public template is the call on the image it builds. *)
Lemma fitPolylines_template_public `{StdSort} {TP : Type} (imageData : list TP)
    (rows cols : N) (isPixelOn : TP -> bool)
    (minSectionSize maxRecursions : N) (doThinning : bool) :
  Z.of_N rows * Z.of_N cols <= INT32_MAX ->
  fitPolylines_template imageData rows cols isPixelOn
                        minSectionSize maxRecursions doThinning
  = Some (fitPolylines_public imageData rows cols isPixelOn
                              minSectionSize maxRecursions doThinning).
Proof.
  intros Hproduct. unfold fitPolylines_template, fitPolylines_public.
  rewrite EntryClaims.BitImage_new_in_range by (apply EntryClaims.cast_product, Hproduct).
  reflexivity.
Qed.

(** X25: the public template, on a buffer of rows * cols pixels with rows,
    columns and their product below 2^31: every polyline returned has two
    points or more, every point (row, column) satisfies 0 <= row < rows and
    0 <= column < cols, and no polyline is returned when the predicate
    rejects every pixel. *)
Theorem public_points_in_image `{StdSort} {TP : Type} (imageData : list TP)
    (rows cols : N) (isPixelOn : TP -> bool)
    (minSectionSize maxRecursions : N) (doThinning : bool) :
  Z.of_N rows <= INT32_MAX -> Z.of_N cols <= INT32_MAX ->
  Z.of_N rows * Z.of_N cols <= INT32_MAX ->
  Z.of_nat (length imageData) = Z.of_N rows * Z.of_N cols ->
  let out := polylines (fitPolylines_public imageData rows cols isPixelOn
                                            minSectionSize maxRecursions doThinning) in
  (forall pl, In pl out ->
     (2 <= length pl)%nat /\
     forall rc, In rc pl -> 0 <= fst rc < Z.of_N rows /\ 0 <= snd rc < Z.of_N cols) /\
  ((forall p, In p imageData -> isPixelOn p = false) -> out = []).
Proof.
  intros Hrows Hcols _ _ out. subst out. unfold fitPolylines_public.
  assert (Hr : to_int32 (Z.of_N rows) = Z.of_N rows).
  { unfold to_int32, INT32_MAX in *. rewrite Z.mod_small by lia. lia. }
  assert (Hc : to_int32 (Z.of_N cols) = Z.of_N cols).
  { unfold to_int32, INT32_MAX in *. rewrite Z.mod_small by lia. lia. }
  rewrite Hr, Hc. split.
  - intros pl Hpl.
    apply (entry_points_facts (BitImage_from imageData isPixelOn (Z.of_N rows) (Z.of_N cols))
             minSectionSize maxRecursions doThinning); cbn [m_rows m_cols BitImage_from];
      [lia|lia|exact Hpl].
  - intros Hoff. apply entry_all_off_facts. apply BitImage_from_off, Hoff.
Qed.

Lemma public_points_in_image_witness :
  let out := polylines (fitPolylines_public (H := InsertionSort)
                          [false; true; false; true; true; true; false; true; false]
                          3 3 (fun b : bool => b) 3 0 true) in
  (forall pl, In pl out ->
     (2 <= length pl)%nat /\
     forall rc, In rc pl -> 0 <= fst rc < 3 /\ 0 <= snd rc < 3) /\
  ((forall p, In p [false; true; false; true; true; true; false; true; false] ->
      (fun b : bool => b) p = false) -> out = []).
Proof.
  apply (public_points_in_image (H := InsertionSort)
           [false; true; false; true; true; true; false; true; false]
           3 3 (fun b : bool => b) 3 0 true); unfold INT32_MAX; simpl; lia.
Defined.

End EntryExtras.

(** * The options of the tracer *)

Module OptionExtras.
Import Tracer TracerFacts Entry.

(** X18: the recursion never goes deeper than [maxRecursions]: called at
    depth [iter], it hands at most 2 ^ (maxRecursions - iter) sections to the
    leaf fitter, and one at most when [iter] has reached [maxRecursions]. *)
Theorem leafSections_bound (fuel : nat) (image : BitImage) :
  forall r0 c0 rows cols iter mss mr secs,
    leafSections fuel image r0 c0 rows cols iter mss mr = Some secs ->
    Z.of_nat (length secs) <= 2 ^ Z.max 0 (mr - iter).
Proof.
  unfold leafSections.
  induction fuel as [|fuel IH]; intros r0 c0 rows cols iter mss mr secs Hrun; [discriminate|].
  cbn [recurse] in Hrun.
  assert (Hpos : 1 <= 2 ^ Z.max 0 (mr - iter)).
  { pose proof (Z.pow_pos_nonneg 2 (Z.max 0 (mr - iter)) ltac:(lia) ltac:(lia)). lia. }
  destruct (isEmpty image (section image r0 c0 rows cols)).
  { injection Hrun as <-. simpl. lia. }
  destruct (isLeaf rows cols iter mss mr) eqn:Hleaf.
  { injection Hrun as <-. simpl. lia. }
  assert (Hdepth : iter < mr).
  { unfold isLeaf in Hleaf. apply orb_false_iff in Hleaf as [Hge _].
    rewrite Z.geb_leb in Hge. apply Z.leb_gt in Hge. exact Hge. }
  destruct (firstHalf image r0 c0 rows cols) as [[[ra ca] rowsa] colsa].
  destruct (secondHalf image r0 c0 rows cols) as [[[rb cb] rowsb] colsb].
  destruct (recurse _ _ _ fuel image ra ca rowsa colsa _ _ _) as [sa|] eqn:Ea; [|discriminate].
  destruct (recurse _ _ _ fuel image rb cb rowsb colsb _ _ _) as [sb|] eqn:Eb; [|discriminate].
  injection Hrun as <-. apply IH in Ea, Eb. rewrite length_app, Nat2Z.inj_add.
  replace (Z.max 0 (mr - iter)) with (Z.succ (Z.max 0 (mr - (iter + 1)))) by lia.
  rewrite Z.pow_succ_r by lia. lia.
Qed.

Lemma leafSections_bound_witness :
  Z.of_nat (length [(0, 0, 3, 4); (0, 3, 3, 4)]) <= 2 ^ Z.max 0 (2 - 0).
Proof.
  apply (leafSections_bound 5 Samples.stroke 0 0 3 7 0 3 2). vm_compute. reflexivity.
Defined.

Lemma isLeaf_floor (rows cols iter mss mr : Z) :
  isLeaf rows cols iter mss mr = isLeaf rows cols iter (Z.max mss 5) mr.
Proof. unfold isLeaf. rewrite <- Z.max_assoc, Z.max_id. reflexivity. Qed.

Lemma recurse_floor {A : Type} (leaf : BitImage -> Z -> Z -> Z -> Z -> A)
    (merge : A -> A -> A) (none : A) (fuel : nat) (image : BitImage) :
  forall r0 c0 rows cols iter mss mr,
    recurse leaf merge none fuel image r0 c0 rows cols iter mss mr
    = recurse leaf merge none fuel image r0 c0 rows cols iter (Z.max mss 5) mr.
Proof.
  induction fuel as [|fuel IH]; intros r0 c0 rows cols iter mss mr; [reflexivity|].
  cbn [recurse]. rewrite <- isLeaf_floor.
  destruct (isEmpty _ _); [reflexivity|]. destruct (isLeaf _ _ _ _ _); [reflexivity|].
  destruct (firstHalf image r0 c0 rows cols) as [[[ra ca] rowsa] colsa].
  destruct (secondHalf image r0 c0 rows cols) as [[[rb cb] rowsb] colsb].
  rewrite <- !IH. reflexivity.
Qed.

(** X19: the minimum section size acts through max(minSectionSize, 5) only:
    every value from 0 to 5, the default 3 included, gives the same
    outcome as 5. *)
Theorem minSectionSize_floor `{StdSort} (image : BitImage)
    (minSectionSize maxRecursions : N) (doThinning : bool) :
  (minSectionSize <= 5)%N ->
  fitPolylines image minSectionSize maxRecursions doThinning
  = fitPolylines image 5 maxRecursions doThinning.
Proof.
  intros Hle. unfold fitPolylines. destruct (_ || _); [reflexivity|]. cbv zeta.
  f_equal. f_equal. unfold Tracer.fitPolylines. f_equal.
  rewrite recurse_floor. symmetry. rewrite recurse_floor. symmetry.
  f_equal.
  assert (Hsmall : forall z, 0 <= z <= 5 -> to_int32 z = z).
  { intros z Hz. unfold to_int32. rewrite Z.mod_small by lia. lia. }
  rewrite !Hsmall by lia. lia.
Qed.

Lemma minSectionSize_floor_witness :
  fitPolylines (H := InsertionSort) Samples.stroke 3 0 true
  = fitPolylines (H := InsertionSort) Samples.stroke 5 0 true.
Proof. apply minSectionSize_floor. lia. Defined.

End OptionExtras.

(** * The segment fitter *)

Module FittingFacts.
Import Entry Tracer FittingUtils SegmentFitting.

Lemma int32_keeps (z : Z) : 0 <= z <= INT32_MAX -> to_int32 z = z.
Proof.
  unfold INT32_MAX, to_int32. intros Hz.
  rewrite Z.mod_small by lia. lia.
Qed.

Lemma size_t_keeps (z : Z) : 0 <= z <= INT32_MAX -> to_size_t z = z.
Proof. unfold INT32_MAX, to_size_t. intros Hz. apply Z.mod_small. lia. Qed.

Lemma marked_nonneg (flags : list bool) : 0 <= marked flags.
Proof. unfold marked. lia. Qed.

Lemma marked_replicate (k : nat) : marked (replicate k false) = 0.
Proof. unfold marked. induction k as [|k IH]; simpl; [reflexivity|exact IH]. Qed.

Lemma marked_insert (flags : list bool) (i : nat) :
  flags !! i = Some false -> marked (<[i := true]> flags) = marked flags + 1.
Proof.
  unfold marked. revert i. induction flags as [|b flags IH]; intros i Hi; [destruct i; discriminate|].
  destruct i as [|i]; simpl in *.
  - injection Hi as ->. simpl. lia.
  - specialize (IH i Hi). destruct b; simpl; lia.
Qed.

Section Sampling.
Context {TFloat : Type} `{FloatFit TFloat}.
Context {G : Type} `{UniformGen G}.
Context {Point : Type}.
Variable get2DCoords : Point -> TFloat * TFloat.
Variable points : list Point.
Variable slope offset maxSquaredDistance smallestSumSquaredDistance : TFloat.

Hypothesis Hint : nPoints points <= INT32_MAX.

(** A pass marks one point that had no mark, and reads inside its ranges. *)
Lemma samplePass_inv (n0 : Z) (st : Sampling) :
  FloydInv (nPoints points) n0 (wasSampled st) (n st) ->
  n st < nPoints points ->
  exists st', samplePass get2DCoords points slope offset maxSquaredDistance st = Returns st' /\
              n st' = n st + 1 /\
              FloydInv (nPoints points) n0 (wasSampled st') (n st').
Proof.
  intros (Hlen & Hn0 & Hn & Hmarked & Hbelow) Hlt. unfold samplePass.
  pose proof (uniform_int_range (to_int32 0) (to_int32 (n st)) (gen st)) as Hrange.
  destruct (uniform_int (to_int32 0) (to_int32 (n st)) (gen st)) as [i0 g].
  rewrite !int32_keeps in Hrange by (unfold INT32_MAX in *; lia).
  cbn [fst] in Hrange. specialize (Hrange ltac:(lia)).
  rewrite (size_t_keeps i0) by lia.
  destruct (lookup_lt_is_Some_2 (wasSampled st) (Z.to_nat i0) ltac:(lia)) as [was Hwas].
  rewrite Hwas.
  set (i := if was then to_int32 (n st) else i0).
  assert (Hi : 0 <= i < nPoints points /\ i <= n st /\ wasSampled st !! Z.to_nat i = Some false).
  { subst i. destruct was.
    - rewrite int32_keeps by lia. split; [lia|]. split; [lia|].
      destruct (lookup_lt_is_Some_2 (wasSampled st) (Z.to_nat (n st)) ltac:(lia)) as [b Hb].
      destruct b; [|exact Hb]. apply Hbelow in Hb. lia.
    - split; [lia|]. split; [lia|exact Hwas]. }
  destruct Hi as (Hi & Hile & Hfree).
  rewrite (size_t_keeps i) by lia.
  replace (Z.to_nat i <? length (wasSampled st))%nat with true
    by (symmetry; apply Nat.ltb_lt; lia).
  unfold element. replace (i <? 0) with false by (symmetry; apply Z.ltb_ge; lia).
  destruct (lookup_lt_is_Some_2 points (Z.to_nat i) ltac:(unfold nPoints in *; lia)) as [p Hp].
  rewrite Hp. eexists. split; [reflexivity|]. cbn [n wasSampled]. split; [reflexivity|].
  split; [rewrite length_insert; exact Hlen|]. split; [lia|]. split; [lia|]. split.
  - rewrite (marked_insert _ _ Hfree). lia.
  - intros j Hj. destruct (Nat.eq_dec j (Z.to_nat i)) as [->|Hne]; [lia|].
    rewrite list_lookup_insert_ne in Hj by congruence. apply Hbelow in Hj. lia.
Qed.

Lemma sampleLoop_inv (n0 : Z) (fuel : nat) :
  forall st, FloydInv (nPoints points) n0 (wasSampled st) (n st) ->
    (Z.to_nat (nPoints points - n st) < fuel)%nat ->
    exists st', sampleLoop get2DCoords points slope offset maxSquaredDistance
                           smallestSumSquaredDistance fuel st = Some (Returns st') /\
                FloydInv (nPoints points) n0 (wasSampled st') (n st') /\
                (n st' = nPoints points \/
                 f_lt (sumSquaredDistance st') smallestSumSquaredDistance = false).
Proof.
  induction fuel as [|fuel IH]; intros st Hinv Hfuel; [lia|].
  cbn [sampleLoop].
  destruct (Z.ltb_spec (n st) (nPoints points)) as [Hlt|Hge].
  - destruct (f_lt (sumSquaredDistance st) smallestSumSquaredDistance) eqn:Esum; cbn [andb].
    + destruct (samplePass_inv n0 st Hinv Hlt) as (st1 & -> & Hn1 & Hinv1).
      apply IH; [exact Hinv1|lia].
    + exists st. split; [reflexivity|]. split; [exact Hinv|right; exact Esum].
  - cbn [andb]. exists st. split; [reflexivity|]. split; [exact Hinv|].
    left. destruct Hinv as (_ & _ & Hn & _). lia.
Qed.

(** The loop adds to [segmentPoints] at its end. *)
Lemma sampleLoop_points (fuel : nat) :
  forall st st', sampleLoop get2DCoords points slope offset maxSquaredDistance
                            smallestSumSquaredDistance fuel st = Some (Returns st') ->
    exists more, segmentPoints st' = segmentPoints st ++ more.
Proof.
  induction fuel as [|fuel IH]; intros st st' Hrun; [discriminate|].
  cbn [sampleLoop] in Hrun.
  destruct (_ && _).
  - destruct (samplePass get2DCoords points slope offset maxSquaredDistance st)
      as [st1|s] eqn:Epass; [|discriminate].
    apply IH in Hrun as [more Hmore]. rewrite Hmore.
    unfold samplePass in Epass.
    destruct (uniform_int _ _ _) as [i0 g].
    destruct (_ : option bool) as [was|]; [|discriminate].
    destruct (_ <? _)%nat; [|discriminate].
    destruct (element points _) as [p|]; [|discriminate].
    injection Epass as <-. cbn [segmentPoints].
    destruct (f_le _ _).
    + rewrite <- app_assoc. eexists. reflexivity.
    + eexists. reflexivity.
  - injection Hrun as <-. exists []. rewrite app_nil_r. reflexivity.
Qed.

Lemma FloydInv_start (nSamples : Z) :
  0 <= nSamples <= nPoints points ->
  FloydInv (nPoints points) (nPoints points - nSamples)
           (replicate (length points) false) (nPoints points - nSamples).
Proof.
  intros Hs. unfold FloydInv. rewrite length_replicate, marked_replicate.
  split; [reflexivity|]. split; [lia|]. split; [lia|]. split; [lia|].
  intros j Hj. apply lookup_replicate in Hj as [Hj _]. discriminate.
Qed.

End Sampling.

Section Fitting.
Context {TFloat : Type} `{FloatFit TFloat}.
Context {G : Type} `{UniformGen G}.
Context {Point : Type}.
Variable get2DCoords : Point -> TFloat * TFloat.
Variable indeterminate_mse : TFloat.
Variable indeterminate_isValid : bool.

Local Abbreviation iteration' := (iteration get2DCoords).
Local Abbreviation iterations' := (iterations get2DCoords).
Local Abbreviation Default := (Segment2D_default indeterminate_mse indeterminate_isValid).

(** The two indices of an iteration number points of the range. *)
Lemma drawB_range (points : list Point) (draws : nat) (iA : Z) :
  2 <= nPoints points <= INT32_MAX ->
  forall g iB g', drawB points draws iA g = Returns (iB, g') ->
    0 <= iB < nPoints points /\ iB <> iA.
Proof.
  intros Hn. induction draws as [|draws IH]; intros g iB g' Hrun; [discriminate|].
  cbn [drawB] in Hrun.
  pose proof (uniform_int_range (to_int32 0) (to_int32 (nPoints points - 1)) g) as Hrange.
  destruct (uniform_int (to_int32 0) (to_int32 (nPoints points - 1)) g) as [i g1].
  rewrite !int32_keeps in Hrange by (unfold INT32_MAX in *; lia).
  cbn [fst] in Hrange. specialize (Hrange ltac:(lia)).
  destruct (Z.eqb_spec iA i) as [->|Hne].
  - apply (IH _ _ _ Hrun).
  - injection Hrun as <- <-. split; [lia|congruence].
Qed.

Lemma drawB_stops (points : list Point) (draws : nat) (iA : Z) :
  forall g s, drawB points draws iA g = Stops s -> s = DrawsSpent.
Proof.
  induction draws as [|draws IH]; intros g s Hrun.
  - injection Hrun as <-. reflexivity.
  - cbn [drawB] in Hrun.
    destruct (uniform_int (to_int32 0) (to_int32 (nPoints points - 1)) g) as [i g1].
    destruct (iA =? i); [apply (IH _ _ Hrun)|discriminate].
Qed.

Lemma element_in_range (points : list Point) (i : Z) :
  0 <= i < nPoints points -> exists p, element points i = Some p /\ In p points.
Proof.
  intros Hi. unfold element. replace (i <? 0) with false by (symmetry; apply Z.ltb_ge; lia).
  destruct (lookup_lt_is_Some_2 points (Z.to_nat i) ltac:(unfold nPoints in *; lia)) as [p Hp].
  exists p. split; [exact Hp|]. apply list_elem_of_In. eapply list_elem_of_lookup_2. exact Hp.
Qed.

(** An iteration stops only for want of draws; when it goes on it has kept
    [bestFitSegment] or written a valid segment; and on two points that are
    equal it keeps its variables. *)
Lemma iteration_spec (points : list Point) (draws : nat) (nSamples : Z)
    (maxSquaredDistance : TFloat) (best : Segment2D) (smallest : TFloat) (g : G) :
  2 <= nPoints points <= INT32_MAX -> 1 <= nSamples <= nPoints points ->
  match iteration' points draws nSamples maxSquaredDistance (best, smallest, g) with
  | Stops s => s = DrawsSpent
  | Returns (best', smallest', _) =>
      (best' = best /\ smallest' = smallest) \/
      (m_isValid best' = true /\ (exists a b, In a points /\ In b points /\
         arePointsEqual (get2DCoords a) (get2DCoords b) = false))
  end.
Proof.
  intros Hn Hs. unfold iteration.
  pose proof (uniform_int_range (to_int32 0) (to_int32 (nPoints points - 1)) g) as Hrange.
  destruct (uniform_int (to_int32 0) (to_int32 (nPoints points - 1)) g) as [iA g1].
  rewrite !int32_keeps in Hrange by (unfold INT32_MAX in *; lia).
  cbn [fst] in Hrange. specialize (Hrange ltac:(lia)).
  destruct (drawB points draws iA g1) as [[iB g2]|s] eqn:EB; [|apply (drawB_stops _ _ _ _ _ EB)].
  apply drawB_range in EB as [HiB _]; [|exact Hn].
  destruct (element_in_range points iA ltac:(lia)) as (a & -> & Ha).
  destruct (element_in_range points iB HiB) as (b & -> & Hb).
  destruct (f_isnan (computeSlope (get2DCoords a) (get2DCoords b))) eqn:Enan.
  { left. split; reflexivity. }
  assert (Hdiff : arePointsEqual (get2DCoords a) (get2DCoords b) = false).
  { destruct (arePointsEqual (get2DCoords a) (get2DCoords b)) eqn:E; [|reflexivity].
    unfold computeSlope in Enan. rewrite E, f_isnan_quiet_NaN in Enan. discriminate. }
  match goal with
  | |- context [sampleLoop ?gc ?p ?sl ?off ?mx ?sm ?fu ?st] =>
      destruct (sampleLoop_inv gc p sl off mx sm ltac:(lia) (nPoints points - nSamples) fu st)
        as (st' & Hloop & Hinv & _)
  end.
  { cbn [wasSampled n]. apply FloydInv_start. lia. }
  { cbn [n]. lia. }
  rewrite Hloop. apply sampleLoop_points in Hloop as [more Hmore]. cbn [segmentPoints] in Hmore.
  destruct (f_le smallest (sumSquaredDistance st')).
  { left. split; reflexivity. }
  rewrite Hmore. cbn [app]. right. split; [reflexivity|]. exists a, b. auto.
Qed.

End Fitting.
End FittingFacts.

Module FittingExtras.
Import Entry Tracer FittingUtils SegmentFitting FittingFacts.

Section Fitting.
Context {TFloat : Type} `{FloatFit TFloat}.
Context {G : Type} `{UniformGen G}.
Context {Point : Type}.
Variable get2DCoords : Point -> TFloat * TFloat.
Variable indeterminate_mse : TFloat.
Variable indeterminate_isValid : bool.

(** X21: the sampling loop of an iteration, on a range of at most 2^31 - 1
    points and started as the source starts it, comes to its end without an
    exception and without an access outside its ranges.  Every pass marks a
    point that was not marked: when the loop is left the marks are as many as
    the passes made, and they are [nSamples] if the loop was not cut short by
    the sum of the distances. *)
Theorem floyd_sampling (points : list Point)
    (slope offset maxSquaredDistance smallest : TFloat)
    (nSamples : Z) (sum0 : TFloat) (pts0 : list (TFloat * TFloat)) (g : G) :
  nPoints points <= INT32_MAX -> 1 <= nSamples <= nPoints points ->
  exists st,
    sampleLoop get2DCoords points slope offset maxSquaredDistance smallest
               (S (Z.to_nat nSamples))
               (mkSampling sum0 pts0 (replicate (length points) false)
                           (nPoints points - nSamples) g)
    = Some (Returns st) /\
    length (wasSampled st) = length points /\
    nPoints points - nSamples <= n st <= nPoints points /\
    marked (wasSampled st) = n st - (nPoints points - nSamples) /\
    (forall j : nat, wasSampled st !! j = Some true -> Z.of_nat j < n st) /\
    (f_lt (sumSquaredDistance st) smallest = true ->
     n st = nPoints points /\ marked (wasSampled st) = nSamples).
Proof.
  intros Hint Hs.
  destruct (sampleLoop_inv get2DCoords points slope offset maxSquaredDistance smallest Hint
              (nPoints points - nSamples) (S (Z.to_nat nSamples))
              (mkSampling sum0 pts0 (replicate (length points) false)
                          (nPoints points - nSamples) g))
    as (st & Hloop & (Hlen & Hn0 & Hn & Hmarked & Hbelow) & Hend).
  { cbn [wasSampled n]. apply FloydInv_start. lia. }
  { cbn [n]. lia. }
  exists st. split; [exact Hloop|]. split; [unfold nPoints in Hlen; lia|].
  split; [lia|]. split; [exact Hmarked|]. split; [exact Hbelow|].
  intros Hsum. destruct Hend as [Hend|Hend]; [|congruence]. lia.
Qed.

Local Abbreviation Default := (Segment2D_default indeterminate_mse indeterminate_isValid).

Lemma iterations_spec (points : list Point) (draws : nat) (nSamples : Z)
    (maxSquaredDistance : TFloat) (nIterations : nat) :
  2 <= nPoints points <= INT32_MAX -> 1 <= nSamples <= nPoints points ->
  forall best smallest g,
    match iterations get2DCoords points draws nSamples maxSquaredDistance nIterations
                     (best, smallest, g) with
    | Stops s => s = DrawsSpent
    | Returns (best', _, _) =>
        best' = best \/
        (m_isValid best' = true /\ (exists a b, In a points /\ In b points /\
           arePointsEqual (get2DCoords a) (get2DCoords b) = false))
    end.
Proof.
  intros Hn Hs. induction nIterations as [|k IH]; intros best smallest g.
  - left. reflexivity.
  - cbn [iterations].
    pose proof (iteration_spec get2DCoords points draws nSamples maxSquaredDistance
                  best smallest g Hn Hs) as Hit.
    destruct (iteration get2DCoords points draws nSamples maxSquaredDistance
                (best, smallest, g)) as [[[best1 smallest1] g1]|s]; [|exact Hit].
    specialize (IH best1 smallest1 g1).
    destruct (iterations get2DCoords points draws nSamples maxSquaredDistance k
                (best1, smallest1, g1)) as [[[best2 smallest2] g2]|s]; [|exact IH].
    destruct IH as [->|Hvalid]; [|right; exact Hvalid].
    destruct Hit as [[-> _]|Hvalid]; [left; reflexivity|right; exact Hvalid].
Qed.

Lemma nSamples_range (points : list Point) (nSamples : N) :
  2 <= nPoints points ->
  1 <= (if (nSamples =? 0)%N then nPoints points
        else Z.min (Z.of_N nSamples) (nPoints points)) <= nPoints points.
Proof. intros Hn. destruct (N.eqb_spec nSamples 0); lia. Qed.

Lemma fitSegment2D_spec (draws : nat) (points : list Point) (nIterations nSamples : N)
    (maxInliersDistance : TFloat) (g : G) :
  nPoints points <= INT32_MAX ->
  match snd (fitSegment2D get2DCoords indeterminate_mse indeterminate_isValid
                          draws points nIterations nSamples maxInliersDistance g) with
  | Stops s => s = DrawsSpent
  | Returns seg =>
      (nPoints points < 2 /\ seg = Segment2D_value) \/
      (2 <= nPoints points /\
       (seg = Default \/
        (m_isValid seg = true /\ (exists a b, In a points /\ In b points /\
           arePointsEqual (get2DCoords a) (get2DCoords b) = false))))
  end.
Proof.
  intros Hint. unfold fitSegment2D.
  destruct (Z.ltb_spec (nPoints points) 2) as [Hlt|Hge]; cbn [snd].
  - left. split; [exact Hlt|reflexivity].
  - match goal with
    | |- context [iterations ?gc ?p ?d ?ns ?mx ?k (?b, ?sm, ?g0)] =>
        pose proof (iterations_spec p d ns mx k ltac:(lia)
                      (nSamples_range points nSamples Hge) b sm g0) as Hits;
        destruct (iterations gc p d ns mx k (b, sm, g0)) as [[[best sm'] g']|s]
    end; [|exact Hits].
    right. split; [exact Hge|exact Hits].
Qed.

(** X22: on a range of at most 2^31 - 1 points, [fitSegment2D] returns a
    segment unless the draws of [iB] go on giving [iA]: it throws no
    [std::out_of_range] and reads and writes inside its ranges. *)
Theorem fitSegment2D_in_range (draws : nat) (points : list Point) (nIterations nSamples : N)
    (maxInliersDistance : TFloat) (g : G) :
  nPoints points <= INT32_MAX ->
  let run := snd (fitSegment2D get2DCoords indeterminate_mse indeterminate_isValid
                               draws points nIterations nSamples maxInliersDistance g) in
  (exists seg, run = Returns seg) \/ run = Stops DrawsSpent.
Proof.
  intros Hint run. subst run.
  pose proof (fitSegment2D_spec draws points nIterations nSamples maxInliersDistance g Hint)
    as Hspec.
  destruct (snd _) as [seg|s]; [left; exists seg; reflexivity|right; rewrite Hspec; reflexivity].
Qed.

(** X23: the segment [fitSegment2D] returns for two points or more is valid,
    with two points of the range that [arePointsEqual] tells apart, or it is
    the default-initialised [bestFitSegment], whose [m_mse] and [m_isValid]
    the function has never written; the latter whenever all the points are
    equal to one another. *)
Theorem fitSegment2D_validity (draws : nat) (points : list Point) (nIterations nSamples : N)
    (maxInliersDistance : TFloat) (g : G) (seg : Segment2D) :
  2 <= nPoints points <= INT32_MAX ->
  snd (fitSegment2D get2DCoords indeterminate_mse indeterminate_isValid
                    draws points nIterations nSamples maxInliersDistance g) = Returns seg ->
  (seg = Default \/
   (m_isValid seg = true /\ exists a b, In a points /\ In b points /\
      arePointsEqual (get2DCoords a) (get2DCoords b) = false)) /\
  ((forall a b, In a points -> In b points ->
      arePointsEqual (get2DCoords a) (get2DCoords b) = true) ->
   seg = Default).
Proof.
  intros Hn Hrun.
  pose proof (fitSegment2D_spec draws points nIterations nSamples maxInliersDistance g
                ltac:(lia)) as Hspec.
  rewrite Hrun in Hspec. destruct Hspec as [[Hlt _]|[_ Hspec]]; [lia|].
  split; [exact Hspec|]. intros Hequal.
  destruct Hspec as [Hdef|(_ & a & b & Ha & Hb & Hdiff)]; [exact Hdef|].
  rewrite (Hequal a b Ha Hb) in Hdiff. discriminate.
Qed.

End Fitting.

Import DoubleArith DoubleFitting.

Lemma floyd_sampling_witness :
  exists st,
    sampleLoop (fun p => p) Samples.zigzag PrimFloat.one PrimFloat.zero
               PrimFloat.infinity PrimFloat.infinity (S (Z.to_nat 3))
               (mkSampling PrimFloat.zero [] (replicate (length Samples.zigzag) false)
                           (nPoints Samples.zigzag - 3) 0)
    = Some (Returns st) /\
    length (wasSampled st) = length Samples.zigzag.
Proof.
  destruct (floyd_sampling (G := Z) (fun p => p) Samples.zigzag PrimFloat.one PrimFloat.zero
              PrimFloat.infinity PrimFloat.infinity 3 PrimFloat.zero [] 0)
    as (st & Hrun & Hlen & _).
  - vm_compute. discriminate.
  - vm_compute. split; discriminate.
  - exists st. split; [exact Hrun|exact Hlen].
Defined.

Lemma fitSegment2D_in_range_witness :
  let run := snd (fitSegment2D (G := Z) (fun p => p) PrimFloat.zero false
                               2 Samples.zigzag 3 0 PrimFloat.zero 0) in
  (exists seg, run = Returns seg) \/ run = Stops DrawsSpent.
Proof.
  apply (fitSegment2D_in_range (G := Z) (fun p => p) PrimFloat.zero false
           2 Samples.zigzag 3 0 PrimFloat.zero 0).
  vm_compute. discriminate.
Defined.

Lemma fitSegment2D_validity_witness :
  mkSegment2D (PrimFloat.zero, PrimFloat.zero) (PrimFloat.zero, PrimFloat.zero)
              PrimFloat.zero false
  = Segment2D_default PrimFloat.zero false.
Proof.
  apply (fitSegment2D_validity (G := Z) (fun p => p) PrimFloat.zero false
           2 [Samples.pt 1 1; Samples.pt 1 1] 3 0 PrimFloat.zero 0).
  - vm_compute. split; discriminate.
  - vm_compute. reflexivity.
  - intros a b [<-|[<-|[]]] [<-|[<-|[]]]; vm_compute; reflexivity.
Defined.

(** X24: a fit that has failed leaves no inlier.  With the value-initialised
    or the default-initialised segment, whose two ends are the point (0, 0),
    and [double] coordinates, [partitionInliers2D] leaves the range as it is
    and returns [first], for every threshold but 0, for which it returns
    [last]. *)
Theorem partitionInliers2D_failed_fit `{StdPartition} {Point : Type}
    (get2DCoords : Point -> PrimFloat.float * PrimFloat.float) (points : list Point)
    (mse : PrimFloat.float) (isValid : bool) (maxInliersDistance : PrimFloat.float) :
  partitionInliers2D get2DCoords points (Segment2D_default mse isValid) maxInliersDistance
  = (points, if f_eqb maxInliersDistance f_zero then length points else O).
Proof.
  unfold partitionInliers2D. destruct (f_eqb maxInliersDistance f_zero); [reflexivity|].
  cbn [m_begin m_end Segment2D_default].
  replace (f_isnan (computeSlope (f_zero, f_zero) (f_zero, f_zero))) with true
    by (vm_compute; reflexivity).
  reflexivity.
Qed.

End FittingExtras.

(** * The utilities on [double] *)

Module DoubleExtras.
Import PrimFloat FloatOps FloatAxioms SpecFloat.
Import DoubleArith FittingUtils.

Lemma div_nan_r (x : float) : div x nan = nan.
Proof.
  rewrite <- (SF2Prim_Prim2SF (div x nan)), div_spec.
  change (Prim2SF nan) with S754_nan.
  unfold SF64div, SFdiv. destruct (Prim2SF x); reflexivity.
Qed.

Lemma ltb_nan_r (x : float) : ltb x nan = false.
Proof.
  rewrite ltb_spec. change (Prim2SF nan) with S754_nan.
  unfold SFltb, SFcompare. destruct (Prim2SF x); reflexivity.
Qed.

(** X26: on [double] coordinates, the squared distance to a segment whose
    two ends [arePointsEqual] takes for equal is the smaller of the squared
    distances to the two ends: the slope is then a NaN, the projection on
    the line has a NaN abscissa, and the comparisons with it fail. *)
Theorem degenerate_segment_distance (point pointA pointB : float * float) :
  arePointsEqual pointA pointB = true ->
  computeSquaredDistanceToSegment point pointA pointB
  = f_min (computeSquaredDistanceToPoint point pointA)
          (computeSquaredDistanceToPoint point pointB).
Proof.
  intros Hequal. unfold computeSquaredDistanceToSegment, computeSlope. rewrite Hequal.
  cbv zeta. unfold computePointProjectionOnLine.
  change (fuzzyCompare f_quiet_NaN f_zero) with false.
  change (f_isinf f_quiet_NaN) with false. cbv iota zeta. cbn [fst snd].
  change (f_sub (f_div f_minus_one f_quiet_NaN) f_quiet_NaN) with nan.
  unfold f_div at 1. cbn [DoubleOps]. rewrite div_nan_r.
  unfold f_lt at 1. cbn [DoubleOps]. rewrite ltb_nan_r. reflexivity.
Qed.

Lemma degenerate_segment_distance_witness :
  computeSquaredDistanceToSegment (Samples.pt 3 4) (Samples.pt 1 1) (Samples.pt 1 1)
  = f_min (computeSquaredDistanceToPoint (Samples.pt 3 4) (Samples.pt 1 1))
          (computeSquaredDistanceToPoint (Samples.pt 3 4) (Samples.pt 1 1)).
Proof. apply degenerate_segment_distance. vm_compute. reflexivity. Defined.

End DoubleExtras.
